(** * EasyTidal: dependency graph, TTL cache, bounded history, layered layout

    A shallow embedding of the core of [src/main.py] and [app.py]:
    - [build_job_graph]          (main.py)  the dependency-graph builder,
    - [JobCache]                 (main.py)  the file-backed TTL cache,
    - [JobHistory]               (main.py)  the capped status history,
    - [get_job_data]             (app.py)   cache-or-rebuild orchestration,
    - [create_hierarchical_layout] (app.py) longest-path layering and
      coordinates.

    Conventions.  Python [str] is [string]; Python [int] is [Z]; a Python
    [dict] whose iteration order is observable is an insertion-ordered
    association list (module [ODict]); a Python [set] is a [gset]; a
    [dict] that is only looked up is a [gmap].  A call that may raise returns a
    [result].  Wall-clock readings are passed in explicitly, as naive
    local datetimes counted in microseconds (the resolution of
    [datetime]).  The interpreter's recursion limit is outside the model:
    the recursion of [assign_level] is bounded by fuel, and the fuel that
    always suffices is computed from the graph. *)

From Stdlib Require Import ZArith QArith List Lia Ascii String.
From stdpp Require Import base tactics option list strings pretty gmap sets relations sorting.

Open Scope Z_scope.

(* [naive_solver] clears hypotheses by name as it goes. *)
Set Warnings "-clear-no-such-hyp".

(* ===================================================================== *)
(** ** Python values shared by the components *)
(* ===================================================================== *)

(** An exception object: its class name (the "kind") and its message. *)
Record exn := Exn { exn_kind : string; exn_message : string }.

(** The outcome of a call that either returns or raises. *)
Inductive result (A : Type) : Type :=
| Ok (a : A)
| Raise (e : exn).
Arguments Ok {A} a.
Arguments Raise {A} e.

(** [str(e)] of an exception built from one message argument. *)
Definition str_exn (e : exn) : string := exn_message e.

(** A job record as returned by the scheduler: [job['id']], [job['name']],
    [job['status']]. *)
Record Job := mkJob { job_id : string; job_name : string; job_status : string }.

(** One element of a trigger list: [trg['triggered_job_name']]. *)
Record Trigger := mkTrigger { triggered_job_name : string }.

(** The part of [TidalAPI] the core uses.  The scheduler is an oracle:
    each method is a function of its argument.  [get_job_status] gives
    the ['status'] field of the response, when the response has one. *)
Record TidalAPI := mkAPI {
  get_jobs : string -> result (list Job);
  get_job_triggers : string -> result (list Trigger);
  get_job_status : string -> result (option string)
}.

(* ===================================================================== *)
(** ** Insertion-ordered dictionaries and Python slices *)
(* ===================================================================== *)

Module ODict.
Section Defs.
Context {K V : Type} `{EqDecision K}.

(** [d.get(k)] *)
Fixpoint get (d : list (K * V)) (k : K) : option V :=
  match d with
  | [] => None
  | (k', v) :: d' => if decide (k' = k) then Some v else get d' k
  end.

(** [d[k] = v]: an existing key keeps its place, a new key goes last. *)
Fixpoint set (d : list (K * V)) (k : K) (v : V) : list (K * V) :=
  match d with
  | [] => [(k, v)]
  | (k', v') :: d' =>
      if decide (k' = k) then (k', v) :: d' else (k', v') :: set d' k v
  end.

(** [list(d.keys())] *)
Definition keys (d : list (K * V)) : list K := map fst d.

End Defs.
End ODict.

(** [l[start:]] with Python's treatment of negative and oversized
    indices. *)
Definition py_slice_from {A : Type} (l : list A) (start : Z) : list A :=
  let len := Z.of_nat (length l) in
  let s := if start <? 0 then Z.max (len + start) 0 else Z.min start len in
  drop (Z.to_nat s) l.

(* ===================================================================== *)
(** ** Directed graphs ([networkx.DiGraph]) *)
(* ===================================================================== *)

(** A [DiGraph] keeps its nodes and its edges in insertion order.
    [nodes] is the iteration order of [G.nodes()]; [edges] lists each
    edge once, in the order of its first insertion, which determines the
    iteration order of [G.predecessors(n)]. *)
Record DiGraph := mkGraph {
  nodes : list string;
  edges : list (string * string)
}.

Definition empty_graph : DiGraph := mkGraph [] [].

(** [G.add_node(n)]: a no-op when [n] is already a node. *)
Definition add_node (n : string) (G : DiGraph) : DiGraph :=
  if decide (n ∈ nodes G) then G else mkGraph (nodes G ++ [n]) (edges G).

(** [G.add_edge(u, v)]: adds the missing endpoints, [u] first, then
    records the edge unless it is already there. *)
Definition add_edge (u v : string) (G : DiGraph) : DiGraph :=
  let G2 := add_node v (add_node u G) in
  if decide ((u, v) ∈ edges G2) then G2
  else mkGraph (nodes G2) (edges G2 ++ [(u, v)]).

(** [list(G.predecessors(n))] *)
Definition predecessors (G : DiGraph) (n : string) : list string :=
  map fst (filter (fun e => e.2 = n) (edges G)).

(** [list(G.neighbors(n))], the successors of [n]. *)
Definition successors (G : DiGraph) (n : string) : list string :=
  map snd (filter (fun e => e.1 = n) (edges G)).

(** [list(G.edges())]: grouped by source node, in node order. *)
Definition graph_edges (G : DiGraph) : list (string * string) :=
  flat_map (fun u => map (fun v => (u, v)) (successors G u)) (nodes G).

Definition has_edge (G : DiGraph) (a b : string) : Prop := (a, b) ∈ edges G.

(** The invariant every [DiGraph] object satisfies: nodes are distinct,
    edges are distinct, and both endpoints of an edge are nodes. *)
Definition wf_graph (G : DiGraph) : Prop :=
  NoDup (nodes G) /\ NoDup (edges G) /\
  Forall (fun e => e.1 ∈ nodes G /\ e.2 ∈ nodes G) (edges G).

#[global] Instance wf_graph_dec (G : DiGraph) : Decision (wf_graph G).
Proof. unfold wf_graph. apply _. Defined.

(** A graph contains a cycle when some node reaches itself along at least
    one edge. *)
Definition acyclic (G : DiGraph) : Prop := forall n, ~ tc (has_edge G) n n.

(** The node-link form stored in the cache ([nx.node_link_data]) and its
    inverse ([nx.node_link_graph]). *)
Record NodeLink := mkNodeLink {
  nl_nodes : list string;
  nl_links : list (string * string)
}.

Definition node_link_data (G : DiGraph) : NodeLink :=
  mkNodeLink (nodes G) (graph_edges G).

Definition node_link_graph (d : NodeLink) : DiGraph :=
  foldl (fun G e => add_edge e.1 e.2 G)
        (foldl (fun G n => add_node n G) empty_graph (nl_nodes d))
        (nl_links d).

(* ===================================================================== *)
(** ** The dependency-graph builder ([build_job_graph], main.py) *)
(* ===================================================================== *)

(** The inner loop [for trg in triggers: G.add_edge(job_name, trg_name)]. *)
Definition add_trigger_edges (name : string) (triggers : list Trigger)
    (G : DiGraph) : DiGraph :=
  foldl (fun G trg => add_edge name (triggered_job_name trg) G) G triggers.

(** The outer loop [for job in jobs], from the graph built so far. *)
Fixpoint build_from (jobs : list Job) (api : TidalAPI) (G : DiGraph)
    : result DiGraph :=
  match jobs with
  | [] => Ok G
  | job :: rest =>
      let G1 := add_node (job_name job) G in
      match get_job_triggers api (job_id job) with
      | Raise e => Raise e
      | Ok triggers =>
          build_from rest api (add_trigger_edges (job_name job) triggers G1)
      end
  end.

Definition build_job_graph (jobs : list Job) (api : TidalAPI) : result DiGraph :=
  build_from jobs api empty_graph.

(** The trigger fetch of job [j] returns, or raises. *)
Definition fetch_ok (api : TidalAPI) (j : Job) : Prop :=
  exists trgs, get_job_triggers api (job_id j) = Ok trgs.

Definition fetch_fails (api : TidalAPI) (j : Job) : Prop :=
  exists e, get_job_triggers api (job_id j) = Raise e.

(** The trigger map seen as a relation: job [j] of the list triggers the
    job named [b]. *)
Definition triggers_name (api : TidalAPI) (j : Job) (b : string) : Prop :=
  exists trgs, get_job_triggers api (job_id j) = Ok trgs /\
               b ∈ map triggered_job_name trgs.

(* ===================================================================== *)
(** ** The TTL cache ([JobCache], main.py) *)
(* ===================================================================== *)

(** What the file system knows about one path: [None] when the path does
    not exist, otherwise the modification time and the stored value. *)
Record file (A : Type) := mkFile { mtime : Z; content : A }.
Arguments mkFile {A} mtime content.
Arguments mtime {A} f.
Arguments content {A} f.

Record JobCache := mkCache { cache_file : string; expiry_hours : Z }.

(** [CACHE_EXPIRY_HOURS] when the environment does not override it. *)
Definition CACHE_EXPIRY_HOURS : Z := 24.

(** [timedelta(hours=h)] in microseconds. *)
Definition timedelta_hours (h : Z) : Z := h * 3600000000.

Definition is_cache_valid {A : Type} (c : JobCache) (now : Z)
    (store : option (file A)) : bool :=
  match store with
  | None => false
  | Some f =>
      let cache_time := mtime f in
      let expiry_time := cache_time + timedelta_hours (expiry_hours c) in
      bool_decide (now < expiry_time)
  end.

(** [save_cache] as seen once the [with] block has completed, at clock
    reading [now]. *)
Definition save_cache {A : Type} (now : Z) (data : A)
    (store : option (file A)) : option (file A) :=
  Some (mkFile now data).

Definition load_cache {A : Type} (store : option (file A)) : option A :=
  match store with
  | Some f => Some (content f)
  | None => None
  end.

(** *** The write inside [save_cache], step by step

    [open(path, 'w')] truncates the file; [json.dump] then hands the text
    to [f.write] chunk by chunk; leaving the [with] block closes the
    file.  The bytes a concurrent reader of the path can find are the
    contents after each of these steps (buffering can only delay a
    chunk, so what is visible is always one of these prefixes). *)
Inductive write_op : Type :=
| OpOpenW
| OpWrite (chunk : string).

Definition apply_write_op (bytes : string) (op : write_op) : string :=
  match op with
  | OpOpenW => ""
  | OpWrite chunk => bytes +:+ chunk
  end.

Definition save_cache_ops (chunks : list string) : list write_op :=
  OpOpenW :: map OpWrite chunks.

(** The successive contents of the file while the operations run, the
    content before the first operation included. *)
Fixpoint run_write_ops (bytes : string) (ops : list write_op) : list string :=
  match ops with
  | [] => [bytes]
  | op :: ops' => bytes :: run_write_ops (apply_write_op bytes op) ops'
  end.

Definition save_cache_observable (old : string) (chunks : list string)
    : list string :=
  run_write_ops old (save_cache_ops chunks).

Definition json_text (chunks : list string) : string :=
  foldr String.append "" chunks.

(* ===================================================================== *)
(** ** The bounded history ([JobHistory], main.py) *)
(* ===================================================================== *)

Record Entry := mkEntry {
  e_timestamp : string;
  e_job_id : string;
  e_job_name : string;
  e_status : string;
  e_output : option string;
  e_error_log : option string
}.

#[global] Instance Entry_eq_dec : EqDecision Entry.
Proof. solve_decision. Defined.

(** The history file: [None] when it does not exist. *)
Definition history_store := option (list Entry).

Definition load_history (store : history_store) : list Entry :=
  match store with
  | Some h => h
  | None => []
  end.

Definition save_history (history : list Entry) : history_store := Some history.

(** [add_status_entry]; [timestamp] is [datetime.now().isoformat()]. *)
Definition add_status_entry (timestamp job_id job_name status : string)
    (output error_log : option string) (store : history_store)
    : history_store :=
  let entry := mkEntry timestamp job_id job_name status output error_log in
  let history := load_history store ++ [entry] in
  let history :=
    if bool_decide (Z.of_nat (length history) > 1000)
    then py_slice_from history (-1000)
    else history in
  save_history history.

Definition get_job_history (store : history_store) (job_name : string)
    (limit : Z) : list Entry :=
  let history := load_history store in
  let job_history := filter (fun entry => e_job_name entry = job_name) history in
  match job_history with
  | [] => []
  | _ :: _ => py_slice_from job_history (- limit)
  end.

(** Appending the observations [es] one after the other. *)
Definition append_entries (es : list Entry) (store : history_store)
    : history_store :=
  foldl (fun store e =>
           add_status_entry (e_timestamp e) (e_job_id e) (e_job_name e)
                            (e_status e) (e_output e) (e_error_log e) store)
        store es.

(** The newest [n] elements of a list. *)
Definition newest {A : Type} (n : nat) (l : list A) : list A :=
  drop (length l - n) l.

(* ===================================================================== *)
(** ** Cache-or-rebuild ([get_job_data], app.py) *)
(* ===================================================================== *)

Record Snapshot := mkSnapshot {
  snap_jobs : list Job;
  snap_graph : NodeLink;
  snap_timestamp : Z
}.

Definition wrap_api_failure (e : exn) : exn :=
  Exn "Exception" ("Unable to connect to Tidal API: " +:+ str_exn e).

(** Returns the outcome of the call and the cache file afterwards. *)
Definition get_job_data (cache : JobCache) (api : TidalAPI)
    (job_directory : string) (now : Z) (store : option (file Snapshot))
    : result (list Job * DiGraph * string) * option (file Snapshot) :=
  let cached_data :=
    if is_cache_valid cache now store then load_cache store else None in
  match cached_data with
  | Some snap =>
      (Ok (snap_jobs snap, node_link_graph (snap_graph snap), "cache"), store)
  | None =>
      match get_jobs api job_directory with
      | Raise e => (Raise (wrap_api_failure e), store)
      | Ok jobs =>
          match build_job_graph jobs api with
          | Raise e => (Raise (wrap_api_failure e), store)
          | Ok G =>
              let cache_data := mkSnapshot jobs (node_link_data G) now in
              (Ok (jobs, G, "api"), save_cache now cache_data store)
          end
      end
  end.

(** *** Forced refresh ([api_refresh], app.py)

    [stamp job] is the clock reading, as text, taken when the entry of
    [job] is made.  The result is the [success] flag of the response,
    the cache file and the history file afterwards. *)

(** The loop over [jobs]: a status fetch that fails is skipped. *)
Definition update_history (api : TidalAPI) (stamp : Job -> string)
    (jobs : list Job) (hist : history_store) : history_store :=
  foldl (fun hist job =>
           match get_job_status api (job_id job) with
           | Ok status =>
               add_status_entry (stamp job) (job_id job) (job_name job)
                                (default "unknown" status) None None hist
           | Raise _ => hist
           end)
        hist jobs.

Definition api_refresh (api : TidalAPI) (job_directory : string) (now : Z)
    (stamp : Job -> string) (store : option (file Snapshot))
    (hist : history_store)
    : bool * option (file Snapshot) * history_store :=
  (* [os.remove(CACHE_FILE)] when the file exists *)
  let store : option (file Snapshot) := None in
  match get_jobs api job_directory with
  | Raise e => (false, store, hist)
  | Ok jobs =>
      match build_job_graph jobs api with
      | Raise e => (false, store, hist)
      | Ok G =>
          let hist := update_history api stamp jobs hist in
          let cache_data := mkSnapshot jobs (node_link_data G) now in
          (true, save_cache now cache_data store, hist)
      end
  end.

(* ===================================================================== *)
(** ** The layered layout ([create_hierarchical_layout], app.py) *)
(* ===================================================================== *)

(** The two variables [assign_level] closes over. *)
Record lstate := mkLState {
  levels : list (string * Z);
  processed : gset string
}.

Definition mark_processed (node : string) (st : lstate) : lstate :=
  mkLState (levels st) (processed st ∪ {[ node ]}).

Definition set_level (node : string) (l : Z) (st : lstate) : lstate :=
  mkLState (ODict.set (levels st) node l) (processed st).

(** The rest of [max(f(pred) for pred in predecessors)] once the running
    maximum is [acc]: the generator calls [f] on each predecessor in
    turn, threading the state. *)
Fixpoint max_levels (f : string -> lstate -> option (Z * lstate))
    (preds : list string) (acc : Z) (st : lstate) : option (Z * lstate) :=
  match preds with
  | [] => Some (acc, st)
  | p :: ps =>
      match f p st with
      | None => None
      | Some (l, st') => max_levels f ps (Z.max acc l) st'
      end
  end.

(** [assign_level(node, level)].  [fuel] is the number of activations of
    [assign_level] the interpreter still allows to be nested: every call
    needs one, also a call that returns at once, and a call made when
    none is left raises [RecursionError], which nothing in the layout
    catches.  [None] is that [RecursionError].  The value returned in
    the last two branches is [levels[node]], just assigned. *)
Fixpoint assign_level (fuel : nat) (G : DiGraph) (node : string) (level : Z)
    (st : lstate) : option (Z * lstate) :=
  match fuel with
  | O => None
  | S fuel' =>
      if decide (node ∈ processed st)
      then Some (default level (ODict.get (levels st) node), st)
      else
        let st1 := mark_processed node st in
        match predecessors G node with
        | [] => Some (0, set_level node 0 st1)
        | p :: ps =>
            match assign_level fuel' G p level st1 with
            | None => None
            | Some (l0, st2) =>
                match max_levels (fun q => assign_level fuel' G q level) ps l0 st2 with
                | None => None
                | Some (max_pred_level, st3) =>
                    Some (max_pred_level + 1,
                          set_level node (max_pred_level + 1) st3)
                end
            end
        end
  end.

(** [for node in G.nodes(): assign_level(node)] *)
Fixpoint assign_all (fuel : nat) (G : DiGraph) (ns : list string)
    (st : lstate) : option lstate :=
  match ns with
  | [] => Some st
  | n :: ns' =>
      match assign_level fuel G n 0 st with
      | None => None
      | Some (_, st') => assign_all fuel G ns' st'
      end
  end.

(** The first half of [create_hierarchical_layout]: the dict [levels]
    after the loop over the nodes.  [depth] is the number of nested
    activations of [assign_level] that the interpreter allows when the
    layout is called; it is set by the interpreter's recursion limit and
    by the frames already on the stack, not by the graph.  [None] is the
    [RecursionError] of a traversal that needs more. *)
Definition assign_levels (depth : nat) (G : DiGraph)
    : option (list (string * Z)) :=
  match assign_all depth G (nodes G) (mkLState [] ∅) with
  | Some st => Some (levels st)
  | None => None
  end.

(** One step of [for node, level in levels.items()]. *)
Definition add_to_group (groups : list (Z * list string)) (nl : string * Z)
    : list (Z * list string) :=
  let '(node, level) := nl in
  let groups :=
    match ODict.get groups level with
    | None => ODict.set groups level []
    | Some _ => groups
    end in
  ODict.set groups level (default [] (ODict.get groups level) ++ [node]).

Definition group_by_level (lv : list (string * Z)) : list (Z * list string) :=
  foldl add_to_group [] lv.

Definition x_spacing : Z := 200.
Definition y_spacing : Q := 100.

(** [(i - num_nodes/2 + 0.5) * y_spacing].  The Python value is a float;
    every intermediate value is a multiple of one half far below 2^53,
    which binary64 represents exactly, so the float is this rational. *)
Definition y_coord (i num_nodes : Z) : Q :=
  (inject_Z i - inject_Z num_nodes / 2 + 0.5) * y_spacing.

(** [for i, node in enumerate(nodes): pos[node] = (x, y)], from index [i]. *)
Fixpoint place_nodes (x : Z) (num_nodes : Z) (i : Z) (ns : list string)
    (pos : gmap string (Z * Q)) : gmap string (Z * Q) :=
  match ns with
  | [] => pos
  | node :: ns' =>
      place_nodes x num_nodes (i + 1) ns'
                  (<[ node := (x, y_coord i num_nodes) ]> pos)
  end.

Definition place_level (pos : gmap string (Z * Q)) (g : Z * list string)
    : gmap string (Z * Q) :=
  let '(level, ns) := g in
  let x := level * x_spacing in
  let num_nodes := Z.of_nat (length ns) in
  place_nodes x num_nodes 0 ns pos.

Definition positions (groups : list (Z * list string)) : gmap string (Z * Q) :=
  foldl place_level ∅ groups.

(** [create_hierarchical_layout(G)] called where [depth] nested
    activations of [assign_level] are allowed; [None] is the
    [RecursionError] passed on from [assign_level]. *)
Definition create_hierarchical_layout (depth : nat) (G : DiGraph)
    : option (gmap string (Z * Q)) :=
  match assign_levels depth G with
  | Some lv => Some (positions (group_by_level lv))
  | None => None
  end.

(** [sys.getrecursionlimit()] of an interpreter whose limit nobody has
    changed.  Every activation of [assign_level] holds at least one
    frame, so no call of the layout is allowed a greater nesting depth
    than this. *)
Definition default_recursion_limit : nat := 1000.

(** The level recorded for [n], [0] when none is. *)
Definition level_of (lv : list (string * Z)) (n : string) : Z :=
  default 0 (ODict.get lv n).

(** The nodes of level [l], in the order [levels] lists them. *)
Definition nodes_at (lv : list (string * Z)) (l : Z) : list string :=
  map fst (filter (fun nl => nl.2 = l) lv).

(** [max] of a non-empty sequence given as head and tail. *)
Definition max_of (x : Z) (xs : list Z) : Z := foldl Z.max x xs.

(** The recursive longest-path definition, read at node [n] of a level
    assignment [lvl]: [0] without predecessors, otherwise one more than
    the greatest level of a predecessor. *)
Definition longest_path_rule (G : DiGraph) (lvl : string -> Z) (n : string)
    : Prop :=
  lvl n = match predecessors G n with
          | [] => 0
          | p :: ps => 1 + max_of (lvl p) (map lvl ps)
          end.

(** *** Invariants of the traversal *)

Definition node_set (G : DiGraph) : gset string := list_to_set (nodes G).

Definition level_keys (st : lstate) : gset string :=
  list_to_set (ODict.keys (levels st)).

(** Only nodes are processed, only processed nodes have a level, and no
    node has two. *)
Definition lstate_inv (G : DiGraph) (st : lstate) : Prop :=
  processed st ⊆ node_set G /\
  level_keys st ⊆ processed st /\
  NoDup (ODict.keys (levels st)).

(** [st'] comes after [st]: the processed set has grown, and [levels] has
    been extended at its end by exactly the nodes processed since. *)
Definition lstate_ext (st st' : lstate) : Prop :=
  processed st ⊆ processed st' /\
  exists new, levels st' = levels st ++ new /\
              list_to_set (ODict.keys new) = processed st' ∖ processed st.

(** Every recorded level obeys the longest-path rule, is recorded only
    after the levels of all predecessors, and is not negative. *)
Definition levels_good (G : DiGraph) (lv : list (string * Z)) : Prop :=
  forall n, n ∈ ODict.keys lv ->
    (forall p, p ∈ predecessors G n -> p ∈ ODict.keys lv) /\
    longest_path_rule G (level_of lv) n /\
    0 <= level_of lv n.

(** [chain] follows first predecessors: the predecessor that
    [assign_level] visits first at a node of the chain is the next node
    of the chain. *)
Fixpoint first_pred_chain (G : DiGraph) (chain : list string) : Prop :=
  match chain with
  | c :: ((c' :: _) as rest) =>
      head (predecessors G c) = Some c' /\ first_pred_chain G rest
  | _ => True
  end.

(** The nodes still on the recursion stack (processed, no level yet) are
    all reached from [node] along at least one edge. *)
Definition stack_reached (G : DiGraph) (node : string) (st : lstate) : Prop :=
  forall s, s ∈ processed st -> s ∉ ODict.keys (levels st) ->
    tc (has_edge G) node s.

(* ===================================================================== *)
(** ** Sample inputs *)
(* ===================================================================== *)

Definition jobA : Job := mkJob "1" "A" "success".
Definition jobB : Job := mkJob "2" "B" "running".
Definition jobC : Job := mkJob "3" "C" "pending".

Definition api_of (triggers : string -> result (list Trigger)) : TidalAPI :=
  mkAPI (fun _ => Ok [jobA; jobB; jobC]) triggers (fun _ => Ok (Some "success")).

(** Triggers A→B, B→C. *)
Definition api_chain : TidalAPI :=
  api_of (fun id =>
            if decide (id = "1") then Ok [mkTrigger "B"]
            else if decide (id = "2") then Ok [mkTrigger "C"]
            else Ok []).

(** Triggers A→B, B→A. *)
Definition api_cycle : TidalAPI :=
  api_of (fun id =>
            if decide (id = "1") then Ok [mkTrigger "B"]
            else if decide (id = "2") then Ok [mkTrigger "A"]
            else Ok []).

(** The trigger fetch of job B times out. *)
Definition api_failing : TidalAPI :=
  api_of (fun id =>
            if decide (id = "1") then Ok [mkTrigger "B"]
            else if decide (id = "2")
                 then Raise (Exn "TimeoutError" "Failed to get job triggers for 2")
            else Ok []).

Definition graph_chain : DiGraph := mkGraph ["A"; "B"; "C"] [("A", "B"); ("B", "C")].
Definition graph_cycle : DiGraph := mkGraph ["A"; "B"] [("A", "B"); ("B", "A")].

(** Jobs listed as C, A, B with the one trigger B→C. *)
Definition graph_fork : DiGraph := mkGraph ["C"; "A"; "B"] [("B", "C")].

(** The chain [0 → 1 → ... → n-1] of [n] jobs, each triggering the next,
    listed last job first. *)
Definition chain_deepest_first (n : nat) : DiGraph :=
  mkGraph (map pretty (reverse (seq 0 n)))
          (map (fun i : nat => (pretty i, pretty (S i))) (seq 0 (n - 1))).

(** A chain with one job more than the default recursion limit. *)
Definition deep_chain : DiGraph :=
  chain_deepest_first (S default_recursion_limit).

(** The position of [s] in [l], the length of [l] when it is not there. *)
Fixpoint index_of (s : string) (l : list string) : nat :=
  match l with
  | [] => 0
  | x :: l' => if decide (x = s) then 0 else S (index_of s l')
  end.

(** A ranking that witnesses the acyclicity of [chain_deepest_first n]:
    the number of the job. *)
Definition rank_in_chain (n : nat) (s : string) : Z :=
  Z.of_nat (index_of s (map pretty (seq 0 n))).

(** A ranking that witnesses the acyclicity of [graph_chain]. *)
Definition rank_chain (n : string) : Z :=
  if decide (n = "A") then 0 else if decide (n = "B") then 1 else 2.

Definition entry_n (n : nat) : Entry :=
  mkEntry (pretty n) "1" "A" "success" None None.


(* ===================================================================== *)
(** ** Further code of [main.py] and [app.py] *)
(* ===================================================================== *)

(** *** History endpoints (app.py) *)

(** The body of [/api/history]: [job_name] is
    [request.args.get('job_name')], [limit] the parsed [limit] argument;
    the value is the list sent under ['history']. *)
Definition api_history (store : history_store) (job_name : option string)
    (limit : Z) : list Entry :=
  let truthy := match job_name with
                | Some name => bool_decide (name <> "")
                | None => false
                end in
  if truthy
  then get_job_history store (default "" job_name) limit
  else py_slice_from (load_history store) (- limit).

(** The body of [/api/jobs/<job_id>/history]: the list sent under
    ['history']. *)
Definition get_job_history_api (store : history_store) (job_id : string)
    : list Entry :=
  let all_history := load_history store in
  let job_history := filter (fun entry => e_job_id entry = job_id) all_history in
  py_slice_from job_history (-10).

(** [sorted] on strings: Python orders [str] by code point, which on
    the encoded bytes is [String.le]. *)
Definition sorted_names (names : list string) : list string :=
  merge_sort String.le names.

(** The two values [/history] hands to its template: the entries shown
    and [sorted(job_names)] where
    [job_names = list(set(entry['job_name'] for entry in all_history))]. *)
Definition history_page (store : history_store) : list Entry * list string :=
  let all_history := load_history store in
  let job_names : gset string := list_to_set (map e_job_name all_history) in
  (py_slice_from all_history (-50), sorted_names (elements job_names)).

(** *** The job listing endpoint ([api_jobs], app.py) *)

(** [G.number_of_edges()] *)
Definition number_of_edges (G : DiGraph) : Z := Z.of_nat (length (edges G)).

Record JobsResponse := mkJobsResponse {
  resp_jobs : list Job;
  resp_dependencies : list (string * string);
  resp_data_source : string;
  resp_job_count : Z;
  resp_edge_count : Z;
  resp_timestamp : Z
}.

(** A JSON response with its status code: 200 with a body, or 503 with
    the ['message'] of the error body. *)
Inductive http_response (A : Type) : Type :=
| Http200 (body : A)
| Http503 (message : string).
Arguments Http200 {A} body.
Arguments Http503 {A} message.

Definition api_jobs (cache : JobCache) (api : TidalAPI) (job_directory : string)
    (now : Z) (store : option (file Snapshot))
    : http_response JobsResponse * option (file Snapshot) :=
  match get_job_data cache api job_directory now store with
  | (Ok (jobs, G, data_source), store') =>
      (Http200 (mkJobsResponse jobs (graph_edges G) data_source
                               (Z.of_nat (length jobs)) (number_of_edges G) now),
       store')
  | (Raise e, store') => (Http503 (str_exn e), store')
  end.

(** *** Request URLs ([TidalAPI], main.py) *)

(** [s.rstrip('/')] *)
Fixpoint rstrip_slash (s : string) : string :=
  match s with
  | EmptyString => EmptyString
  | String c s' =>
      match rstrip_slash s' with
      | EmptyString => if decide (c = "/"%char) then EmptyString
                       else String c EmptyString
      | r => String c r
      end
  end.

(** [self.base_url] as [__init__] stores it. *)
Definition api_base_url (base_url : string) : string := rstrip_slash base_url.

(** The URL [get_job_triggers] requests, for the [base_url] given to the
    constructor. *)
Definition triggers_url (base_url job_id : string) : string :=
  api_base_url base_url +:+ "/api/jobs/" +:+ job_id +:+ "/dependencies".

(** Whether a string ends with a slash. *)
Fixpoint ends_with_slash (s : string) : bool :=
  match s with
  | EmptyString => false
  | String c EmptyString => bool_decide (c = "/"%char)
  | String _ s' => ends_with_slash s'
  end.

(** *** Plot data ([create_plotly_graph], app.py) *)

(** [pos[k]]: a missing key raises [KeyError]. *)
Definition getitem (pos : gmap string (Z * Q)) (k : string) : result (Z * Q) :=
  match pos !! k with
  | Some v => Ok v
  | None => Raise (Exn "KeyError" k)
  end.

(** The loop [for edge in G.edges()], from the lists built so far. *)
Fixpoint edge_trace (pos : gmap string (Z * Q)) (es : list (string * string))
    (edge_x : list (option Z)) (edge_y : list (option Q))
    : result (list (option Z) * list (option Q)) :=
  match es with
  | [] => Ok (edge_x, edge_y)
  | edge :: es' =>
      match getitem pos edge.1 with
      | Raise e => Raise e
      | Ok (x0, y0) =>
          match getitem pos edge.2 with
          | Raise e => Raise e
          | Ok (x1, y1) =>
              edge_trace pos es' (edge_x ++ [Some x0; Some x1; None])
                                 (edge_y ++ [Some y0; Some y1; None])
          end
      end
  end.

(** The coordinates gathered by the loop [for node in G.nodes()]:
    [node_x] and [node_y]. *)
Fixpoint node_trace (pos : gmap string (Z * Q)) (ns : list string)
    (node_x : list Z) (node_y : list Q) : result (list Z * list Q) :=
  match ns with
  | [] => Ok (node_x, node_y)
  | node :: ns' =>
      match getitem pos node with
      | Raise e => Raise e
      | Ok (x, y) => node_trace pos ns' (node_x ++ [x]) (node_y ++ [y])
      end
  end.

(** [s.split(sep)] for a separator of one ASCII character.  A text is
    held as its UTF-8 bytes, and no byte of a longer character equals an
    ASCII byte, so splitting the bytes splits the text. *)
Fixpoint split_on (sep : ascii) (s : string) : list string :=
  match s with
  | EmptyString => [EmptyString]
  | String c s' =>
      if decide (c = sep) then EmptyString :: split_on sep s'
      else match split_on sep s' with
           | part :: rest => String c part :: rest
           | [] => [String c EmptyString]
           end
  end.

(** Whether a byte of a UTF-8 text continues a character (it has the
    form [10xxxxxx]) rather than starts one. *)
Definition is_continuation (c : ascii) : bool :=
  match c with
  | Ascii _ _ _ _ _ _ b6 b7 => b7 && negb b6
  end.

(** [len(s)]: the number of characters of a text held as UTF-8 bytes. *)
Fixpoint str_len (s : string) : nat :=
  match s with
  | EmptyString => 0
  | String c s' => if is_continuation c then str_len s' else S (str_len s')
  end.

(** [s[:n]]: the first [n] characters of the text, a character being a
    leading byte with the continuation bytes that follow it. *)
Fixpoint str_take (n : nat) (s : string) : string :=
  match s with
  | EmptyString => EmptyString
  | String c s' =>
      if is_continuation c then String c (str_take n s')
      else match n with
           | O => EmptyString
           | S n' => String c (str_take n' s')
           end
  end.

(** [t.split('T')[0] + ' ' + t.split('T')[1][:8]]; the second index
    raises [IndexError] when [t] holds no ['T']. *)
Definition format_time (t : string) : result string :=
  match split_on "T" t with
  | d :: tm :: _ => Ok (d +:+ " " +:+ str_take 8 tm)
  | _ => Raise (Exn "IndexError" "list index out of range")
  end.

(** The text shown for the start time of a node: [start_time] is
    [job_details.get('start_time')]. *)
Definition start_str (start_time : option string) : string :=
  match start_time with
  | Some t =>
      if decide (t = "") then "Not started"
      else match format_time t with
           | Ok text => text
           | Raise _ => "Invalid time"
           end
  | None => "Not started"
  end.

(** The text shown for the end time of a node. *)
Definition end_str (status : string) (end_time : option string) : string :=
  let unfinished :=
    if decide (status = "running") then "In progress" else "Not finished" in
  match end_time with
  | Some t =>
      if decide (t = "") then unfinished
      else match format_time t with
           | Ok text => text
           | Raise _ => "Invalid time"
           end
  | None => unfinished
  end.

(** Whether the character occurs in the string. *)
Fixpoint str_contains (c : ascii) (s : string) : bool :=
  match s with
  | EmptyString => false
  | String c' s' => bool_decide (c' = c) || str_contains c s'
  end.

(** *** What the status loop records *)

(** The entry the loop of [api_refresh] and [main] appends for [job],
    when its status fetch returns. *)
Definition status_entries (api : TidalAPI) (stamp : Job -> string)
    (jobs : list Job) : list Entry :=
  flat_map (fun job =>
              match get_job_status api (job_id job) with
              | Ok status =>
                  [mkEntry (stamp job) (job_id job) (job_name job)
                           (default "unknown" status) None None]
              | Raise _ => []
              end)
           jobs.

(** *** The command-line run ([main], main.py)

    The run as far as it touches the jobs, the two files and what it
    prints last; the drawing in between ([visualize_graph]) reads [G]
    only.  The result holds the final value of [jobs], the entries
    printed as recent history, the cache file and the history file.
    Unlike [get_job_data], a failure of the scheduler is passed on as it
    is. *)
Definition main (cache : JobCache) (api : TidalAPI) (job_directory : string)
    (now : Z) (stamp : Job -> string) (store : option (file Snapshot))
    (hist : history_store)
    : result (list Job * list Entry * option (file Snapshot) * history_store) :=
  let cached_data :=
    if is_cache_valid cache now store then load_cache store else None in
  let fetched :=
    match cached_data with
    | Some snap =>
        Ok (snap_jobs snap, node_link_graph (snap_graph snap), store)
    | None =>
        match get_jobs api job_directory with
        | Raise e => Raise e
        | Ok jobs =>
            match build_job_graph jobs api with
            | Raise e => Raise e
            | Ok G =>
                let cache_data := mkSnapshot jobs (node_link_data G) now in
                Ok (jobs, G, save_cache now cache_data store)
            end
        end
    end in
  match fetched with
  | Raise e => Raise e
  | Ok (jobs, G, store) =>
      let hist := update_history api stamp jobs hist in
      let recent_history :=
        match jobs with
        | [] => []
        | job :: _ => get_job_history hist (job_name job) 5
        end in
      Ok (jobs, recent_history, store, hist)
  end.

(** *** The history viewer ([view_job_history], view_history.py) *)

(** The lines printed below the heading; [job_name] is the first
    command-line argument, [None] when there is none. *)
Definition view_job_history (store : history_store) (job_name : option string)
    : list string :=
  let truthy := match job_name with
                | Some name => bool_decide (name <> "")
                | None => false
                end in
  if truthy
  then map (fun entry => "  " +:+ e_timestamp entry +:+ ": " +:+ e_status entry)
           (get_job_history store (default "" job_name) 20)
  else map (fun entry => "  " +:+ e_timestamp entry +:+ ": " +:+
                         e_job_name entry +:+ " - " +:+ e_status entry)
           (py_slice_from (load_history store) (-20)).

(** *** The earlier dashboard ([get_job_data], src/web/app.py) *)

(** The jobs and the graph served when the scheduler cannot be reached. *)
Definition sample_jobs : list Job :=
  [mkJob "1" "Job_A" "success"; mkJob "2" "Job_B" "running";
   mkJob "3" "Job_C" "pending"].

Definition sample_graph : DiGraph :=
  add_edge "Job_B" "Job_C" (add_edge "Job_A" "Job_B" empty_graph).

(** [get_job_data] of the earlier dashboard: the outcome and the cache
    file afterwards. *)
Definition get_job_data_web (cache : JobCache) (api : TidalAPI)
    (job_directory : string) (now : Z) (store : option (file Snapshot))
    : (list Job * DiGraph * string) * option (file Snapshot) :=
  let cached_data :=
    if is_cache_valid cache now store then load_cache store else None in
  match cached_data with
  | Some snap =>
      ((snap_jobs snap, node_link_graph (snap_graph snap), "cache"), store)
  | None =>
      match get_jobs api job_directory with
      | Raise e => ((sample_jobs, sample_graph, "sample"), store)
      | Ok jobs =>
          match build_job_graph jobs api with
          | Raise e => ((sample_jobs, sample_graph, "sample"), store)
          | Ok G =>
              let cache_data := mkSnapshot jobs (node_link_data G) now in
              ((jobs, G, "api"), save_cache now cache_data store)
          end
      end
  end.

(** *** Further sample inputs *)

(** The two bytes of the letter e with an acute accent. *)
Definition e_acute : string := String "195" (String "169" EmptyString).

(** [s * n] *)
Fixpoint str_repeat (n : nat) (s : string) : string :=
  match n with
  | O => EmptyString
  | S n' => s +:+ str_repeat n' s
  end.

(** The status fetch of job B fails, job C reports no status. *)
Definition api_status_gaps : TidalAPI :=
  mkAPI (fun _ => Ok [jobA; jobB; jobC])
        (fun _ => Ok [])
        (fun id =>
           if decide (id = "1") then Ok (Some "success")
           else if decide (id = "2") then Raise (Exn "Exception" "Failed to get job status for 2")
           else Ok None).

(** The chain with its edges inserted in the other order. *)
Definition graph_chain_rev : DiGraph :=
  mkGraph ["C"; "B"; "A"] [("B", "C"); ("A", "B")].

(** Two triggers into C, inserted B first. *)
Definition graph_join : DiGraph :=
  mkGraph ["A"; "B"; "C"] [("B", "C"); ("A", "C")].

Definition rank_join (n : string) : Z :=
  if decide (n = "C") then 1 else 0.

(** Closes a decidable closed goal by evaluating its decision. *)
Ltac decide_by_computation :=
  match goal with
  | |- ?P => refine (bool_decide_unpack P _); vm_compute; exact I
  end.

(* ===================================================================== *)
(** * Facts about ordered dictionaries and slices *)
(* ===================================================================== *)

Section ODictFacts.
Context {K V : Type} `{EqDecision K}.
Implicit Types (d : list (K * V)) (k : K) (v : V).

Lemma odict_get_None d k : ODict.get d k = None <-> k ∉ ODict.keys d.
Proof.
  induction d as [|[k' v] d IH]; simpl.
  - split; [intros _; apply not_elem_of_nil | done].
  - destruct (decide (k' = k)) as [->|Hne].
    + split; [done | intros Hn; exfalso; apply Hn; left].
    + rewrite IH, not_elem_of_cons.
      split; [intros Hn; split; [congruence | done] | by intros [_ Hn]].
Qed.

Lemma odict_get_is_Some d k : is_Some (ODict.get d k) <-> k ∈ ODict.keys d.
Proof.
  rewrite <- not_eq_None_Some, odict_get_None. split.
  - intros Hn. destruct (decide (k ∈ ODict.keys d)); [done | contradiction].
  - intros Hin Hn. contradiction.
Qed.

Lemma odict_set_fresh d k v :
  k ∉ ODict.keys d -> ODict.set d k v = d ++ [(k, v)].
Proof.
  induction d as [|[k' v'] d IH]; simpl; [done|].
  rewrite not_elem_of_cons. intros [Hne Hnin].
  destruct (decide (k' = k)); [congruence|]. by rewrite IH.
Qed.

Lemma odict_get_app d1 d2 k :
  ODict.get (d1 ++ d2) k =
  match ODict.get d1 k with Some v => Some v | None => ODict.get d2 k end.
Proof.
  induction d1 as [|[k' v'] d1 IH]; simpl; [done|].
  destruct (decide (k' = k)); [done | apply IH].
Qed.

Lemma odict_get_set_eq d k v : ODict.get (ODict.set d k v) k = Some v.
Proof.
  induction d as [|[k' v'] d IH]; simpl.
  - by rewrite decide_True.
  - destruct (decide (k' = k)) as [->|Hne]; simpl.
    + by rewrite decide_True.
    + by rewrite decide_False.
Qed.

Lemma odict_get_set_ne d k k' v :
  k ≠ k' -> ODict.get (ODict.set d k v) k' = ODict.get d k'.
Proof.
  intros Hne. induction d as [|[k0 v0] d IH]; simpl.
  - by rewrite decide_False.
  - destruct (decide (k0 = k)) as [->|Hne0]; simpl.
    + by rewrite !decide_False.
    + destruct (decide (k0 = k')); [done | apply IH].
Qed.

Lemma odict_keys_set_present d k v :
  k ∈ ODict.keys d -> ODict.keys (ODict.set d k v) = ODict.keys d.
Proof.
  induction d as [|[k0 v0] d IH]; simpl.
  - intros Hin. by apply elem_of_nil in Hin.
  - intros Hin. destruct (decide (k0 = k)) as [->|Hne]; simpl; [done|].
    f_equal. apply IH. apply elem_of_cons in Hin as [->|Hin]; [done | exact Hin].
Qed.

End ODictFacts.

Lemma py_slice_from_neg {A : Type} (l : list A) (n : Z) :
  0 < n -> py_slice_from l (- n) = drop (length l - Z.to_nat n) l.
Proof.
  intros Hn. unfold py_slice_from.
  destruct (Z.ltb_spec (- n) 0) as [_|Hge]; [|lia].
  f_equal. lia.
Qed.

Lemma py_slice_from_zero {A : Type} (l : list A) : py_slice_from l 0 = l.
Proof.
  unfold py_slice_from. simpl. replace (Z.to_nat _) with 0%nat by lia. done.
Qed.

(* ===================================================================== *)
(** * Facts about graph construction *)
(* ===================================================================== *)

Lemma elem_of_nodes_add_node n m G :
  m ∈ nodes (add_node n G) <-> m = n \/ m ∈ nodes G.
Proof.
  unfold add_node. destruct (decide (n ∈ nodes G)) as [Hin|Hnin]; simpl.
  - split; [auto | intros [->|Hm]; done].
  - rewrite elem_of_app, list_elem_of_singleton. tauto.
Qed.

Lemma edges_add_node n G : edges (add_node n G) = edges G.
Proof. unfold add_node. by destruct (decide (n ∈ nodes G)). Qed.

Lemma wf_graph_empty : wf_graph empty_graph.
Proof. repeat split; simpl; constructor. Qed.

Lemma wf_graph_add_node n G : wf_graph G -> wf_graph (add_node n G).
Proof.
  intros (Hn & He & Hends). unfold add_node.
  destruct (decide (n ∈ nodes G)) as [Hin|Hnin]; [done|].
  repeat split; simpl; [|done|].
  - apply NoDup_app. repeat split; [done| |apply NoDup_singleton].
    intros x Hx Hx'. apply list_elem_of_singleton in Hx' as ->. done.
  - eapply Forall_impl; [exact Hends|]. intros e [H1 H2].
    rewrite !elem_of_app. auto.
Qed.

Lemma elem_of_nodes_add_edge u v m G :
  m ∈ nodes (add_edge u v G) <-> m = u \/ m = v \/ m ∈ nodes G.
Proof.
  unfold add_edge. destruct (decide _); simpl;
    rewrite !elem_of_nodes_add_node; tauto.
Qed.

Lemma elem_of_edges_add_edge u v e G :
  e ∈ edges (add_edge u v G) <-> e = (u, v) \/ e ∈ edges G.
Proof.
  unfold add_edge. cbv zeta.
  destruct (decide _) as [Hin|Hnin]; simpl.
  - rewrite !edges_add_node in *. split; [auto | intros [->|He]; done].
  - rewrite !edges_add_node, elem_of_app, list_elem_of_singleton. tauto.
Qed.

Lemma wf_graph_add_edge u v G : wf_graph G -> wf_graph (add_edge u v G).
Proof.
  intros Hwf.
  assert (Hwf2 : wf_graph (add_node v (add_node u G)))
    by (by do 2 apply wf_graph_add_node).
  assert (Hu : u ∈ nodes (add_node v (add_node u G)))
    by (rewrite !elem_of_nodes_add_node; auto).
  assert (Hv : v ∈ nodes (add_node v (add_node u G)))
    by (rewrite !elem_of_nodes_add_node; auto).
  unfold add_edge. destruct (decide _) as [Hin|Hnin]; [done|].
  destruct Hwf2 as (Hn & He & Hends). repeat split; simpl; [done| |].
  - apply NoDup_app. repeat split; [done| |apply NoDup_singleton].
    intros x Hx Hx'. apply list_elem_of_singleton in Hx' as ->. done.
  - apply Forall_app. split; [done|]. by repeat constructor.
Qed.

Lemma wf_graph_add_trigger_edges name trgs G :
  wf_graph G -> wf_graph (add_trigger_edges name trgs G).
Proof.
  unfold add_trigger_edges. revert G.
  induction trgs as [|t trgs IH]; intros G Hwf; simpl; [done|].
  apply IH. by apply wf_graph_add_edge.
Qed.

Lemma elem_of_nodes_add_trigger_edges name trgs m G :
  m ∈ nodes (add_trigger_edges name trgs G) <->
  m ∈ nodes G \/ (trgs <> [] /\ m = name) \/ m ∈ map triggered_job_name trgs.
Proof.
  unfold add_trigger_edges. revert G.
  induction trgs as [|t trgs IH]; intros G; simpl.
  - rewrite elem_of_nil. naive_solver.
  - rewrite IH, elem_of_nodes_add_edge, elem_of_cons.
    destruct trgs; simpl; naive_solver.
Qed.

Lemma elem_of_edges_add_trigger_edges name trgs e G :
  e ∈ edges (add_trigger_edges name trgs G) <->
  e ∈ edges G \/ (e.1 = name /\ e.2 ∈ map triggered_job_name trgs).
Proof.
  unfold add_trigger_edges. revert G.
  induction trgs as [|t trgs IH]; intros G; simpl.
  - rewrite elem_of_nil. naive_solver.
  - rewrite IH, elem_of_edges_add_edge, elem_of_cons.
    destruct e as [a b]; simpl. naive_solver.
Qed.

(** What [build_from] returns when every fetch succeeds, relative to the
    graph it starts from. *)
Lemma build_from_Ok jobs api G0 G :
  build_from jobs api G0 = Ok G ->
  (wf_graph G0 -> wf_graph G) /\
  (forall n, n ∈ nodes G <->
     n ∈ nodes G0 \/ n ∈ map job_name jobs \/
     exists j, j ∈ jobs /\ triggers_name api j n) /\
  (forall a b, (a, b) ∈ edges G <->
     (a, b) ∈ edges G0 \/
     exists j, j ∈ jobs /\ job_name j = a /\ triggers_name api j b).
Proof.
  revert G0. induction jobs as [|j jobs IH]; intros G0; simpl.
  - intros [= ->]. split; [done|]. split.
    + intros n. rewrite elem_of_nil. split; [auto|].
      intros [Hn|[[]|(j & Hj & _)]]; [done|]. by apply elem_of_nil in Hj.
    + intros a b. split; [auto|].
      intros [Hn|(j & Hj & _)]; [done|]. by apply elem_of_nil in Hj.
  - destruct (get_job_triggers api (job_id j)) as [trgs|e] eqn:Hfetch; [|done].
    intros Hb. apply IH in Hb as (Hwf & Hnodes & Hedges). split; [|split].
    + intros Hwf0. apply Hwf, wf_graph_add_trigger_edges.
      by apply wf_graph_add_node.
    + intros n. rewrite Hnodes, elem_of_nodes_add_trigger_edges,
        elem_of_nodes_add_node, elem_of_cons.
      split.
      * intros [[[->|Hn]|[[_ ->]|Hn]]|[Hn|(j' & Hj' & Ht)]]; auto.
        -- right; right. exists j. split; [left|]. by exists trgs.
        -- right; right. exists j'. split; [by right | done].
      * intros [Hn|[[->|Hn]|(j' & Hj' & Ht)]]; auto.
        apply elem_of_cons in Hj' as [->|Hj'].
        -- destruct Ht as (trgs' & Hf' & Hin). rewrite Hfetch in Hf'.
           injection Hf' as <-. auto.
        -- right; right. by exists j'.
    + intros a b. rewrite Hedges, elem_of_edges_add_trigger_edges,
        edges_add_node. simpl. split.
      * intros [[He|[-> Hb]]|(j' & Hj' & Hn' & Ht)]; auto.
        -- right. exists j. split; [left|]. split; [done|]. by exists trgs.
        -- right. exists j'. split; [by right | done].
      * intros [He|(j' & Hj' & Hn' & Ht)]; auto.
        apply elem_of_cons in Hj' as [->|Hj'].
        -- destruct Ht as (trgs' & Hf' & Hin). rewrite Hfetch in Hf'.
           injection Hf' as <-. subst a. auto.
        -- right. by exists j'.
Qed.

(** [build_from] succeeds exactly when every fetch does. *)
Lemma build_from_total jobs api G0 :
  Forall (fetch_ok api) jobs ->
  exists G, build_from jobs api G0 = Ok G.
Proof.
  intros Hall. revert G0. induction Hall as [|j jobs [trgs Hj] _ IH]; intros G0; simpl.
  - by exists G0.
  - rewrite Hj. apply IH.
Qed.

(** The first failing fetch decides the outcome, whatever follows it. *)
Lemma build_from_first_failure pre j post api e G0 :
  Forall (fetch_ok api) pre ->
  get_job_triggers api (job_id j) = Raise e ->
  build_from (pre ++ j :: post) api G0 = Raise e.
Proof.
  intros Hpre Hj. revert G0.
  induction Hpre as [|j' pre [trgs Hj'] _ IH]; intros G0; simpl.
  - by rewrite Hj.
  - rewrite Hj'. apply IH.
Qed.

(** A job list with a failing fetch splits at its first failure. *)
Lemma first_failure_split (jobs : list Job) (api : TidalAPI) :
  Exists (fetch_fails api) jobs ->
  exists pre j post e,
    jobs = pre ++ j :: post /\ Forall (fetch_ok api) pre /\
    get_job_triggers api (job_id j) = Raise e.
Proof.
  induction jobs as [|j jobs IH]; intros Hex; [by apply Exists_nil in Hex|].
  destruct (get_job_triggers api (job_id j)) as [trgs|e] eqn:Hj.
  - apply Exists_cons in Hex as [[e He]|Hex]; [congruence|].
    destruct (IH Hex) as (pre & j' & post & e & -> & Hpre & Hj').
    exists (j :: pre), j', post, e. split; [done|]. split; [|done].
    constructor; [by exists trgs | done].
  - exists [], j, jobs, e. by repeat split.
Qed.

(* ===================================================================== *)
(** * The graph builder: node set, edge set, fail-fast *)
(* ===================================================================== *)

(** C6.  When every trigger fetch succeeds, [build_job_graph] returns a
    graph (it never fails because of a name).  Its nodes are exactly the
    job names of the list together with the triggered names that are not
    job names (the implicit nodes); every trigger of a listed job is an
    edge from the job's name to the triggered name, whose target is a
    node even when it is not in the job list; and there is no other
    edge. *)
Theorem build_job_graph_nodes_and_edges (jobs : list Job) (api : TidalAPI) :
  Forall (fetch_ok api) jobs ->
  exists G,
    build_job_graph jobs api = Ok G /\
    wf_graph G /\
    (forall n, n ∈ nodes G <->
       n ∈ map job_name jobs \/
       ((n ∉ map job_name jobs) /\ exists j, j ∈ jobs /\ triggers_name api j n)) /\
    (forall j b, j ∈ jobs -> triggers_name api j b ->
       has_edge G (job_name j) b /\ b ∈ nodes G) /\
    (forall a b, has_edge G a b ->
       exists j, j ∈ jobs /\ job_name j = a /\ triggers_name api j b).
Proof.
  intros Hall. unfold build_job_graph.
  destruct (build_from_total jobs api empty_graph Hall) as [G HG].
  exists G. split; [exact HG|].
  apply build_from_Ok in HG as (Hwf & Hnodes & Hedges).
  split; [apply Hwf, wf_graph_empty|].
  assert (Hn : forall n, n ∈ nodes G <->
            n ∈ map job_name jobs \/ exists j, j ∈ jobs /\ triggers_name api j n).
  { intros n. rewrite Hnodes. simpl. rewrite elem_of_nil. tauto. }
  assert (He : forall a b, (a, b) ∈ edges G <->
            exists j, j ∈ jobs /\ job_name j = a /\ triggers_name api j b).
  { intros a b. rewrite Hedges. simpl. rewrite elem_of_nil. tauto. }
  split; [|split].
  - intros n. rewrite Hn.
    destruct (decide (n ∈ map job_name jobs)) as [Hin|Hnin]; [tauto|].
    split; [intros [?|?]; auto | intros [?|[_ ?]]; auto].
  - intros j b Hj Ht. split.
    + apply He. by exists j.
    + apply Hn. right. by exists j.
  - intros a b Hab. by apply He.
Qed.

Lemma build_job_graph_nodes_and_edges_witness :
  exists G,
    build_job_graph [jobA; jobB] api_chain = Ok G /\
    ("C" ∉ map job_name [jobA; jobB]) /\
    "C" ∈ nodes G /\ has_edge G "B" "C".
Proof.
  assert (Hall : Forall (fetch_ok api_chain) [jobA; jobB]).
  { repeat constructor; eexists; reflexivity. }
  destruct (build_job_graph_nodes_and_edges [jobA; jobB] api_chain Hall)
    as (G & HG & _ & _ & Hedge & _).
  exists G. split; [exact HG|].
  split; [by vm_compute; intros H%list_elem_of_In; simpl in H; intuition discriminate|].
  assert (Ht : triggers_name api_chain jobB "C").
  { exists [mkTrigger "C"]. split; [reflexivity | left]. }
  destruct (Hedge jobB "C" ltac:(right; left) Ht) as [He Hn].
  split; [exact Hn | exact He].
Defined.

(** C5.  When the trigger fetch of some job of the list fails,
    [build_job_graph] fails with the exception of the first such fetch,
    the very object the fetch raised, and does so whatever jobs follow
    the failing one.  [get_job_data], called for such a job list, leaves
    the cache file exactly as it was (on a cache miss it raises, without
    having saved anything); [api_refresh] reports failure, leaves no
    cache file and does not touch the history. *)
Theorem build_job_graph_fail_fast (jobs : list Job) (api : TidalAPI) :
  Exists (fetch_fails api) jobs ->
  exists pre j post e,
    jobs = pre ++ j :: post /\ Forall (fetch_ok api) pre /\
    get_job_triggers api (job_id j) = Raise e /\
    build_job_graph jobs api = Raise e /\
    (forall post', build_job_graph (pre ++ j :: post') api = Raise e) /\
    forall cache dir now store,
      get_jobs api dir = Ok jobs ->
      (get_job_data cache api dir now store).2 = store /\
      (is_cache_valid cache now store = false ->
       (get_job_data cache api dir now store).1 = Raise (wrap_api_failure e)) /\
      (forall stamp hist,
         api_refresh api dir now stamp store hist = (false, None, hist)).
Proof.
  intros Hex.
  destruct (first_failure_split jobs api Hex) as (pre & j & post & e & -> & Hpre & Hj).
  exists pre, j, post, e.
  assert (Hb : forall post', build_job_graph (pre ++ j :: post') api = Raise e)
    by (intros post'; by apply build_from_first_failure).
  do 3 (split; [done|]). split; [apply Hb|]. split; [exact Hb|].
  intros cache dir now store Hjobs. unfold get_job_data, api_refresh.
  rewrite Hjobs, Hb.
  destruct (is_cache_valid cache now store); [destruct (load_cache store)|];
    simpl; repeat split; done.
Qed.

Lemma build_job_graph_fail_fast_witness :
  Exists (fetch_fails api_failing) [jobA; jobB; jobC] /\
  build_job_graph [jobA; jobB; jobC] api_failing =
    Raise (Exn "TimeoutError" "Failed to get job triggers for 2") /\
  (get_job_data (mkCache "data/job_graph_cache.json" 24) api_failing
                "dir" 0 None).2 = None.
Proof.
  assert (Hex : Exists (fetch_fails api_failing) [jobA; jobB; jobC]).
  { apply Exists_cons_tl, Exists_cons_hd. eexists. reflexivity. }
  split; [exact Hex|].
  destruct (build_job_graph_fail_fast [jobA; jobB; jobC] api_failing Hex)
    as (pre & j & post & e & _ & _ & _ & Hb & _ & Hcache).
  split.
  - rewrite Hb. vm_compute in Hb. exact (eq_sym Hb).
  - exact (proj1 (Hcache (mkCache "data/job_graph_cache.json" 24) "dir" 0 None
                         eq_refl)).
Defined.

(* ===================================================================== *)
(** * The bounded history *)
(* ===================================================================== *)

Lemma length_newest {A : Type} (n : nat) (l : list A) :
  (length (newest n l) <= n)%nat.
Proof. unfold newest. rewrite length_drop. lia. Qed.

Lemma newest_all {A : Type} (n : nat) (l : list A) :
  (length l <= n)%nat -> newest n l = l.
Proof.
  unfold newest. intros Hle.
  replace (length l - n)%nat with 0%nat by lia. apply drop_0.
Qed.

Lemma newest_snoc {A : Type} (n : nat) (l : list A) (x : A) :
  (0 < n)%nat -> newest n (newest n l ++ [x]) = newest n (l ++ [x]).
Proof.
  intros Hn. unfold newest. rewrite !length_app, length_drop. simpl.
  destruct (decide (length l <= n)%nat) as [Hle|Hgt].
  - replace (length l - n)%nat with 0%nat by lia. rewrite drop_0.
    f_equal. lia.
  - rewrite drop_app_le by (rewrite length_drop; lia).
    rewrite drop_drop, (drop_app_le l) by lia.
    do 2 f_equal. lia.
Qed.

Lemma load_add_status_entry ts id name st out err (store : history_store) :
  load_history (add_status_entry ts id name st out err store) =
  newest 1000 (load_history store ++ [mkEntry ts id name st out err]).
Proof.
  unfold add_status_entry, save_history. simpl.
  case_bool_decide as Hlen.
  - change (-1000) with (- (1000)).
    rewrite py_slice_from_neg by lia. reflexivity.
  - symmetry. apply newest_all. lia.
Qed.

Lemma load_append_entries (es : list Entry) (store : history_store) :
  es <> [] ->
  load_history (append_entries es store) = newest 1000 (load_history store ++ es).
Proof.
  induction es as [|e es IH] using rev_ind; [done|]. intros _.
  unfold append_entries. rewrite foldl_snoc. fold (append_entries es store).
  rewrite load_add_status_entry.
  replace (mkEntry _ _ _ _ _ _) with e by (by destruct e).
  destruct es as [|e0 es0].
  - simpl. done.
  - rewrite IH by done. rewrite newest_snoc by lia. by rewrite app_assoc.
Qed.

Lemma get_job_history_positive_limit (store : history_store) (name : string)
    (limit : Z) :
  0 < limit ->
  get_job_history store name limit =
  newest (Z.to_nat limit)
         (filter (fun entry => e_job_name entry = name) (load_history store)).
Proof.
  intros Hpos. unfold get_job_history.
  destruct (filter _ _) as [|e l] eqn:Hf; [done|].
  by rewrite py_slice_from_neg.
Qed.

(** C3, as the code has it.  The cap is the constant 1000 written in
    [add_status_entry]; nothing configures it.  Whatever the log held
    before, one [add_status_entry] leaves the newest 1000 entries of the
    old log followed by the new entry, hence at most 1000 entries, the
    oldest dropped first; any non-empty run of appends leaves the newest
    1000 of everything; appending [1000 + k] entries to an absent log
    leaves these entries without their first [k]; reading returns the
    stored log whole, however long; and appending e1..e1002 leaves
    exactly e3..e1002. *)
Theorem add_status_entry_keeps_newest_1000 (store : history_store) :
  (forall ts id name st out err,
     load_history (add_status_entry ts id name st out err store) =
       newest 1000 (load_history store ++ [mkEntry ts id name st out err]) /\
     (length (load_history (add_status_entry ts id name st out err store))
        <= 1000)%nat) /\
  (forall es, es <> [] ->
     load_history (append_entries es store) =
       newest 1000 (load_history store ++ es)) /\
  (forall es k, length es = (1000 + k)%nat ->
     load_history (append_entries es None) = drop k es) /\
  (forall h name limit,
     load_history (Some h) = h /\
     (0 < limit ->
      get_job_history (Some h) name limit =
        newest (Z.to_nat limit)
               (filter (fun entry => e_job_name entry = name) h))) /\
  load_history (append_entries (map entry_n (seq 1 1002)) None) =
    map entry_n (seq 3 1000).
Proof.
  split; [|split; [|split; [|split]]].
  - intros ts id name st out err. rewrite load_add_status_entry.
    split; [done | apply length_newest].
  - intros es Hes. by apply load_append_entries.
  - intros es k Hlen. rewrite load_append_entries by (intros ->; simpl in Hlen; lia).
    simpl. unfold newest. f_equal. lia.
  - intros h name limit. split; [done|]. apply get_job_history_positive_limit.
  - vm_compute. reflexivity.
Qed.

(** C3, with a cap of 3, fails: [add_status_entry] knows no cap but
    1000, and five appends to an absent log leave all five entries, a
    log longer than 3 and different from e3, e4, e5. *)
Lemma history_cap_3_counterexample :
  load_history (append_entries (map entry_n [1; 2; 3; 4; 5]%nat) None)
    = map entry_n [1; 2; 3; 4; 5]%nat /\
  ~ (length (load_history
               (append_entries (map entry_n [1; 2; 3; 4; 5]%nat) None))
       <= 3)%nat /\
  load_history (append_entries (map entry_n [1; 2; 3; 4; 5]%nat) None)
    <> map entry_n [3; 4; 5]%nat.
Proof.
  split; [vm_compute; reflexivity|].
  split; [vm_compute; lia | vm_compute; discriminate].
Qed.

(** C7, at the limit 0: [job_history[-0:]] is the whole list, so every
    entry of the job comes back where the most recent 0 entries are
    none; with two entries of job A in the log, both are returned.  For
    a limit of 1 or more the result is the newest [limit] matching
    entries, oldest first; a negative limit drops that many of the
    oldest matching entries instead. *)
Theorem get_job_history_limit_zero_returns_all :
  (forall store name,
     get_job_history store name 0 =
       filter (fun entry => e_job_name entry = name) (load_history store)) /\
  get_job_history (Some [entry_n 1; entry_n 2]) "A" 0 = [entry_n 1; entry_n 2] /\
  (forall store name limit, 0 < limit ->
     get_job_history store name limit =
       newest (Z.to_nat limit)
              (filter (fun entry => e_job_name entry = name) (load_history store))) /\
  get_job_history (Some [entry_n 1; entry_n 2]) "A" (-1) = [entry_n 2].
Proof.
  split; [|split; [|split]].
  - intros store name. unfold get_job_history.
    destruct (filter _ _) as [|e l]; [done|]. apply py_slice_from_zero.
  - vm_compute. reflexivity.
  - apply get_job_history_positive_limit.
  - vm_compute. reflexivity.
Qed.

(* ===================================================================== *)
(** * The TTL cache *)
(* ===================================================================== *)

Lemma is_cache_valid_spec {A : Type} (c : JobCache) (now : Z)
    (store : option (file A)) :
  is_cache_valid c now store = true <->
  exists f, store = Some f /\ now - mtime f < timedelta_hours (expiry_hours c).
Proof.
  unfold is_cache_valid. destruct store as [f|]; simpl.
  - rewrite bool_decide_eq_true. split.
    + intros Hlt. exists f. split; [done | lia].
    + intros (f' & [= <-] & Hlt). lia.
  - split; [done | intros (f & Hf & _); done].
Qed.

(** C4.  [is_cache_valid] holds exactly when the cache file exists and
    the time elapsed since its last modification is less than the
    configured number of hours; with a positive setting (24 hours unless
    overridden) it holds at the instant [save_cache] completes and for as
    long as less than the TTL has elapsed since, and it fails once the
    TTL or more has elapsed. *)
Theorem is_cache_valid_iff_younger_than_ttl {A : Type} (c : JobCache)
    (store : option (file A)) :
  0 < expiry_hours c ->
  (forall now,
     is_cache_valid c now store = true <->
     exists f, store = Some f /\
               now - mtime f < timedelta_hours (expiry_hours c)) /\
  (forall (data : A) t,
     is_cache_valid c t (save_cache t data store) = true) /\
  (forall (data : A) t t',
     t' - t < timedelta_hours (expiry_hours c) ->
     is_cache_valid c t' (save_cache t data store) = true) /\
  (forall (data : A) t t',
     timedelta_hours (expiry_hours c) <= t' - t ->
     is_cache_valid c t' (save_cache t data store) = false).
Proof.
  intros Hpos. split; [|split; [|split]].
  - intros now. apply is_cache_valid_spec.
  - intros data t. apply is_cache_valid_spec. eexists. split; [reflexivity|].
    simpl. unfold timedelta_hours. lia.
  - intros data t t' Hlt. apply is_cache_valid_spec. eexists.
    split; [reflexivity | exact Hlt].
  - intros data t t' Hge. apply not_true_is_false.
    intros (f & [= <-] & Hlt)%is_cache_valid_spec. simpl in Hlt. lia.
Qed.

Lemma is_cache_valid_iff_younger_than_ttl_witness :
  0 < expiry_hours (mkCache "data/job_graph_cache.json" CACHE_EXPIRY_HOURS) /\
  timedelta_hours CACHE_EXPIRY_HOURS = 24 * 60 * 60 * 1000000 /\
  is_cache_valid (mkCache "data/job_graph_cache.json" CACHE_EXPIRY_HOURS) 5
                 (save_cache 5 "snapshot" None) = true /\
  is_cache_valid (mkCache "data/job_graph_cache.json" CACHE_EXPIRY_HOURS)
                 (5 + 24 * 60 * 60 * 1000000 + 1)
                 (save_cache 5 "snapshot" None) = false.
Proof.
  assert (Hpos : 0 < expiry_hours
                       (mkCache "data/job_graph_cache.json" CACHE_EXPIRY_HOURS))
    by (vm_compute; reflexivity).
  destruct (is_cache_valid_iff_younger_than_ttl
              (mkCache "data/job_graph_cache.json" CACHE_EXPIRY_HOURS)
              (@None (file string)) Hpos) as (_ & Hsave & _ & Hexp).
  split; [exact Hpos|]. split; [reflexivity|].
  split; [apply Hsave|]. apply Hexp. vm_compute. discriminate.
Defined.

Lemma string_app_assoc (s1 s2 s3 : string) :
  (s1 +:+ s2) +:+ s3 = s1 +:+ (s2 +:+ s3).
Proof.
  induction s1 as [|a s1 IH]; [done|].
  change (String a ((s1 +:+ s2) +:+ s3) = String a (s1 +:+ (s2 +:+ s3))).
  by rewrite IH.
Qed.

Lemma string_app_empty_r (s : string) : s +:+ "" = s.
Proof.
  induction s as [|a s IH]; [done|].
  change (String a (s +:+ "") = String a s). by rewrite IH.
Qed.

Lemma run_write_ops_head (bytes : string) (ops : list write_op) :
  head (run_write_ops bytes ops) = Some bytes.
Proof. by destruct ops. Qed.

Lemma run_write_ops_writes_last (bytes : string) (chunks : list string) :
  last (run_write_ops bytes (map OpWrite chunks)) =
  Some (bytes +:+ json_text chunks).
Proof.
  revert bytes. induction chunks as [|c chunks IH]; intros bytes; simpl.
  - by rewrite string_app_empty_r.
  - specialize (IH (bytes +:+ c)). rewrite string_app_assoc in IH.
    destruct (run_write_ops _ _) eqn:Hrun; [|exact IH].
    destruct chunks; discriminate.
Qed.

Lemma run_write_ops_writes_prefix (bytes : string) (chunks : list string)
    (s : string) :
  s ∈ run_write_ops bytes (map OpWrite chunks) ->
  exists k, s = bytes +:+ json_text (take k chunks).
Proof.
  revert bytes. induction chunks as [|c chunks IH]; intros bytes; simpl.
  - intros ->%list_elem_of_singleton. exists 0%nat. simpl.
    by rewrite string_app_empty_r.
  - intros [->|Hin]%elem_of_cons.
    + exists 0%nat. simpl. by rewrite string_app_empty_r.
    + apply IH in Hin as [k ->]. exists (S k). simpl.
      apply string_app_assoc.
Qed.

(** C10, as the code has it.  [save_cache] writes the cache file in
    place.  A reader of the path during the call finds the old bytes,
    then an empty file, then growing prefixes of the new text: every
    observable content is the old content or a prefix of the new text,
    the empty file is always among them, and the last one is the complete
    text; once the call has completed, [load_cache] returns the data
    saved. *)
Theorem save_cache_overwrites_in_place (old : string) (chunks : list string) :
  head (save_cache_observable old chunks) = Some old /\
  "" ∈ save_cache_observable old chunks /\
  last (save_cache_observable old chunks) = Some (json_text chunks) /\
  (forall s, s ∈ save_cache_observable old chunks ->
     s = old \/ exists k, s = json_text (take k chunks)) /\
  (forall (A : Type) (now : Z) (data : A) (store : option (file A)),
     load_cache (save_cache now data store) = Some data).
Proof.
  unfold save_cache_observable, save_cache_ops. simpl.
  split; [done|]. split; [|split; [|split]].
  - right. destruct chunks; left.
  - pose proof (run_write_ops_writes_last "" chunks) as Hlast. simpl in Hlast.
    destruct (run_write_ops "" (map OpWrite chunks)) eqn:Hrun; [|exact Hlast].
    destruct chunks; discriminate.
  - intros s [->|Hin]%elem_of_cons; [by left | right].
    apply run_write_ops_writes_prefix in Hin as [k ->]. by exists k.
  - done.
Qed.

(** C10, as claimed, fails: while [save_cache] replaces the text [[1]] by
    the two chunks of [{}], a reader can find the file empty, or holding
    only the first chunk; neither is the old snapshot or the new one. *)
Lemma save_cache_not_atomic :
  ~ (forall s, s ∈ save_cache_observable "[1]" ["{"; "}"] ->
       s = "[1]" \/ s = json_text ["{"; "}"]).
Proof.
  intros Hatomic.
  destruct (Hatomic "") as [Hold|Hnew]; [right; left | discriminate Hold |
                                         discriminate Hnew].
Qed.

(* ===================================================================== *)
(** * The layered layout: level assignment *)
(* ===================================================================== *)

Lemma max_of_ge_head (x : Z) (xs : list Z) : x <= max_of x xs.
Proof.
  unfold max_of. revert x. induction xs as [|y xs IH]; intros x; simpl; [lia|].
  specialize (IH (Z.max x y)). lia.
Qed.

Lemma max_of_ge_elem (x y : Z) (xs : list Z) : y ∈ xs -> y <= max_of x xs.
Proof.
  unfold max_of. revert x. induction xs as [|z xs IH]; intros x Hin; simpl.
  - by apply elem_of_nil in Hin.
  - apply elem_of_cons in Hin as [->|Hin]; [|by apply IH].
    pose proof (max_of_ge_head (Z.max x z) xs) as Hge. unfold max_of in Hge. lia.
Qed.

Lemma elem_of_predecessors (G : DiGraph) (p n : string) :
  p ∈ predecessors G n <-> has_edge G p n.
Proof.
  unfold predecessors, has_edge. rewrite list_elem_of_fmap. split.
  - intros ([a b] & -> & [Hb Hin]%list_elem_of_filter). simpl in *. by subst.
  - intros Hin. exists (p, n). split; [done|]. by apply list_elem_of_filter.
Qed.

Lemma has_edge_nodes (G : DiGraph) (a b : string) :
  wf_graph G -> has_edge G a b -> a ∈ nodes G /\ b ∈ nodes G.
Proof.
  intros (_ & _ & Hends) Hab. rewrite Forall_forall in Hends.
  exact (Hends (a, b) Hab).
Qed.

Lemma level_of_app_old (lv new : list (string * Z)) (n : string) :
  n ∈ ODict.keys lv -> level_of (lv ++ new) n = level_of lv n.
Proof.
  intros [l Hl]%odict_get_is_Some. unfold level_of.
  by rewrite odict_get_app, Hl.
Qed.

Lemma longest_path_rule_ext (G : DiGraph) (f g : string -> Z) (n : string) :
  f n = g n -> (forall p, p ∈ predecessors G n -> f p = g p) ->
  longest_path_rule G f n -> longest_path_rule G g n.
Proof.
  unfold longest_path_rule. intros Hn Hp Hf. rewrite <- Hn, Hf.
  destruct (predecessors G n) as [|p ps]; [done|].
  rewrite (Hp p) by left.
  replace (map g ps) with (map f ps); [done|].
  apply map_ext_in. intros q Hq. apply Hp. right. by apply list_elem_of_In.
Qed.

Lemma levels_good_app_old (G : DiGraph) (lv new : list (string * Z)) (n : string) :
  levels_good G lv -> n ∈ ODict.keys lv ->
  (forall p, p ∈ predecessors G n -> p ∈ ODict.keys (lv ++ new)) /\
  longest_path_rule G (level_of (lv ++ new)) n /\
  0 <= level_of (lv ++ new) n.
Proof.
  intros Hgood Hn. destruct (Hgood n Hn) as (Hpreds & Hrule & Hnonneg).
  split; [|split].
  - intros p Hp. unfold ODict.keys. rewrite map_app, elem_of_app.
    left. by apply Hpreds.
  - eapply longest_path_rule_ext; [| |exact Hrule].
    + symmetry. by apply level_of_app_old.
    + intros p Hp. symmetry. apply level_of_app_old. by apply Hpreds.
  - by rewrite level_of_app_old.
Qed.

Lemma lstate_ext_refl (st : lstate) : lstate_ext st st.
Proof.
  split; [done|]. exists []. rewrite app_nil_r. split; [done|]. set_solver.
Qed.

Lemma lstate_ext_trans (st1 st2 st3 : lstate) :
  lstate_ext st1 st2 -> lstate_ext st2 st3 -> lstate_ext st1 st3.
Proof.
  intros [Hp12 (new1 & Hl1 & Hk1)] [Hp23 (new2 & Hl2 & Hk2)].
  split; [set_solver|]. exists (new1 ++ new2). split.
  - by rewrite Hl2, Hl1, app_assoc.
  - unfold ODict.keys in *. rewrite map_app, list_to_set_app_L, Hk1, Hk2.
    apply set_eq. intros x. rewrite elem_of_union, !elem_of_difference.
    destruct (decide (x ∈ processed st2)); set_solver.
Qed.

Lemma lstate_ext_keys (st st' : lstate) :
  lstate_ext st st' ->
  level_keys st' = level_keys st ∪ (processed st' ∖ processed st).
Proof.
  intros [_ (new & Hl & Hk)]. unfold level_keys, ODict.keys in *.
  by rewrite Hl, map_app, list_to_set_app_L, Hk.
Qed.

(** The processed nodes without a level are the same before and after. *)
Lemma lstate_ext_stack (G : DiGraph) (st st' : lstate) (s : string) :
  lstate_inv G st -> lstate_ext st st' ->
  s ∈ processed st' -> s ∉ ODict.keys (levels st') ->
  s ∈ processed st /\ s ∉ ODict.keys (levels st).
Proof.
  intros (_ & Hkeys & _) Hext Hs Hnk.
  pose proof (lstate_ext_keys _ _ Hext) as Hk. unfold level_keys in *.
  assert (Hnk' : s ∉ (list_to_set (ODict.keys (levels st')) : gset string))
    by (by rewrite elem_of_list_to_set).
  rewrite Hk in Hnk'. split.
  - destruct (decide (s ∈ processed st)); [done|]. set_solver.
  - intros Hin. apply Hnk'. apply elem_of_union_l. by rewrite elem_of_list_to_set.
Qed.

Lemma unprocessed_shrinks (G : DiGraph) (P : gset string) (node : string) :
  node ∈ node_set G -> node ∉ P ->
  (size (node_set G ∖ (P ∪ {[ node ]})) < size (node_set G ∖ P))%nat.
Proof.
  intros Hn Hnp. apply subset_size. set_solver.
Qed.

Lemma unprocessed_mono (G : DiGraph) (P P' : gset string) :
  P ⊆ P' -> (size (node_set G ∖ P') <= size (node_set G ∖ P))%nat.
Proof. intros Hsub. apply subseteq_size. set_solver. Qed.

Section AssignLevel.
Variable G : DiGraph.
Hypothesis Hwf : wf_graph G.

Lemma assign_level_unfold (fuel : nat) (node : string) (level : Z) (st : lstate) :
  assign_level (S fuel) G node level st =
  if decide (node ∈ processed st)
  then Some (default level (ODict.get (levels st) node), st)
  else
    match predecessors G node with
    | [] => Some (0, set_level node 0 (mark_processed node st))
    | p :: ps =>
        match assign_level fuel G p level (mark_processed node st) with
        | None => None
        | Some (l0, st2) =>
            match max_levels (fun q => assign_level fuel G q level) ps l0 st2 with
            | None => None
            | Some (m, st3) => Some (m + 1, set_level node (m + 1) st3)
            end
        end
    end.
Proof. reflexivity. Qed.

Lemma predecessors_in_node_set (node p : string) :
  p ∈ predecessors G node -> p ∈ node_set G.
Proof.
  intros Hp%elem_of_predecessors. apply elem_of_list_to_set.
  by apply (has_edge_nodes G p node).
Qed.

Lemma lstate_inv_mark (node : string) (st : lstate) :
  node ∈ node_set G -> lstate_inv G st -> lstate_inv G (mark_processed node st).
Proof.
  intros Hn (Hp & Hk & Hnd). unfold lstate_inv, level_keys in *. simpl.
  repeat split; [set_solver | set_solver | done].
Qed.

(** Recording the level of a node that has none yet, after a run of
    calls started from [mark_processed node st]. *)
Lemma set_level_fresh (node : string) (v : Z) (st st3 : lstate) :
  node ∈ node_set G -> node ∉ processed st ->
  lstate_inv G st -> lstate_inv G st3 ->
  lstate_ext (mark_processed node st) st3 ->
  levels (set_level node v st3) = levels st3 ++ [(node, v)] /\
  lstate_inv G (set_level node v st3) /\
  lstate_ext st (set_level node v st3) /\
  node ∈ processed (set_level node v st3).
Proof.
  intros Hn Hnp (Hp & Hk & Hnd) (Hp3 & Hk3 & Hnd3) Hext.
  pose proof (lstate_ext_keys _ _ Hext) as Hkeys3.
  destruct Hext as [Hsub (new & Hl3 & Hnew)].
  unfold level_keys in *. simpl in *.
  assert (Hfresh : node ∉ ODict.keys (levels st3)).
  { intros Hin. apply (elem_of_list_to_set (C := gset string)) in Hin.
    rewrite Hkeys3 in Hin. set_solver. }
  assert (Hset : ODict.set (levels st3) node v = levels st3 ++ [(node, v)])
    by (by apply odict_set_fresh).
  split; [exact Hset|]. unfold lstate_inv, lstate_ext, level_keys. simpl.
  rewrite Hset. unfold ODict.keys in *.
  split; [|split].
  - repeat split.
    + done.
    + rewrite map_app, list_to_set_app_L. simpl. set_solver.
    + rewrite map_app. apply NoDup_app. repeat split; [done| |apply NoDup_singleton].
      intros x Hx ->%list_elem_of_singleton. done.
  - split; [set_solver|]. exists (new ++ [(node, v)]). split.
    + by rewrite Hl3, app_assoc.
    + rewrite map_app, list_to_set_app_L, Hnew. simpl.
      apply set_eq. intros x.
      destruct (decide (x = node)) as [->|Hne]; set_solver.
  - set_solver.
Qed.

Lemma max_levels_spec (fuel : nat) (level : Z) :
  (forall node st,
     node ∈ node_set G -> lstate_inv G st ->
     (size (node_set G ∖ processed st) < fuel)%nat ->
     exists l st',
       assign_level fuel G node level st = Some (l, st') /\
       lstate_inv G st' /\ lstate_ext st st' /\ node ∈ processed st' /\
       (acyclic G -> levels_good G (levels st) -> stack_reached G node st ->
        levels_good G (levels st') /\ ODict.get (levels st') node = Some l)) ->
  forall ps acc st,
    (forall q, q ∈ ps -> q ∈ node_set G) -> lstate_inv G st ->
    (size (node_set G ∖ processed st) < fuel)%nat ->
    exists m st',
      max_levels (fun q => assign_level fuel G q level) ps acc st = Some (m, st') /\
      lstate_inv G st' /\ lstate_ext st st' /\
      (acyclic G -> levels_good G (levels st) ->
       (forall q, q ∈ ps -> stack_reached G q st) ->
       levels_good G (levels st') /\
       (forall q, q ∈ ps -> q ∈ ODict.keys (levels st')) /\
       m = max_of acc (map (level_of (levels st')) ps)).
Proof.
  intros Hcall ps. induction ps as [|q ps IHps]; intros acc st Hps Hinv Hsize.
  - exists acc, st. simpl. split; [done|]. split; [done|].
    split; [apply lstate_ext_refl|]. intros _ Hgood _.
    split; [done|]. split; [|done]. intros q Hq. by apply elem_of_nil in Hq.
  - destruct (Hcall q st) as (l & st1 & Hq & Hinv1 & Hext1 & _ & Hcond1);
      [apply Hps; left | done | done |].
    assert (Hsize1 : (size (node_set G ∖ processed st1) < fuel)%nat).
    { pose proof (unprocessed_mono G _ _ (proj1 Hext1)). lia. }
    destruct (IHps (Z.max acc l) st1) as (m & st2 & Hps2 & Hinv2 & Hext2 & Hcond2);
      [intros q' Hq'; apply Hps; by right | done | done |].
    exists m, st2. simpl. rewrite Hq. split; [exact Hps2|]. split; [done|].
    split; [by eapply lstate_ext_trans|].
    intros Hacyc Hgood Hstack.
    destruct Hcond1 as [Hgood1 Hget1]; [done | done | apply Hstack; left |].
    destruct Hcond2 as (Hgood2 & Hkeys2 & Hm); [done | done | |].
    { intros q' Hq' s Hs Hns.
      destruct (lstate_ext_stack G st st1 s Hinv Hext1 Hs Hns) as [Hs0 Hns0].
      apply (Hstack q'); [by right | done | done]. }
    destruct Hext2 as [_ (new & Hl2 & _)].
    assert (Hqk : q ∈ ODict.keys (levels st1))
      by (apply odict_get_is_Some; by eexists).
    split; [done|]. split.
    + intros q' [->|Hq']%elem_of_cons; [|by apply Hkeys2].
      rewrite Hl2. unfold ODict.keys. rewrite map_app, elem_of_app. by left.
    + rewrite Hm. simpl. unfold max_of. simpl. do 2 f_equal.
      rewrite Hl2, level_of_app_old by done. unfold level_of. by rewrite Hget1.
Qed.

Lemma assign_level_spec (level : Z) (fuel : nat) :
  forall node st,
    node ∈ node_set G -> lstate_inv G st ->
    (size (node_set G ∖ processed st) < fuel)%nat ->
    exists l st',
      assign_level fuel G node level st = Some (l, st') /\
      lstate_inv G st' /\ lstate_ext st st' /\ node ∈ processed st' /\
      (acyclic G -> levels_good G (levels st) -> stack_reached G node st ->
       levels_good G (levels st') /\ ODict.get (levels st') node = Some l).
Proof.
  induction fuel as [|fuel IH]; intros node st Hn Hinv Hsize; [lia|].
  rewrite assign_level_unfold.
  destruct (decide (node ∈ processed st)) as [Hproc|Hnew].
  - eexists _, st. split; [reflexivity|]. split; [done|].
    split; [apply lstate_ext_refl|]. split; [done|].
    intros Hacyc Hgood Hstack. split; [done|].
    destruct (ODict.get (levels st) node) as [l|] eqn:Hget; [done|].
    exfalso. apply (Hacyc node), Hstack; [done|]. by apply odict_get_None.
  - pose proof (lstate_inv_mark node st Hn Hinv) as Hinv1.
    assert (Hsize1 : (size (node_set G ∖ processed (mark_processed node st))
                        < fuel)%nat).
    { pose proof (unprocessed_shrinks G (processed st) node Hn Hnew). simpl. lia. }
    assert (Hstack1 : forall q, q ∈ predecessors G node ->
              stack_reached G node st ->
              stack_reached G q (mark_processed node st)).
    { intros q Hq%elem_of_predecessors Hstack s Hs Hns. simpl in *.
      apply elem_of_union in Hs as [Hs | ->%elem_of_singleton].
      - eapply tc_l; [exact Hq | by apply Hstack].
      - by apply tc_once. }
    destruct (predecessors G node) as [|p ps] eqn:Hpreds.
    + destruct (set_level_fresh node 0 st (mark_processed node st))
        as (Hset & Hinv' & Hext' & Hin'); try done; [apply lstate_ext_refl|].
      eexists _, _. split; [reflexivity|]. split; [done|]. split; [done|].
      split; [done|]. intros Hacyc Hgood Hstack. rewrite Hset. simpl. split.
      * intros n Hin. unfold ODict.keys in Hin.
        rewrite map_app, elem_of_app in Hin.
        destruct Hin as [Hold|Hnode%list_elem_of_singleton].
        -- by apply levels_good_app_old.
        -- simpl in Hnode. subst n.
           assert (Hlvl : level_of (levels st ++ [(node, 0)]) node = 0).
           { unfold level_of. rewrite odict_get_app.
             destruct (ODict.get (levels st) node) eqn:Hg; simpl.
             - exfalso. destruct Hinv as (_ & Hk & _). apply Hnew, Hk.
               apply elem_of_list_to_set, odict_get_is_Some. by eexists.
             - by rewrite decide_True. }
           split; [intros p; rewrite Hpreds; by intros ?%elem_of_nil|].
           split; [|lia]. unfold longest_path_rule. by rewrite Hpreds, Hlvl.
      * rewrite odict_get_app.
        destruct (ODict.get (levels st) node) eqn:Hg; simpl.
        -- exfalso. destruct Hinv as (_ & Hk & _). apply Hnew, Hk.
           apply elem_of_list_to_set, odict_get_is_Some. by eexists.
        -- by rewrite decide_True.
    + assert (Hpn : forall q, q ∈ p :: ps -> q ∈ node_set G).
      { intros q Hq. apply (predecessors_in_node_set node). by rewrite Hpreds. }
      destruct (IH p (mark_processed node st))
        as (l0 & st2 & Hp & Hinv2 & Hext2 & _ & Hcond2);
        [apply Hpn; left | done | done |].
      assert (Hsize2 : (size (node_set G ∖ processed st2) < fuel)%nat).
      { pose proof (unprocessed_mono G _ _ (proj1 Hext2)). lia. }
      destruct (max_levels_spec fuel level IH ps l0 st2)
        as (m & st3 & Hps & Hinv3 & Hext3 & Hcond3);
        [intros q Hq; apply Hpn; by right | done | done |].
      rewrite Hp, Hps.
      pose proof (lstate_ext_trans _ _ _ Hext2 Hext3) as Hext13.
      destruct (set_level_fresh node (m + 1) st st3)
        as (Hset & Hinv' & Hext' & Hin'); try done.
      eexists _, _. split; [reflexivity|]. split; [done|]. split; [done|].
      split; [done|]. intros Hacyc Hgood Hstack.
      destruct Hcond2 as [Hgood2 Hget2];
        [done | done | apply Hstack1; [left | done] |].
      destruct Hcond3 as (Hgood3 & Hkeys3 & Hm); [done | done | |].
      { intros q Hq s Hs Hns.
        destruct (lstate_ext_stack G _ st2 s Hinv1 Hext2 Hs Hns) as [Hs0 Hns0].
        apply (Hstack1 q); [by right | done | done | done]. }
      assert (Hpk : p ∈ ODict.keys (levels st3)).
      { destruct Hext3 as [_ (new & -> & _)].
        unfold ODict.keys. rewrite map_app, elem_of_app. left.
        apply odict_get_is_Some. by eexists. }
      assert (Hl0 : level_of (levels st3) p = l0).
      { destruct Hext3 as [_ (new & Hl3 & _)]. rewrite Hl3.
        rewrite level_of_app_old by (apply odict_get_is_Some; by eexists).
        unfold level_of. by rewrite Hget2. }
      assert (Hfresh : ODict.get (levels st3) node = None).
      { apply odict_get_None. intros Hin.
        pose proof (lstate_ext_keys _ _ Hext13) as Hk13.
        apply (elem_of_list_to_set (C := gset string)) in Hin.
        fold (level_keys st3) in Hin. rewrite Hk13 in Hin.
        destruct Hinv as (_ & Hk & _). unfold level_keys in *. simpl in *.
        set_solver. }
      assert (Hgetnode : ODict.get (levels st3 ++ [(node, m + 1)]) node
                         = Some (m + 1)).
      { rewrite odict_get_app, Hfresh. simpl. by rewrite decide_True. }
      rewrite Hset. split; [|exact Hgetnode].
      intros n Hin. unfold ODict.keys in Hin.
      rewrite map_app, elem_of_app in Hin.
      destruct Hin as [Hold|Hnode%list_elem_of_singleton].
      * by apply levels_good_app_old.
      * simpl in Hnode. subst n.
        assert (Hlvl : level_of (levels st3 ++ [(node, m + 1)]) node = m + 1)
          by (unfold level_of; by rewrite Hgetnode).
        split; [|split].
        -- intros q. rewrite Hpreds. unfold ODict.keys.
           rewrite map_app, elem_of_app.
           intros [->|Hq]%elem_of_cons; left; [done | by apply Hkeys3].
        -- unfold longest_path_rule. rewrite Hpreds, Hlvl.
           rewrite level_of_app_old, Hl0 by done.
           replace (map (level_of (levels st3 ++ [(node, m + 1)])) ps)
             with (map (level_of (levels st3)) ps).
           ++ rewrite Hm. lia.
           ++ apply map_ext_in. intros q Hq%list_elem_of_In. symmetry.
              apply level_of_app_old. by apply Hkeys3.
        -- rewrite Hlvl, Hm.
           destruct (Hgood3 p Hpk) as (_ & _ & Hp0). rewrite Hl0 in Hp0.
           pose proof (max_of_ge_head l0 (map (level_of (levels st3)) ps)). lia.
Qed.

End AssignLevel.

Section AssignAll.
Variable G : DiGraph.
Hypothesis Hwf : wf_graph G.

Lemma assign_all_spec (fuel : nat) (ns : list string) :
  forall st,
    (forall n, n ∈ ns -> n ∈ node_set G) -> lstate_inv G st ->
    level_keys st = processed st ->
    (size (node_set G) < fuel)%nat ->
    exists st',
      assign_all fuel G ns st = Some st' /\
      lstate_inv G st' /\ level_keys st' = processed st' /\
      lstate_ext st st' /\ (forall n, n ∈ ns -> n ∈ processed st') /\
      (acyclic G -> levels_good G (levels st) -> levels_good G (levels st')).
Proof.
  induction ns as [|n ns IH]; intros st Hns Hinv Hkeys Hfuel.
  - exists st. simpl. split; [done|]. split; [done|]. split; [done|].
    split; [apply lstate_ext_refl|]. split; [|done].
    intros n Hn. by apply elem_of_nil in Hn.
  - assert (Hsize : forall P : gset string,
              (size (node_set G ∖ P) < fuel)%nat).
    { intros P. pose proof (subseteq_size (node_set G ∖ P) (node_set G)) as Hle.
      specialize (Hle ltac:(set_solver)). lia. }
    destruct (assign_level_spec G Hwf 0 fuel n st)
      as (l & st1 & Hcall & Hinv1 & Hext1 & Hn1 & Hcond1);
      [apply Hns; left | done | apply Hsize |].
    assert (Hkeys1 : level_keys st1 = processed st1).
    { rewrite (lstate_ext_keys _ _ Hext1), Hkeys.
      destruct Hext1 as [Hsub _]. apply set_eq. intros x.
      rewrite elem_of_union, elem_of_difference.
      destruct (decide (x ∈ processed st)); set_solver. }
    destruct (IH st1) as (st2 & Hall & Hinv2 & Hkeys2 & Hext2 & Hns2 & Hcond2);
      [intros m Hm; apply Hns; by right | done | done | done |].
    exists st2. simpl. rewrite Hcall. split; [exact Hall|].
    split; [done|]. split; [done|].
    split; [by eapply lstate_ext_trans|]. split.
    + intros m [->|Hm]%elem_of_cons; [|by apply Hns2].
      destruct Hext2 as [Hsub _]. by apply Hsub.
    + intros Hacyc Hgood. apply Hcond2; [done|].
      apply Hcond1; [done | done |].
      intros s Hs Hnk. exfalso. apply Hnk.
      apply (elem_of_list_to_set (C := gset string)).
      fold (level_keys st). by rewrite Hkeys.
Qed.

(** With room for one nested call per node and one more, the level
    assignment completes; it gives every node exactly one level, and on
    an acyclic graph these levels obey the longest-path rule. *)
Lemma assign_levels_spec (depth : nat) :
  (length (nodes G) < depth)%nat ->
  exists lv,
    assign_levels depth G = Some lv /\
    NoDup (ODict.keys lv) /\
    (forall n, n ∈ ODict.keys lv <-> n ∈ nodes G) /\
    (acyclic G -> levels_good G lv).
Proof.
  intros Hdepth.
  destruct (assign_all_spec depth (nodes G) (mkLState [] ∅))
    as (st & Hall & (Hp & Hk & Hnd) & Hkeys & _ & Hns & Hgood).
  - intros n Hn. by apply elem_of_list_to_set.
  - repeat split; simpl; [set_solver | set_solver | constructor].
  - done.
  - unfold node_set.
    rewrite size_list_to_set by apply Hwf. lia.
  - exists (levels st). unfold assign_levels. rewrite Hall.
    split; [done|]. split; [done|]. split.
    + intros n. split.
      * intros Hn. apply (elem_of_list_to_set (C := gset string)) in Hn.
        fold (level_keys st) in Hn. rewrite Hkeys in Hn.
        apply Hp in Hn. by apply elem_of_list_to_set in Hn.
      * intros Hn. apply Hns in Hn. rewrite <- Hkeys in Hn.
        by apply elem_of_list_to_set in Hn.
    + intros Hacyc. apply Hgood; [done|]. intros n Hn. simpl in Hn.
      by apply elem_of_nil in Hn.
Qed.

End AssignAll.

(** More fuel never changes a result. *)
Lemma max_levels_mono (f g : string -> lstate -> option (Z * lstate))
    (ps : list string) :
  (forall q st r, f q st = Some r -> g q st = Some r) ->
  forall acc st r,
    max_levels f ps acc st = Some r -> max_levels g ps acc st = Some r.
Proof.
  intros Hfg. induction ps as [|p ps IH]; intros acc st r; simpl; [done|].
  destruct (f p st) as [[l st']|] eqn:Hf; [|done].
  rewrite (Hfg _ _ _ Hf). apply IH.
Qed.

Lemma assign_level_fuel_mono (G : DiGraph) (level : Z) (fuel : nat) :
  forall fuel' node st r,
    (fuel <= fuel')%nat ->
    assign_level fuel G node level st = Some r ->
    assign_level fuel' G node level st = Some r.
Proof.
  induction fuel as [|fuel IH]; intros fuel' node st r Hle; [done|].
  destruct fuel' as [|fuel']; [lia|]. simpl.
  destruct (decide (node ∈ processed st)); [done|].
  destruct (predecessors G node) as [|p ps]; [done|].
  destruct (assign_level fuel G p level _) as [[l0 st2]|] eqn:Hp; [|done].
  rewrite (IH fuel' _ _ _ ltac:(lia) Hp).
  destruct (max_levels _ ps l0 st2) as [[m st3]|] eqn:Hps; [|done].
  intros <-.
  rewrite (max_levels_mono _ (fun q => assign_level fuel' G q level) ps
             (fun q st r => IH fuel' q st r ltac:(lia)) _ _ _ Hps).
  done.
Qed.

Lemma assign_all_fuel_mono (G : DiGraph) (fuel fuel' : nat) (ns : list string) :
  (fuel <= fuel')%nat ->
  forall st st',
    assign_all fuel G ns st = Some st' -> assign_all fuel' G ns st = Some st'.
Proof.
  intros Hle. induction ns as [|n ns IH]; intros st st'; simpl; [done|].
  destruct (assign_level fuel G n 0 st) as [[l st1]|] eqn:Hn; [|done].
  rewrite (assign_level_fuel_mono G 0 fuel fuel' n st _ Hle Hn). apply IH.
Qed.

(** A result does not depend on the depth at which it was obtained. *)
Lemma assign_levels_depth_mono (G : DiGraph) (depth depth' : nat)
    (lv : list (string * Z)) :
  (depth <= depth')%nat ->
  assign_levels depth G = Some lv -> assign_levels depth' G = Some lv.
Proof.
  intros Hle. unfold assign_levels.
  destruct (assign_all depth G (nodes G) _) as [st|] eqn:Hall; [|done].
  by rewrite (assign_all_fuel_mono G depth depth' (nodes G) Hle _ _ Hall).
Qed.

Lemma create_hierarchical_layout_depth_mono (G : DiGraph) (depth depth' : nat)
    (pos : gmap string (Z * Q)) :
  (depth <= depth')%nat ->
  create_hierarchical_layout depth G = Some pos ->
  create_hierarchical_layout depth' G = Some pos.
Proof.
  intros Hle. unfold create_hierarchical_layout.
  destruct (assign_levels depth G) as [lv|] eqn:Hlv; [|done].
  by rewrite (assign_levels_depth_mono G depth depth' lv Hle Hlv).
Qed.

(** A traversal that runs out of depth does so at every smaller depth. *)
Lemma create_hierarchical_layout_None_mono (G : DiGraph) (depth depth' : nat) :
  (depth' <= depth)%nat ->
  create_hierarchical_layout depth G = None ->
  create_hierarchical_layout depth' G = None.
Proof.
  intros Hle Hnone.
  destruct (create_hierarchical_layout depth' G) as [pos|] eqn:Hpos; [|reflexivity].
  apply (create_hierarchical_layout_depth_mono G depth' depth pos Hle) in Hpos.
  congruence.
Qed.

Lemma create_hierarchical_layout_Some (G : DiGraph) (depth : nat)
    (pos : gmap string (Z * Q)) :
  create_hierarchical_layout depth G = Some pos ->
  exists lv, assign_levels depth G = Some lv /\ pos = positions (group_by_level lv).
Proof.
  unfold create_hierarchical_layout.
  destruct (assign_levels depth G) as [lv|]; [|done].
  intros [= <-]. by exists lv.
Qed.

(** What a level assignment that returned has computed, at whatever
    depth it ran. *)
Lemma assign_levels_returned (G : DiGraph) (depth : nat) (lv : list (string * Z)) :
  wf_graph G -> assign_levels depth G = Some lv ->
  NoDup (ODict.keys lv) /\
  (forall n, n ∈ ODict.keys lv <-> n ∈ nodes G) /\
  (acyclic G -> levels_good G lv).
Proof.
  intros Hwf Hlv.
  destruct (assign_levels_spec G Hwf (depth `max` S (length (nodes G))))
    as (lv' & Hlv' & Hfacts); [lia|].
  apply (assign_levels_depth_mono G depth (depth `max` S (length (nodes G))))
    in Hlv; [|lia].
  assert (lv' = lv) as -> by congruence. exact Hfacts.
Qed.

(** The first node listed heads a chain of first predecessors that is
    longer than the depth allowed: the traversal runs out of depth
    while it descends the chain. *)
Lemma assign_level_chain_overflow (G : DiGraph) (level : Z) (fuel : nat) :
  forall chain c st,
    NoDup (c :: chain) -> first_pred_chain G (c :: chain) ->
    (forall x, x ∈ c :: chain -> x ∉ processed st) ->
    (fuel <= length chain)%nat ->
    assign_level fuel G c level st = None.
Proof.
  induction fuel as [|fuel IH]; intros chain c st Hnd Hchain Hnew Hlen; [done|].
  destruct chain as [|c' chain]; [simpl in Hlen; lia|].
  destruct Hchain as [Hhead Hrest].
  simpl. rewrite decide_False by (apply Hnew; left).
  destruct (predecessors G c) as [|p ps]; [done|].
  injection Hhead as ->.
  rewrite (IH chain c' (mark_processed c st)); [done | | done | | ].
  - by apply NoDup_cons in Hnd as [_ Hnd].
  - intros x Hx. simpl. apply not_elem_of_union. split.
    + apply Hnew. by right.
    + apply NoDup_cons in Hnd as [Hc _]. set_solver.
  - simpl in Hlen. lia.
Qed.

(* ===================================================================== *)
(** * The layered layout: grouping and coordinates *)
(* ===================================================================== *)

Lemma get_add_to_group (groups : list (Z * list string)) (n : string) (lvl l : Z) :
  ODict.get (add_to_group groups (n, lvl)) l =
  if decide (lvl = l) then Some (default [] (ODict.get groups lvl) ++ [n])
  else ODict.get groups l.
Proof.
  unfold add_to_group.
  destruct (ODict.get groups lvl) as [ns|] eqn:Hg; simpl.
  - destruct (decide (lvl = l)) as [<-|Hne].
    + by rewrite odict_get_set_eq, Hg.
    + by rewrite odict_get_set_ne.
  - rewrite odict_get_set_eq. simpl.
    destruct (decide (lvl = l)) as [<-|Hne].
    + by rewrite odict_get_set_eq.
    + by rewrite !odict_get_set_ne.
Qed.

Lemma nodes_at_snoc (lv : list (string * Z)) (n : string) (lvl l : Z) :
  nodes_at (lv ++ [(n, lvl)]) l =
  nodes_at lv l ++ (if decide (lvl = l) then [n] else []).
Proof.
  unfold nodes_at. rewrite filter_app, map_app. f_equal.
  rewrite filter_cons. simpl. by destruct (decide (lvl = l)).
Qed.

(** Each group lists the nodes of its level in the order of [levels]. *)
Lemma get_group_by_level (lv : list (string * Z)) (l : Z) :
  ODict.get (group_by_level lv) l =
  match nodes_at lv l with [] => None | ns => Some ns end.
Proof.
  unfold group_by_level.
  induction lv as [|[n lvl] lv IH] using rev_ind; [done|].
  rewrite foldl_snoc, get_add_to_group, nodes_at_snoc.
  destruct (decide (lvl = l)) as [->|Hne].
  - rewrite IH. destruct (nodes_at lv l) as [|m ms]; simpl; [done|].
    by destruct (ms ++ [n]) eqn:Happ; [destruct ms; discriminate|].
  - by rewrite IH, app_nil_r.
Qed.

Lemma odict_set_keys_NoDup {V : Type} (d : list (Z * V)) (k : Z) (v : V) :
  NoDup (ODict.keys d) -> NoDup (ODict.keys (ODict.set d k v)).
Proof.
  intros Hnd. destruct (decide (k ∈ ODict.keys d)) as [Hin|Hnin].
  - by rewrite odict_keys_set_present.
  - rewrite odict_set_fresh by done. unfold ODict.keys in *.
    rewrite map_app. apply NoDup_app. repeat split; [done| |apply NoDup_singleton].
    intros x Hx ->%list_elem_of_singleton. done.
Qed.

Lemma group_by_level_NoDup (lv : list (string * Z)) :
  NoDup (ODict.keys (group_by_level lv)).
Proof.
  unfold group_by_level.
  induction lv as [|[n lvl] lv IH] using rev_ind; [constructor|].
  rewrite foldl_snoc. unfold add_to_group.
  destruct (ODict.get _ lvl); by repeat apply odict_set_keys_NoDup.
Qed.

Lemma odict_elem_get {K V : Type} `{EqDecision K} (d : list (K * V)) (k : K) (v : V) :
  NoDup (ODict.keys d) -> (k, v) ∈ d -> ODict.get d k = Some v.
Proof.
  induction d as [|[k' v'] d IH]; simpl.
  - intros _ Hin. by apply elem_of_nil in Hin.
  - rewrite NoDup_cons. intros [Hnin Hnd] [[= -> ->]|Hin]%elem_of_cons.
    + by rewrite decide_True.
    + destruct (decide (k' = k)) as [->|Hne]; [|by apply IH].
      exfalso. apply Hnin. apply list_elem_of_fmap. by exists (k, v).
Qed.

Lemma odict_get_elem {K V : Type} `{EqDecision K} (d : list (K * V)) (k : K) (v : V) :
  ODict.get d k = Some v -> (k, v) ∈ d.
Proof.
  induction d as [|[k' v'] d IH]; simpl; [done|].
  destruct (decide (k' = k)) as [->|Hne].
  - intros [= ->]. left.
  - intros Hg. right. by apply IH.
Qed.

Lemma elem_of_nodes_at (lv : list (string * Z)) (n : string) (l : Z) :
  n ∈ nodes_at lv l <-> (n, l) ∈ lv.
Proof.
  unfold nodes_at. rewrite list_elem_of_fmap. split.
  - intros ([m l'] & -> & [Hl Hin]%list_elem_of_filter). simpl in *. by subst.
  - intros Hin. exists (n, l). split; [done|]. by apply list_elem_of_filter.
Qed.

Lemma nodes_at_NoDup (lv : list (string * Z)) (l : Z) :
  NoDup (ODict.keys lv) -> NoDup (nodes_at lv l).
Proof.
  unfold nodes_at, ODict.keys. induction lv as [|[n l'] lv IH]; simpl; [done|].
  rewrite NoDup_cons. intros [Hnin Hnd]. rewrite filter_cons. simpl.
  destruct (decide (l' = l)); simpl; [|by apply IH].
  apply NoDup_cons. split; [|by apply IH].
  intros ([m l''] & Hm & [_ Hin]%list_elem_of_filter)%list_elem_of_fmap.
  simpl in Hm. subst m. apply Hnin. apply list_elem_of_fmap. by exists (n, l'').
Qed.

Lemma place_nodes_other (x k i : Z) (ns : list string)
    (pos : gmap string (Z * Q)) (n : string) :
  n ∉ ns -> place_nodes x k i ns pos !! n = pos !! n.
Proof.
  revert i pos. induction ns as [|m ns IH]; intros i pos Hn; simpl; [done|].
  apply not_elem_of_cons in Hn as [Hne Hn].
  rewrite IH by done. by rewrite lookup_insert_ne.
Qed.

Lemma place_nodes_at (x k i : Z) (ns : list string)
    (pos : gmap string (Z * Q)) (n : string) (j : nat) :
  NoDup ns -> ns !! j = Some n ->
  place_nodes x k i ns pos !! n = Some (x, y_coord (i + Z.of_nat j) k).
Proof.
  revert i j pos. induction ns as [|m ns IH]; intros i j pos Hnd Hj; [done|].
  apply NoDup_cons in Hnd as [Hnin Hnd]. simpl. destruct j as [|j]; simpl in Hj.
  - injection Hj as ->. rewrite place_nodes_other by done.
    rewrite lookup_insert_eq. do 3 f_equal. lia.
  - rewrite (IH (i + 1) j) by done. do 3 f_equal. lia.
Qed.

Lemma positions_from_other (groups : list (Z * list string))
    (pos : gmap string (Z * Q)) (n : string) :
  (forall g, g ∈ groups -> n ∉ g.2) ->
  foldl place_level pos groups !! n = pos !! n.
Proof.
  revert pos. induction groups as [|[l ns] groups IH]; intros pos Hn; simpl; [done|].
  rewrite IH by (intros g Hg; apply Hn; by right).
  apply place_nodes_other. apply (Hn (l, ns)). left.
Qed.

(** A node listed once, in one group, is placed from that group. *)
Lemma positions_lookup (groups : list (Z * list string)) (l : Z)
    (ns : list string) (n : string) (j : nat) :
  NoDup (ODict.keys groups) -> (l, ns) ∈ groups ->
  (forall g, g ∈ groups -> n ∈ g.2 -> g.1 = l) ->
  NoDup ns -> ns !! j = Some n ->
  positions groups !! n =
  Some (l * x_spacing, y_coord (Z.of_nat j) (Z.of_nat (length ns))).
Proof.
  intros Hnd Hin Honly Hns Hj. unfold positions.
  apply list_elem_of_split in Hin as (g1 & g2 & ->).
  rewrite foldl_app. simpl. rewrite positions_from_other.
  - by rewrite (place_nodes_at _ _ 0 ns _ n j).
  - intros [l' ns'] Hg Hn'. simpl in *.
    assert (l' = l) as ->.
    { apply (Honly (l', ns')); [|done]. rewrite elem_of_app. right. by right. }
    unfold ODict.keys in Hnd. rewrite map_app in Hnd. simpl in Hnd.
    apply NoDup_app in Hnd as (_ & _ & Hnd2). apply NoDup_cons in Hnd2 as [Hnin _].
    apply Hnin. apply list_elem_of_fmap. by exists (l, ns').
Qed.

Lemma y_coord_step (i k : Z) : (y_coord (i + 1) k - y_coord i k == 100)%Q.
Proof. unfold y_coord, y_spacing. rewrite inject_Z_plus. field. Qed.

Lemma y_coord_centered (i k : Z) : (y_coord i k + y_coord (k - 1 - i) k == 0)%Q.
Proof.
  unfold y_coord, y_spacing. unfold Z.sub.
  rewrite !inject_Z_plus, !inject_Z_opp. field.
Qed.

Lemma y_coord_closed_form (i k : Z) :
  (y_coord i k == inject_Z (50 * (2 * i - k + 1)))%Q.
Proof.
  unfold y_coord, y_spacing. unfold Z.sub.
  rewrite inject_Z_mult, !inject_Z_plus, inject_Z_opp, inject_Z_mult. field.
Qed.

Lemma nodes_at_filter_keys (lv lv' : list (string * Z)) (l : Z) :
  (forall nl, nl ∈ lv' -> level_of lv nl.1 = nl.2) ->
  nodes_at lv' l = filter (fun n => level_of lv n = l) (ODict.keys lv').
Proof.
  unfold nodes_at, ODict.keys.
  induction lv' as [|[n l'] lv' IH]; intros Hlv; simpl; [done|].
  pose proof (Hlv (n, l') ltac:(left)) as Hn. simpl in Hn.
  rewrite !filter_cons. simpl. rewrite Hn.
  destruct (decide (l' = l)); simpl;
    rewrite IH by (intros nl Hnl; apply Hlv; by right); done.
Qed.

Lemma level_of_elem (lv : list (string * Z)) (n : string) (l : Z) :
  NoDup (ODict.keys lv) -> (n, l) ∈ lv -> level_of lv n = l.
Proof.
  intros Hnd Hin. unfold level_of. by rewrite (odict_elem_get lv n l).
Qed.

(** The whole layout of a graph object, once the level assignment has
    returned [lv]: every node has one level; the group of a level is the
    run of [levels] restricted to that level; and a node is placed by
    its level and its index in its group. *)
Lemma layout_spec (G : DiGraph) (depth : nat) (lv : list (string * Z)) :
  wf_graph G -> assign_levels depth G = Some lv ->
  exists pos,
    create_hierarchical_layout depth G = Some pos /\
    NoDup (ODict.keys lv) /\
    (forall n, n ∈ ODict.keys lv <-> n ∈ nodes G) /\
    (acyclic G -> levels_good G lv) /\
    (forall l, nodes_at lv l = filter (fun n => level_of lv n = l) (ODict.keys lv)) /\
    (forall n, n ∈ nodes G ->
       exists j : nat,
         nodes_at lv (level_of lv n) !! j = Some n /\
         pos !! n =
           Some (level_of lv n * 200,
                 y_coord (Z.of_nat j)
                         (Z.of_nat (length (nodes_at lv (level_of lv n)))))) /\
    (forall n, n ∉ nodes G -> pos !! n = None).
Proof.
  intros Hwf Hlv.
  destruct (assign_levels_returned G depth lv Hwf Hlv) as (Hnd & Hkeys & Hgood).
  exists (positions (group_by_level lv)).
  unfold create_hierarchical_layout. rewrite Hlv.
  do 4 (split; [done|]).
  assert (Hgroup : forall l ns, (l, ns) ∈ group_by_level lv -> ns = nodes_at lv l).
  { intros l ns Hin.
    apply odict_elem_get in Hin; [|apply group_by_level_NoDup].
    rewrite get_group_by_level in Hin.
    destruct (nodes_at lv l); [done | by injection Hin]. }
  split; [|split].
  - intros l. apply nodes_at_filter_keys. intros [n l'] Hin. by apply level_of_elem.
  - intros n Hn. apply Hkeys, odict_get_is_Some in Hn as [l Hget].
    assert (Hl : level_of lv n = l) by (unfold level_of; by rewrite Hget).
    rewrite Hl. apply odict_get_elem in Hget as Hin.
    apply elem_of_nodes_at in Hin as Hat.
    apply list_elem_of_lookup in Hat as [j Hj]. exists j. split; [done|].
    apply positions_lookup; [apply group_by_level_NoDup | | |
                             by apply nodes_at_NoDup | done].
    + apply odict_get_elem. rewrite get_group_by_level.
      destruct (nodes_at lv l); [by destruct j | done].
    + intros [l' ns'] Hg Hn'. simpl in *.
      rewrite (Hgroup _ _ Hg) in Hn'. apply elem_of_nodes_at in Hn'.
      rewrite <- Hl. symmetry. by apply level_of_elem.
  - intros n Hn. unfold positions. rewrite positions_from_other; [done|].
    intros [l' ns'] Hg Hn'. simpl in *.
    rewrite (Hgroup _ _ Hg) in Hn'. apply elem_of_nodes_at in Hn'.
    apply Hn, Hkeys. apply list_elem_of_fmap. by exists (n, l').
Qed.

(** Room for one nested call per node and one more is enough. *)
Lemma layout_enough_depth (G : DiGraph) (depth : nat) :
  wf_graph G -> (length (nodes G) < depth)%nat ->
  is_Some (assign_levels depth G) /\ is_Some (create_hierarchical_layout depth G).
Proof.
  intros Hwf Hdepth.
  destruct (assign_levels_spec G Hwf depth Hdepth) as (lv & Hlv & _).
  unfold create_hierarchical_layout. rewrite Hlv. split; by eexists.
Qed.

(** What a layout that returned holds. *)
Lemma layout_returned (G : DiGraph) (depth : nat) (pos : gmap string (Z * Q)) :
  wf_graph G -> create_hierarchical_layout depth G = Some pos ->
  exists lv,
    assign_levels depth G = Some lv /\
    NoDup (ODict.keys lv) /\
    (forall n, n ∈ ODict.keys lv <-> n ∈ nodes G) /\
    (acyclic G -> levels_good G lv) /\
    (forall l, nodes_at lv l = filter (fun n => level_of lv n = l) (ODict.keys lv)) /\
    (forall n, n ∈ nodes G ->
       exists j : nat,
         nodes_at lv (level_of lv n) !! j = Some n /\
         pos !! n =
           Some (level_of lv n * 200,
                 y_coord (Z.of_nat j)
                         (Z.of_nat (length (nodes_at lv (level_of lv n)))))) /\
    (forall n, n ∉ nodes G -> pos !! n = None).
Proof.
  intros Hwf Hpos.
  destruct (create_hierarchical_layout_Some G depth pos Hpos) as (lv & Hlv & _).
  destruct (layout_spec G depth lv Hwf Hlv) as (pos' & Hpos' & Hfacts).
  assert (pos' = pos) as -> by congruence.
  exists lv. split; [done | exact Hfacts].
Qed.

(** A ranking that increases strictly along every edge rules out
    cycles. *)
Lemma acyclic_of_rank (G : DiGraph) (rank : string -> Z) :
  (forall a b, has_edge G a b -> rank a < rank b) -> acyclic G.
Proof.
  intros Hrank n Hn.
  assert (Hlt : forall a b, tc (has_edge G) a b -> rank a < rank b).
  { intros a b Hab. induction Hab as [a b Hab|a b c Hab _ IH].
    - by apply Hrank.
    - specialize (Hrank a b Hab). lia. }
  specialize (Hlt n n Hn). lia.
Qed.

Lemma acyclic_graph_chain : acyclic graph_chain.
Proof.
  apply (acyclic_of_rank _ rank_chain). intros a b Hab.
  unfold has_edge, graph_chain in Hab. simpl in Hab.
  apply elem_of_cons in Hab as [[= -> ->]|Hab]; [by vm_compute|].
  apply elem_of_cons in Hab as [[= -> ->]|Hab]; [by vm_compute|].
  by apply elem_of_nil in Hab.
Qed.

Lemma cyclic_graph_cycle : ~ acyclic graph_cycle.
Proof.
  intros Hacyc. apply (Hacyc "A").
  apply (tc_l _ "A" "B" "A"); [|apply tc_once]; unfold has_edge; simpl.
  - left.
  - right. left.
Qed.

Lemma longest_path_rule_edge (G : DiGraph) (lvl : string -> Z) (a b : string) :
  has_edge G a b -> longest_path_rule G lvl b -> lvl a < lvl b.
Proof.
  intros Hab%elem_of_predecessors Hrule. unfold longest_path_rule in Hrule.
  destruct (predecessors G b) as [|p ps]; [by apply elem_of_nil in Hab|].
  rewrite Hrule. apply elem_of_cons in Hab as [->|Hin].
  - pose proof (max_of_ge_head (lvl p) (map lvl ps)). lia.
  - pose proof (max_of_ge_elem (lvl p) (lvl a) (map lvl ps)) as Hge.
    assert (lvl a ∈ map lvl ps) by (apply list_elem_of_fmap; by exists a).
    specialize (Hge ltac:(done)). lia.
Qed.

(** On an acyclic graph the longest-path rule has one solution: any
    assignment that obeys it at every node agrees with the levels that
    obey it and are not negative. *)
Lemma longest_path_rule_unique (G : DiGraph) (lv : list (string * Z))
    (f : string -> Z) :
  wf_graph G -> levels_good G lv ->
  (forall n, n ∈ ODict.keys lv <-> n ∈ nodes G) ->
  (forall n, n ∈ nodes G -> longest_path_rule G f n) ->
  forall n, n ∈ nodes G -> f n = level_of lv n.
Proof.
  intros Hwf Hgood Hkeys Hf.
  assert (Hk : forall (k : nat) n,
            n ∈ nodes G -> level_of lv n < Z.of_nat k -> f n = level_of lv n).
  { induction k as [|k IH]; intros n Hn Hlt.
    - destruct (Hgood n) as (_ & _ & Hnonneg); [by apply Hkeys | lia].
    - destruct (Hgood n) as (_ & Hrule & _); [by apply Hkeys|].
      assert (Hagree : forall p, p ∈ predecessors G n -> f p = level_of lv p).
      { intros p Hp. apply elem_of_predecessors in Hp as Hedge.
        apply IH; [by apply (has_edge_nodes G p n)|].
        pose proof (longest_path_rule_edge G _ p n Hedge Hrule). lia. }
      pose proof (Hf n Hn) as Hfn. unfold longest_path_rule in Hfn, Hrule.
      rewrite Hfn, Hrule. destruct (predecessors G n) as [|p ps]; [done|].
      rewrite (Hagree p) by left. do 2 f_equal.
      apply map_ext_in. intros q Hq%list_elem_of_In. apply Hagree. by right. }
  intros n Hn. apply (Hk (S (Z.to_nat (level_of lv n)))); [done | lia].
Qed.

(** *** Chains of jobs listed last job first *)

Lemma nodes_chain_deepest_first (n : nat) :
  nodes (chain_deepest_first (S n)) =
  pretty n :: map pretty (reverse (seq 0 n)).
Proof.
  unfold chain_deepest_first. cbn [nodes].
  by rewrite seq_S, reverse_snoc.
Qed.

Lemma wf_graph_chain_deepest_first (n : nat) : wf_graph (chain_deepest_first n).
Proof.
  split; [|split]; cbn [nodes edges chain_deepest_first].
  - apply (NoDup_fmap_2 pretty). rewrite reverse_Permutation. apply NoDup_seq.
  - apply NoDup_fmap_2_strong; [|apply NoDup_seq].
    intros i j _ _ [= Hij _]. by apply (inj pretty) in Hij.
  - apply Forall_forall. intros e (i & -> & Hi%elem_of_seq)%list_elem_of_fmap.
    cbn [fst snd]. split; apply list_elem_of_fmap.
    + exists i. split; [done|]. apply elem_of_reverse, elem_of_seq. lia.
    + exists (S i). split; [done|]. apply elem_of_reverse, elem_of_seq. lia.
Qed.

Lemma index_of_pretty_seq (a m i : nat) :
  (a <= i < a + m)%nat ->
  index_of (pretty i) (map pretty (seq a m)) = (i - a)%nat.
Proof.
  revert a. induction m as [|m IH]; intros a Hi; [lia|].
  cbn [seq map index_of].
  destruct (decide (pretty a = pretty i)) as [Heq|Hne].
  - apply (inj pretty) in Heq. lia.
  - assert (a <> i) by congruence. rewrite IH by lia. lia.
Qed.

Lemma acyclic_chain_deepest_first (n : nat) : acyclic (chain_deepest_first n).
Proof.
  apply (acyclic_of_rank _ (rank_in_chain n)). intros a b Hab.
  unfold has_edge in Hab. cbn [edges chain_deepest_first] in Hab.
  apply list_elem_of_fmap in Hab as (i & [= -> ->] & Hi%elem_of_seq).
  unfold rank_in_chain. rewrite !index_of_pretty_seq by lia. lia.
Qed.

Lemma filter_chain_edges (i a m : nat) :
  filter (fun e : string * string => e.2 = pretty (S i))
         (map (fun j : nat => (pretty j, pretty (S j))) (seq a m))
  = if bool_decide (a <= i < a + m)%nat then [(pretty i, pretty (S i))] else [].
Proof.
  revert a. induction m as [|m IH]; intros a.
  - rewrite bool_decide_false by lia. done.
  - cbn [seq map]. rewrite filter_cons, IH. cbn [snd].
    destruct (decide (pretty (S a) = pretty (S i))) as [Heq|Hne].
    + apply (inj pretty) in Heq. injection Heq as ->.
      rewrite (bool_decide_false (S i <= i < _)%nat) by lia.
      by rewrite bool_decide_true by lia.
    + assert (a <> i) by congruence.
      destruct (decide (S a <= i < S a + m)%nat).
      * by rewrite !bool_decide_true by lia.
      * by rewrite !bool_decide_false by lia.
Qed.

Lemma predecessors_chain_deepest_first (n i : nat) :
  (S i < n)%nat ->
  predecessors (chain_deepest_first n) (pretty (S i)) = [pretty i].
Proof.
  intros Hi. unfold predecessors. cbn [edges chain_deepest_first].
  rewrite filter_chain_edges. by rewrite bool_decide_true by lia.
Qed.

Lemma first_pred_chain_deepest_first (n k : nat) :
  (k <= n)%nat ->
  first_pred_chain (chain_deepest_first n) (map pretty (reverse (seq 0 k))).
Proof.
  induction k as [|k IH]; intros Hk; [done|].
  rewrite seq_S, reverse_snoc. cbn [map Nat.add].
  destruct k as [|k]; [done|].
  specialize (IH ltac:(lia)).
  rewrite seq_S, reverse_snoc in IH |- *. cbn [map Nat.add] in IH |- *.
  split; [|exact IH].
  by rewrite predecessors_chain_deepest_first by lia.
Qed.

(** The layout raises [RecursionError] when the node listed first heads
    a chain of first predecessors longer than the depth allowed. *)
Lemma layout_chain_overflow (G : DiGraph) (depth : nat) (c0 : string)
    (rest chain : list string) :
  nodes G = c0 :: rest -> NoDup (c0 :: chain) ->
  first_pred_chain G (c0 :: chain) -> (depth <= length chain)%nat ->
  assign_levels depth G = None /\ create_hierarchical_layout depth G = None.
Proof.
  intros Hnodes Hnd Hchain Hlen.
  assert (Hlv : assign_levels depth G = None).
  { unfold assign_levels. rewrite Hnodes. simpl.
    rewrite (assign_level_chain_overflow G 0 depth chain c0); [done..| |done].
    intros x _. simpl. set_solver. }
  split; [done|]. unfold create_hierarchical_layout. by rewrite Hlv.
Qed.

(* ===================================================================== *)
(** * The layered layout: main results *)
(* ===================================================================== *)

(** C2.  On every acyclic graph the level assignment, wherever it
    returns, gives each node the level of the recursive longest-path
    definition: [0] for a node without predecessors, otherwise one more
    than the greatest level among its predecessors (and it is the only
    assignment that obeys this definition); hence levels increase
    strictly along every edge, and the x coordinate of the layout is
    that level times 200.  It returns at every recursion depth above
    the number of nodes.  For jobs A, B, C with triggers A→B and B→C
    the builder yields the chain graph, and its levels are A:0, B:1,
    C:2. *)
Theorem assign_levels_longest_path (G : DiGraph) (depth : nat) :
  wf_graph G -> acyclic G ->
  ((length (nodes G) < depth)%nat -> is_Some (assign_levels depth G)) /\
  (forall lv,
     assign_levels depth G = Some lv ->
     (forall n, n ∈ nodes G ->
        is_Some (ODict.get lv n) /\ longest_path_rule G (level_of lv) n) /\
     (forall f, (forall n, n ∈ nodes G -> longest_path_rule G f n) ->
        forall n, n ∈ nodes G -> f n = level_of lv n) /\
     (forall a b, has_edge G a b -> level_of lv a < level_of lv b) /\
     (exists pos,
        create_hierarchical_layout depth G = Some pos /\
        forall n, n ∈ nodes G ->
          exists y, pos !! n = Some (level_of lv n * 200, y))) /\
  build_job_graph [jobA; jobB; jobC] api_chain = Ok graph_chain /\
  (forall d, (2 <= d)%nat ->
     assign_levels d graph_chain = Some [("A", 0); ("B", 1); ("C", 2)]).
Proof.
  intros Hwf Hacyc. split; [|split; [|split]].
  - intros Hdepth. by apply layout_enough_depth.
  - intros lv Hlv.
    destruct (layout_spec G depth lv Hwf Hlv)
      as (pos & Hpos & Hnd & Hkeys & Hgood & _ & Hplace & _).
    specialize (Hgood Hacyc).
    assert (Hrule : forall n, n ∈ nodes G -> longest_path_rule G (level_of lv) n).
    { intros n Hn. by apply (Hgood n), Hkeys. }
    split; [|split; [|split]].
    + intros n Hn. split; [by apply odict_get_is_Some, Hkeys | by apply Hrule].
    + intros f Hf. by apply (longest_path_rule_unique G lv f).
    + intros a b Hab. apply (longest_path_rule_edge G); [done|].
      apply Hrule. by apply (has_edge_nodes G a b).
    + exists pos. split; [done|]. intros n Hn.
      destruct (Hplace n Hn) as (j & _ & Hj). eauto.
  - vm_compute. reflexivity.
  - intros d Hd. apply (assign_levels_depth_mono graph_chain 2 d); [done|].
    vm_compute. reflexivity.
Qed.

Lemma assign_levels_longest_path_witness :
  wf_graph graph_chain /\ acyclic graph_chain /\
  exists lv,
    assign_levels 4 graph_chain = Some lv /\
    level_of lv "A" < level_of lv "B" /\ level_of lv "B" < level_of lv "C".
Proof.
  assert (Hwf : wf_graph graph_chain) by decide_by_computation.
  split; [exact Hwf|]. split; [exact acyclic_graph_chain|].
  destruct (assign_levels_longest_path graph_chain 4 Hwf acyclic_graph_chain)
    as (Hret & Hval & _).
  destruct Hret as [lv Hlv]; [simpl; lia|].
  destruct (Hval lv Hlv) as (_ & _ & Hedge & _).
  exists lv. split; [exact Hlv|].
  split; apply Hedge; unfold has_edge; simpl; [left | right; left].
Defined.

(** C8, as the code has it.  For every graph object, cyclic or not, the
    traversal never nests deeper than the number of nodes plus one,
    because a node is marked processed before its predecessors are
    visited and a node met again returns at once: at every recursion
    depth above the number of nodes the layout returns.  Where it
    returns, its result has a coordinate pair for exactly the nodes of
    the graph, and every greater depth gives the same result.  The
    layout has no depth guard of its own: when the node listed first
    heads a chain of first predecessors longer than the depth allowed,
    it raises [RecursionError].  On the cycle A→B→A the levels come out
    as B:1, A:2, on a self-loop as A:1. *)
Theorem create_hierarchical_layout_terminates (G : DiGraph) (depth : nat) :
  wf_graph G ->
  ((length (nodes G) < depth)%nat ->
   is_Some (create_hierarchical_layout depth G)) /\
  (forall pos,
     create_hierarchical_layout depth G = Some pos ->
     (forall n, n ∈ nodes G <-> is_Some (pos !! n)) /\
     (forall depth', (depth <= depth')%nat ->
        create_hierarchical_layout depth' G = Some pos)) /\
  (forall c0 rest chain,
     nodes G = c0 :: rest -> NoDup (c0 :: chain) ->
     first_pred_chain G (c0 :: chain) -> (depth <= length chain)%nat ->
     create_hierarchical_layout depth G = None) /\
  (forall d, (3 <= d)%nat ->
     assign_levels d graph_cycle = Some [("B", 1); ("A", 2)]) /\
  (forall d, (2 <= d)%nat ->
     assign_levels d (mkGraph ["A"] [("A", "A")]) = Some [("A", 1)]).
Proof.
  intros Hwf. split; [|split; [|split; [|split]]].
  - intros Hdepth. by apply layout_enough_depth.
  - intros pos Hpos.
    destruct (layout_returned G depth pos Hwf Hpos)
      as (lv & _ & _ & _ & _ & _ & Hplace & Hnone).
    split.
    + intros n. split.
      * intros Hn. destruct (Hplace n Hn) as (j & _ & Hj). by eexists.
      * intros Hsome. destruct (decide (n ∈ nodes G)) as [Hn|Hn]; [done|].
        rewrite (Hnone n Hn) in Hsome. by destruct Hsome.
    + intros depth' Hle.
      by apply (create_hierarchical_layout_depth_mono G depth depth').
  - intros c0 rest chain Hnodes Hnd Hchain Hlen.
    by apply (layout_chain_overflow G depth c0 rest chain).
  - intros d Hd. apply (assign_levels_depth_mono graph_cycle 3 d); [done|].
    vm_compute. reflexivity.
  - intros d Hd. apply (assign_levels_depth_mono _ 2 d); [done|].
    vm_compute. reflexivity.
Qed.

Lemma create_hierarchical_layout_terminates_witness :
  wf_graph graph_cycle /\ ~ acyclic graph_cycle /\
  exists pos,
    create_hierarchical_layout 3 graph_cycle = Some pos /\
    is_Some (pos !! "A") /\ is_Some (pos !! "B").
Proof.
  assert (Hwf : wf_graph graph_cycle) by decide_by_computation.
  split; [exact Hwf|]. split; [exact cyclic_graph_cycle|].
  destruct (create_hierarchical_layout_terminates graph_cycle 3 Hwf)
    as (Hret & Hval & _).
  destruct Hret as [pos Hpos]; [simpl; lia|].
  destruct (Hval pos Hpos) as (Hdom & _).
  exists pos. split; [exact Hpos|].
  split; apply Hdom; simpl; [left | right; left].
Defined.

(** C8, as claimed, fails: the chain of 1001 jobs, each triggering the
    next and listed last job first, is an acyclic graph object, and its
    layout raises [RecursionError] at the depth 1000, the most that an
    interpreter with the default recursion limit can allow, as it does
    at every smaller depth. *)
Lemma layout_of_deep_chain_counterexample :
  create_hierarchical_layout default_recursion_limit deep_chain = None /\
  wf_graph deep_chain /\ acyclic deep_chain /\
  length (nodes deep_chain) = S default_recursion_limit /\
  (forall depth, (depth <= default_recursion_limit)%nat ->
     create_hierarchical_layout depth deep_chain = None).
Proof.
  assert (Hnone : forall depth, (depth <= default_recursion_limit)%nat ->
            create_hierarchical_layout depth deep_chain = None).
  { intros depth Hle. unfold deep_chain.
    refine (proj2 (layout_chain_overflow _ depth _ _ _
                     (nodes_chain_deepest_first default_recursion_limit) _ _ _)).
    - rewrite <- nodes_chain_deepest_first.
      apply (wf_graph_chain_deepest_first (S default_recursion_limit)).
    - pose proof (first_pred_chain_deepest_first (S default_recursion_limit)
                    (S default_recursion_limit) (le_n _)) as Hchain.
      by rewrite seq_S, reverse_snoc in Hchain.
    - by rewrite length_map, length_reverse, length_seq. }
  split; [exact (Hnone default_recursion_limit (le_n _))|].
  split; [exact (wf_graph_chain_deepest_first _)|].
  split; [exact (acyclic_chain_deepest_first _)|].
  split; [|exact Hnone].
  unfold deep_chain. rewrite nodes_chain_deepest_first. cbn [length].
  by rewrite length_map, length_reverse, length_seq.
Qed.

(** C1, as the code has it.  The layout has no cycle check and raises
    nothing on account of a cycle: on every graph object that contains
    a cycle it returns at every recursion depth above the number of
    nodes, and where it returns it gives a coordinate pair for every
    node, silently, although some edge then fails to lead to a higher
    level.  Graph construction succeeds whenever the trigger fetches
    do, whether or not the triggers form a cycle, and the layout of the
    graph built returns under the same condition on the depth. *)
Theorem layout_of_cyclic_graph_returns_coordinates (G : DiGraph) (depth : nat) :
  wf_graph G -> ~ acyclic G ->
  ((length (nodes G) < depth)%nat ->
   is_Some (create_hierarchical_layout depth G)) /\
  (forall pos,
     create_hierarchical_layout depth G = Some pos ->
     (forall n, n ∈ nodes G -> is_Some (pos !! n)) /\
     exists lv a b,
       assign_levels depth G = Some lv /\
       has_edge G a b /\ level_of lv b <= level_of lv a) /\
  (forall jobs api,
     Forall (fetch_ok api) jobs ->
     exists G',
       build_job_graph jobs api = Ok G' /\
       forall depth', (length (nodes G') < depth')%nat ->
         is_Some (create_hierarchical_layout depth' G')).
Proof.
  intros Hwf Hcyc. split; [|split].
  - intros Hdepth. by apply layout_enough_depth.
  - intros pos Hpos.
    destruct (layout_returned G depth pos Hwf Hpos)
      as (lv & Hlv & _ & _ & _ & _ & Hplace & _).
    split.
    + intros n Hn. destruct (Hplace n Hn) as (j & _ & Hj). by eexists.
    + destruct (decide (Forall (fun e => level_of lv e.1 < level_of lv e.2)
                               (edges G))) as [Hall|Hnot].
      * exfalso. apply Hcyc, (acyclic_of_rank G (level_of lv)).
        intros a b Hab. rewrite Forall_forall in Hall. exact (Hall (a, b) Hab).
      * apply not_Forall_Exists in Hnot; [|apply _].
        apply Exists_exists in Hnot as ([a b] & Hin & Hle). simpl in Hle.
        exists lv, a, b. split; [done|]. split; [exact Hin | lia].
  - intros jobs api Hall.
    destruct (build_from_total jobs api empty_graph Hall) as [G' HG'].
    pose proof (proj1 (build_from_Ok _ _ _ _ HG') wf_graph_empty) as Hwf'.
    exists G'. split; [done|]. intros depth' Hdepth.
    by apply layout_enough_depth.
Qed.

Lemma layout_of_cyclic_graph_returns_coordinates_witness :
  wf_graph graph_cycle /\ ~ acyclic graph_cycle /\
  exists pos,
    create_hierarchical_layout 3 graph_cycle = Some pos /\ is_Some (pos !! "A").
Proof.
  assert (Hwf : wf_graph graph_cycle) by decide_by_computation.
  split; [exact Hwf|]. split; [exact cyclic_graph_cycle|].
  destruct (layout_of_cyclic_graph_returns_coordinates graph_cycle 3 Hwf
              cyclic_graph_cycle) as (Hret & Hval & _).
  destruct Hret as [pos Hpos]; [simpl; lia|].
  destruct (Hval pos Hpos) as (Hdom & _).
  exists pos. split; [exact Hpos|]. apply Hdom. simpl. left.
Defined.

(** C1, as claimed, fails: jobs A and B with triggers A→B and B→A build
    the cyclic graph, and at every recursion depth of at least 3 its
    layout returns a coordinate map, B at (200, 0) and A at (400, 0),
    instead of failing. *)
Lemma layout_of_cycle_counterexample :
  ~ acyclic graph_cycle /\
  build_job_graph [jobA; jobB] api_cycle = Ok graph_cycle /\
  (forall depth, (3 <= depth)%nat ->
     create_hierarchical_layout depth graph_cycle =
       Some (<[ "A" := (400, y_coord 0 1) ]> (<[ "B" := (200, y_coord 0 1) ]> ∅))) /\
  (y_coord 0 1 == 0)%Q.
Proof.
  split; [exact cyclic_graph_cycle|].
  split; [vm_compute; reflexivity|].
  split; [|vm_compute; reflexivity].
  intros depth Hdepth.
  apply (create_hierarchical_layout_depth_mono graph_cycle 3 depth); [done|].
  vm_compute. reflexivity.
Qed.

(** C9.  For every graph object the layout, wherever it returns, places
    each node [n] at [x = level(n) * 200] and
    [y = (i - size/2 + 0.5) * 100], where [i] is the index of [n] in the
    group of its level and [size] the length of that group; the group of
    a level is the sequence of nodes in the order in which the traversal
    recorded their levels, restricted to that level (stable, not sorted:
    in [graph_fork] the group of level 0 is B, A).  Consecutive nodes of
    a group are 100 apart, the group is symmetric about [y = 0], nothing
    but the nodes is placed, and the empty graph yields the empty map.
    The layout returns at every recursion depth above the number of
    nodes. *)
Theorem create_hierarchical_layout_coordinates (G : DiGraph) (depth : nat) :
  wf_graph G ->
  ((length (nodes G) < depth)%nat ->
   is_Some (create_hierarchical_layout depth G)) /\
  (forall pos,
     create_hierarchical_layout depth G = Some pos ->
     exists lv,
       assign_levels depth G = Some lv /\
       (forall l,
          nodes_at lv l = filter (fun n => level_of lv n = l) (ODict.keys lv)) /\
       (forall n, n ∈ nodes G ->
          exists i : nat,
            nodes_at lv (level_of lv n) !! i = Some n /\
            pos !! n =
              Some (level_of lv n * 200,
                    ((inject_Z (Z.of_nat i)
                      - inject_Z (Z.of_nat (length (nodes_at lv (level_of lv n)))) / 2
                      + 0.5) * 100)%Q)) /\
       (forall n, n ∉ nodes G -> pos !! n = None)) /\
  (forall i k : Z,
     (y_coord (i + 1) k - y_coord i k == 100)%Q /\
     (y_coord i k + y_coord (k - 1 - i) k == 0)%Q) /\
  (forall d, create_hierarchical_layout d empty_graph = Some ∅) /\
  (forall d, (2 <= d)%nat ->
     option_map (fun lv => nodes_at lv 0) (assign_levels d graph_fork)
     = Some ["B"; "A"]).
Proof.
  intros Hwf. split; [|split; [|split; [|split]]].
  - intros Hdepth. by apply layout_enough_depth.
  - intros pos Hpos.
    destruct (layout_returned G depth pos Hwf Hpos)
      as (lv & Hlv & _ & _ & _ & Hgroups & Hplace & Hnone).
    exists lv. done.
  - intros i k. split; [apply y_coord_step | apply y_coord_centered].
  - intros d. reflexivity.
  - intros d Hd.
    rewrite (assign_levels_depth_mono graph_fork 2 d [("B", 0); ("C", 1); ("A", 0)]);
      [reflexivity | done | vm_compute; reflexivity].
Qed.

Lemma create_hierarchical_layout_coordinates_witness :
  wf_graph graph_fork /\
  (exists pos,
     create_hierarchical_layout 4 graph_fork = Some pos /\ pos !! "Z" = None) /\
  option_map (fun pos => (pos !! "B", pos !! "A", pos !! "C"))
             (create_hierarchical_layout 4 graph_fork) =
    Some (Some (0, y_coord 0 2), Some (0, y_coord 1 2), Some (200, y_coord 0 1)).
Proof.
  assert (Hwf : wf_graph graph_fork) by decide_by_computation.
  split; [exact Hwf|]. split; [|vm_compute; reflexivity].
  destruct (create_hierarchical_layout_coordinates graph_fork 4 Hwf)
    as (Hret & Hval & _).
  destruct Hret as [pos Hpos]; [simpl; lia|].
  destruct (Hval pos Hpos) as (lv & _ & _ & _ & Hnone).
  exists pos. split; [exact Hpos|].
  apply Hnone. vm_compute. intros H%list_elem_of_In. simpl in H.
  intuition discriminate.
Defined.

(* ===================================================================== *)
(** * Further results: the history *)
(* ===================================================================== *)

Lemma py_slice_from_drop {A : Type} (l : list A) (start : Z) :
  exists k, py_slice_from l start = drop k l.
Proof. unfold py_slice_from. by eexists. Qed.

Lemma suffix_is_sublist {A : Type} (l1 l2 : list A) :
  l1 `suffix_of` l2 -> l1 `sublist_of` l2.
Proof. intros [k ->]. by apply sublist_inserts_l. Qed.

Lemma newest_snoc_last {A : Type} (n : nat) (l : list A) (x : A) :
  (0 < n)%nat -> last (newest n (l ++ [x])) = Some x.
Proof.
  intros Hn. unfold newest. rewrite length_app. simpl.
  rewrite drop_app_le by lia. apply last_snoc.
Qed.

(** X1.  Whatever the limit, [get_job_history] returns entries of the
    job asked for only, in the order of the log and without repeating
    or inventing any; for a limit of at least 1 it returns as many as
    the limit allows; for a job without entries it returns nothing. *)
Theorem get_job_history_only_matching (store : history_store) (name : string)
    (limit : Z) :
  get_job_history store name limit `suffix_of`
    filter (fun entry => e_job_name entry = name) (load_history store) /\
  get_job_history store name limit `sublist_of` load_history store /\
  (forall e, e ∈ get_job_history store name limit -> e_job_name e = name) /\
  (0 < limit ->
   length (get_job_history store name limit) =
     Nat.min (Z.to_nat limit)
             (length (filter (fun entry => e_job_name entry = name)
                             (load_history store)))) /\
  ((forall e, e ∈ load_history store -> e_job_name e <> name) ->
   get_job_history store name limit = []).
Proof.
  assert (Hsuf : get_job_history store name limit `suffix_of`
            filter (fun entry => e_job_name entry = name) (load_history store)).
  { unfold get_job_history. destruct (filter _ _) as [|e l] eqn:Hf; [done|].
    destruct (py_slice_from_drop (e :: l) (- limit)) as [k ->].
    apply suffix_drop. }
  split; [exact Hsuf|]. split; [|split; [|split]].
  - etrans; [apply suffix_is_sublist, Hsuf | apply sublist_filter].
  - intros e He. apply suffix_is_sublist, sublist_subseteq in Hsuf.
    apply Hsuf, list_elem_of_filter in He. tauto.
  - intros Hpos. rewrite get_job_history_positive_limit by done.
    unfold newest. rewrite length_drop. lia.
  - intros Hnone. unfold get_job_history.
    destruct (filter _ _) as [|e l] eqn:Hf; [done|]. exfalso.
    assert (He : e ∈ filter (fun entry => e_job_name entry = name)
                        (load_history store)) by (rewrite Hf; left).
    apply list_elem_of_filter in He as [Hname Hin]. by apply (Hnone e).
Qed.

(** X2.  An entry just added is the last one [get_job_history] returns
    for its job, for every limit of at least 1 and whatever the log held
    before. *)
Theorem get_job_history_after_add (ts id name st : string)
    (out err : option string) (store : history_store) (limit : Z) :
  0 < limit ->
  last (get_job_history (add_status_entry ts id name st out err store) name limit)
  = Some (mkEntry ts id name st out err).
Proof.
  intros Hpos. rewrite get_job_history_positive_limit by done.
  rewrite load_add_status_entry. unfold newest at 2.
  rewrite length_app. simpl. rewrite drop_app_le by lia.
  rewrite filter_app, (filter_cons_True _ (mkEntry _ _ _ _ _ _)) by done.
  rewrite filter_nil. apply newest_snoc_last. lia.
Qed.

Lemma get_job_history_after_add_witness :
  last (get_job_history
          (add_status_entry "t3" "2" "B" "failed" None None
             (Some [entry_n 1; entry_n 2])) "B" 1)
  = Some (mkEntry "t3" "2" "B" "failed" None None).
Proof.
  apply (get_job_history_after_add "t3" "2" "B" "failed" None None
           (Some [entry_n 1; entry_n 2]) 1).
  lia.
Defined.

(** X3.  While the log holds fewer than 1000 entries, adding an entry
    for one job leaves what [get_job_history] returns for every other
    job unchanged. *)
Theorem add_status_entry_other_job (ts id name st : string)
    (out err : option string) (store : history_store) (name' : string)
    (limit : Z) :
  (length (load_history store) < 1000)%nat -> name' <> name ->
  get_job_history (add_status_entry ts id name st out err store) name' limit
  = get_job_history store name' limit.
Proof.
  intros Hlen Hne. unfold get_job_history.
  rewrite load_add_status_entry, newest_all by (rewrite length_app; simpl; lia).
  rewrite filter_app, (filter_cons_False _ (mkEntry _ _ _ _ _ _)) by (simpl; congruence).
  by rewrite filter_nil, app_nil_r.
Qed.

Lemma add_status_entry_other_job_witness :
  (length (load_history (Some [entry_n 1; entry_n 2])) < 1000)%nat /\
  get_job_history
    (add_status_entry "t3" "2" "B" "failed" None None
       (Some [entry_n 1; entry_n 2])) "A" 5
  = get_job_history (Some [entry_n 1; entry_n 2]) "A" 5.
Proof.
  assert (Hlen : (length (load_history (Some [entry_n 1; entry_n 2])) < 1000)%nat)
    by (simpl; lia).
  split; [exact Hlen|].
  apply (add_status_entry_other_job "t3" "2" "B" "failed" None None
           (Some [entry_n 1; entry_n 2]) "A" 5 Hlen).
  discriminate.
Defined.

Lemma append_entries_app (es1 es2 : list Entry) (store : history_store) :
  append_entries (es1 ++ es2) store = append_entries es2 (append_entries es1 store).
Proof. unfold append_entries. apply foldl_app. Qed.

Lemma update_history_append (api : TidalAPI) (stamp : Job -> string)
    (jobs : list Job) (hist : history_store) :
  update_history api stamp jobs hist =
  append_entries (status_entries api stamp jobs) hist.
Proof.
  revert hist. induction jobs as [|job jobs IH]; intros hist; [done|].
  change (status_entries api stamp (job :: jobs))
    with (match get_job_status api (job_id job) with
          | Ok status =>
              [mkEntry (stamp job) (job_id job) (job_name job)
                       (default "unknown" status) None None]
          | Raise _ => []
          end ++ status_entries api stamp jobs).
  rewrite append_entries_app. unfold update_history in *. simpl.
  rewrite IH. by destruct (get_job_status api (job_id job)).
Qed.

(** X4.  The status loop of [api_refresh] and [main] records one entry
    per job whose status fetch returns, in job order, with the status
    ['unknown'] when the response has none, and skips the jobs whose
    fetch fails: the log afterwards is the newest 1000 of the old log
    followed by these entries.  When no fetch returns, the history file
    is left as it was. *)
Theorem update_history_records_successes (api : TidalAPI)
    (stamp : Job -> string) (jobs : list Job) (hist : history_store) :
  (forall e, e ∈ status_entries api stamp jobs <->
     exists job status,
       job ∈ jobs /\ get_job_status api (job_id job) = Ok status /\
       e = mkEntry (stamp job) (job_id job) (job_name job)
                   (default "unknown" status) None None) /\
  (status_entries api stamp jobs <> [] ->
   load_history (update_history api stamp jobs hist) =
     newest 1000 (load_history hist ++ status_entries api stamp jobs)) /\
  (status_entries api stamp jobs = [] ->
   update_history api stamp jobs hist = hist) /\
  (length (status_entries api stamp jobs) <= length jobs)%nat.
Proof.
  split; [|split; [|split]].
  - intros e. unfold status_entries. rewrite list_elem_of_In, in_flat_map. split.
    + intros (job & Hjob%list_elem_of_In & He).
      destruct (get_job_status api (job_id job)) as [status|x] eqn:Hs; [|done].
      destruct He as [<-|[]]. by exists job, status.
    + intros (job & status & Hjob%list_elem_of_In & Hs & ->).
      exists job. split; [done|]. rewrite Hs. by left.
  - intros Hne. rewrite update_history_append. by apply load_append_entries.
  - intros Hnil. by rewrite update_history_append, Hnil.
  - unfold status_entries. induction jobs as [|job jobs IH]; simpl; [lia|].
    rewrite length_app.
    destruct (get_job_status api (job_id job)); simpl; lia.
Qed.

Lemma py_slice_from_neg_literal {A : Type} (l : list A) (n : Z) :
  0 < n -> py_slice_from l (- n) = newest (Z.to_nat n) l.
Proof. intros Hn. by rewrite py_slice_from_neg. Qed.

(** X5.  [/api/jobs/<job_id>/history] returns the newest entries of
    that job id, at most 10, oldest first.  [/api/history] with a
    non-empty [job_name] is [get_job_history]; without one, or with an
    empty one, it returns the newest [limit] entries of the whole log,
    for every limit of at least 1. *)
Theorem history_endpoints_newest (store : history_store) :
  (forall job_id,
     get_job_history_api store job_id =
       newest 10 (filter (fun entry => e_job_id entry = job_id)
                         (load_history store)) /\
     (length (get_job_history_api store job_id) <= 10)%nat /\
     (forall e, e ∈ get_job_history_api store job_id ->
        e_job_id e = job_id /\ e ∈ load_history store)) /\
  (forall name limit, name <> "" ->
     api_history store (Some name) limit = get_job_history store name limit) /\
  (forall limit, 0 < limit ->
     api_history store None limit = newest (Z.to_nat limit) (load_history store) /\
     api_history store (Some "") limit = api_history store None limit).
Proof.
  split; [|split].
  - intros job_id. unfold get_job_history_api.
    change (-10) with (- (10)). rewrite py_slice_from_neg_literal by lia.
    change (Z.to_nat 10) with 10%nat. split; [done|].
    split; [apply length_newest|].
    intros e He. unfold newest in He.
    apply (sublist_subseteq _ _ (sublist_drop _ _)) in He.
    apply list_elem_of_filter in He. tauto.
  - intros name limit Hne. unfold api_history. simpl.
    by rewrite bool_decide_true.
  - intros limit Hpos. unfold api_history. simpl.
    by rewrite py_slice_from_neg_literal.
Qed.

(** X6.  The job names [/history] offers are sorted, without
    repetition, and are exactly the names that occur anywhere in the
    log, also outside the entries shown; the entries shown are the
    last 50 of the log, or all of them when there are fewer. *)
Theorem history_page_names_sorted (store : history_store) :
  StronglySorted String.le (history_page store).2 /\
  NoDup (history_page store).2 /\
  (forall name, name ∈ (history_page store).2 <->
     exists e, e ∈ load_history store /\ e_job_name e = name) /\
  (history_page store).1 = newest 50 (load_history store) /\
  (length (history_page store).1 <= 50)%nat.
Proof.
  unfold history_page, sorted_names. simpl.
  assert (Hperm : merge_sort String.le
            (elements (list_to_set (map e_job_name (load_history store))
                       : gset string))
          ≡ₚ elements (list_to_set (map e_job_name (load_history store))
                       : gset string)) by apply merge_sort_Permutation.
  split; [|split; [|split; [|split]]].
  - apply Sorted_StronglySorted; [apply _|]. apply Sorted_merge_sort. apply _.
  - rewrite Hperm. apply NoDup_elements.
  - intros name. rewrite Hperm, elem_of_elements, elem_of_list_to_set.
    rewrite list_elem_of_fmap. split.
    + intros (e & -> & He). by exists e.
    + intros (e & He & <-). by exists e.
  - change (-50) with (- (50)). by rewrite py_slice_from_neg_literal.
  - change (-50) with (- (50)). rewrite py_slice_from_neg_literal by lia.
    apply length_newest.
Qed.

(* ===================================================================== *)
(** * Further results: edge listing, node-link form, cache *)
(* ===================================================================== *)

Lemma successors_pairs (es : list (string * string)) (u : string) :
  map (fun v => (u, v)) (map snd (filter (fun e => e.1 = u) es)) =
  filter (fun e => e.1 = u) es.
Proof.
  induction es as [|[a b] es IH]; [done|]. rewrite filter_cons. simpl.
  destruct (decide (a = u)) as [->|Hne]; simpl; [by rewrite IH | done].
Qed.

Lemma graph_edges_by_source (G : DiGraph) :
  graph_edges G =
  flat_map (fun u => filter (fun e => e.1 = u) (edges G)) (nodes G).
Proof.
  unfold graph_edges, successors. induction (nodes G) as [|u ns IH]; [done|].
  simpl. by rewrite IH, successors_pairs.
Qed.

Lemma filter_source_split (es : list (string * string)) (u : string)
    (ns : list string) :
  u ∉ ns ->
  filter (fun e => e.1 = u) es ++ filter (fun e => e.1 ∈ ns) es
  ≡ₚ filter (fun e => e.1 ∈ u :: ns) es.
Proof.
  intros Hu. induction es as [|e es IH]; [done|].
  rewrite !filter_cons.
  destruct (decide (e.1 = u)) as [Heq|Hne].
  - rewrite decide_False by (rewrite Heq; exact Hu).
    rewrite decide_True by (rewrite Heq; left). simpl. by rewrite IH.
  - destruct (decide (e.1 ∈ ns)) as [Hin|Hnin].
    + rewrite decide_True by (by right).
      rewrite <- Permutation_middle. by rewrite IH.
    + rewrite decide_False; [exact IH|].
      intros [?|?]%elem_of_cons; contradiction.
Qed.

Lemma edges_by_source_perm (es : list (string * string)) (ns : list string) :
  NoDup ns ->
  flat_map (fun u => filter (fun e => e.1 = u) es) ns
  ≡ₚ filter (fun e => e.1 ∈ ns) es.
Proof.
  induction ns as [|u ns IH]; intros Hnd.
  - simpl. induction es as [|e es IHes]; [done|].
    rewrite filter_cons_False; [exact IHes | apply not_elem_of_nil].
  - apply NoDup_cons in Hnd as [Hu Hnd]. simpl.
    rewrite IH by done. by apply filter_source_split.
Qed.

Lemma filter_all {A : Type} (P : A -> Prop) `{!forall x, Decision (P x)}
    (l : list A) :
  Forall P l -> filter P l = l.
Proof.
  induction 1 as [|x l Hx _ IH]; [done|]. by rewrite filter_cons_True, IH.
Qed.

(** [G.edges()] lists every edge of the graph, each once. *)
Lemma graph_edges_perm (G : DiGraph) :
  wf_graph G -> graph_edges G ≡ₚ edges G.
Proof.
  intros (Hn & _ & Hends). rewrite graph_edges_by_source.
  rewrite edges_by_source_perm by done.
  rewrite filter_all; [done|]. eapply Forall_impl; [exact Hends|].
  by intros e [H1 _].
Qed.

Lemma foldl_add_node_fresh (ns0 ns : list string) (es : list (string * string)) :
  NoDup (ns0 ++ ns) ->
  foldl (fun G n => add_node n G) (mkGraph ns0 es) ns = mkGraph (ns0 ++ ns) es.
Proof.
  revert ns0. induction ns as [|n ns IH]; intros ns0 Hnd; simpl.
  - by rewrite app_nil_r.
  - unfold add_node at 2. simpl.
    apply NoDup_app in Hnd as Hnd'. destruct Hnd' as (_ & Hdisj & _).
    rewrite decide_False by (intros Hin; apply (Hdisj n Hin); left).
    rewrite IH by (by rewrite <- app_assoc). by rewrite <- app_assoc.
Qed.

Lemma add_edge_between_nodes (ns : list string) (es : list (string * string))
    (u v : string) :
  u ∈ ns -> v ∈ ns -> (u, v) ∉ es ->
  add_edge u v (mkGraph ns es) = mkGraph ns (es ++ [(u, v)]).
Proof.
  intros Hu Hv Hnew. unfold add_edge, add_node. simpl.
  rewrite (decide_True (P := u ∈ ns)) by done. simpl.
  rewrite (decide_True (P := v ∈ ns)) by done. simpl.
  by rewrite decide_False.
Qed.

Lemma foldl_add_edge_fresh (ns : list string) (es0 es : list (string * string)) :
  Forall (fun e => e.1 ∈ ns /\ e.2 ∈ ns) es -> NoDup (es0 ++ es) ->
  foldl (fun G e => add_edge e.1 e.2 G) (mkGraph ns es0) es = mkGraph ns (es0 ++ es).
Proof.
  revert es0. induction es as [|[u v] es IH]; intros es0 Hends Hnd; simpl.
  - by rewrite app_nil_r.
  - apply Forall_cons in Hends as [[Hu Hv] Hends]. simpl in *.
    apply NoDup_app in Hnd as Hnd'. destruct Hnd' as (_ & Hdisj & _).
    rewrite add_edge_between_nodes;
      [|done|done|intros Hin; apply (Hdisj _ Hin); left].
    rewrite IH by (by rewrite <- ?app_assoc). by rewrite <- app_assoc.
Qed.

Lemma node_link_round_trip (G : DiGraph) :
  wf_graph G ->
  node_link_graph (node_link_data G) = mkGraph (nodes G) (graph_edges G).
Proof.
  intros Hwf. pose proof (graph_edges_perm G Hwf) as Hperm.
  destruct Hwf as (Hn & He & Hends).
  unfold node_link_graph, node_link_data, empty_graph. simpl.
  rewrite foldl_add_node_fresh by done. simpl.
  rewrite foldl_add_edge_fresh; [done| |simpl; by rewrite Hperm].
  apply Forall_forall. intros e Hin. rewrite Hperm in Hin.
  rewrite Forall_forall in Hends. by apply Hends.
Qed.

Lemma filter_source_flat_map (es : list (string * string)) (ns : list string)
    (u : string) :
  NoDup ns -> u ∈ ns ->
  filter (fun e => e.1 = u)
         (flat_map (fun u' => filter (fun e => e.1 = u') es) ns)
  = filter (fun e => e.1 = u) es.
Proof.
  assert (Hother : forall u', u' <> u ->
            filter (fun e : string * string => e.1 = u)
                   (filter (fun e => e.1 = u') es) = []).
  { intros u' Hne. induction es as [|e es IH]; [done|].
    rewrite filter_cons. destruct (decide (e.1 = u')) as [Heq|]; [|exact IH].
    rewrite filter_cons_False by congruence. exact IH. }
  assert (Hsame : filter (fun e : string * string => e.1 = u)
                         (filter (fun e => e.1 = u) es)
                  = filter (fun e => e.1 = u) es).
  { apply filter_all. apply Forall_forall.
    by intros e [He _]%list_elem_of_filter. }
  assert (Hout : forall ns', u ∉ ns' ->
            filter (fun e : string * string => e.1 = u)
                   (flat_map (fun u' => filter (fun e => e.1 = u') es) ns') = []).
  { induction ns' as [|u' ns' IH]; intros Hu; [done|].
    apply not_elem_of_cons in Hu as [Hne Hu]. simpl.
    rewrite filter_app, Hother, IH by done. done. }
  induction ns as [|u' ns IH]; intros Hnd Hu; [by apply elem_of_nil in Hu|].
  apply NoDup_cons in Hnd as [Hu' Hnd]. simpl. rewrite filter_app.
  destruct (decide (u' = u)) as [->|Hne].
  - by rewrite Hsame, Hout, app_nil_r.
  - apply elem_of_cons in Hu as [->|Hu]; [done|].
    by rewrite Hother, IH.
Qed.

Lemma flat_map_ext_elem {A B : Type} (f g : A -> list B) (l : list A) :
  (forall x, x ∈ l -> f x = g x) -> flat_map f l = flat_map g l.
Proof.
  induction l as [|x l IH]; intros Hfg; [done|]. simpl.
  rewrite (Hfg x) by left. rewrite IH; [done|]. intros y Hy. apply Hfg. by right.
Qed.

Lemma wf_graph_node_link_graph (d : NodeLink) : wf_graph (node_link_graph d).
Proof.
  unfold node_link_graph.
  assert (Hn : forall ns G, wf_graph G ->
            wf_graph (foldl (fun G n => add_node n G) G ns)).
  { induction ns as [|n ns IH]; intros G HG; [done|].
    simpl. by apply IH, wf_graph_add_node. }
  assert (He : forall es G, wf_graph G ->
            wf_graph (foldl (fun G e => add_edge e.1 e.2 G) G es)).
  { induction es as [|e es IH]; intros G HG; [done|].
    simpl. by apply IH, wf_graph_add_edge. }
  apply He, Hn, wf_graph_empty.
Qed.

(** X7.  Writing a graph to the cache and reading it back
    ([nx.node_link_data], then [nx.node_link_graph]) gives a graph with
    the same nodes in the same order and the same edges, each once, now
    grouped by source node; it is again a graph object, and saving it
    again writes the same node-link data. *)
Theorem node_link_graph_of_node_link_data (G : DiGraph) :
  wf_graph G ->
  nodes (node_link_graph (node_link_data G)) = nodes G /\
  edges (node_link_graph (node_link_data G)) = graph_edges G /\
  edges (node_link_graph (node_link_data G)) ≡ₚ edges G /\
  (forall a b, has_edge (node_link_graph (node_link_data G)) a b <-> has_edge G a b) /\
  wf_graph (node_link_graph (node_link_data G)) /\
  node_link_data (node_link_graph (node_link_data G)) = node_link_data G.
Proof.
  intros Hwf. pose proof (graph_edges_perm G Hwf) as Hperm.
  rewrite node_link_round_trip by done. simpl.
  split; [done|]. split; [done|]. split; [done|]. split; [|split].
  - intros a b. unfold has_edge. simpl. by rewrite Hperm.
  - rewrite <- node_link_round_trip by done. apply wf_graph_node_link_graph.
  - unfold node_link_data. simpl. f_equal.
    rewrite (graph_edges_by_source (mkGraph _ _)). simpl.
    rewrite (graph_edges_by_source G).
    apply flat_map_ext_elem. intros u Hu.
    apply filter_source_flat_map; [apply Hwf | done].
Qed.

Lemma node_link_graph_of_node_link_data_witness :
  wf_graph graph_join /\
  node_link_graph (node_link_data graph_join) =
    mkGraph ["A"; "B"; "C"] [("A", "C"); ("B", "C")].
Proof.
  assert (Hwf : wf_graph graph_join) by decide_by_computation.
  split; [exact Hwf|].
  destruct (node_link_graph_of_node_link_data graph_join Hwf) as (Hn & He & _).
  destruct (node_link_graph (node_link_data graph_join)) as [ns es].
  simpl in Hn, He. rewrite Hn, He. reflexivity.
Defined.

Lemma build_from_Ok_fetch_ok (jobs : list Job) (api : TidalAPI) (G0 G : DiGraph) :
  build_from jobs api G0 = Ok G -> Forall (fetch_ok api) jobs.
Proof.
  revert G0. induction jobs as [|j jobs IH]; intros G0; simpl; [by constructor|].
  destruct (get_job_triggers api (job_id j)) as [trgs|e] eqn:Hj; [|done].
  intros Hb. constructor; [by exists trgs | by eapply IH].
Qed.

Lemma build_job_graph_wf (jobs : list Job) (api : TidalAPI) (G : DiGraph) :
  build_job_graph jobs api = Ok G -> wf_graph G.
Proof.
  intros Hb. apply build_from_Ok in Hb as (Hwf & _). apply Hwf, wf_graph_empty.
Qed.

Lemma get_job_data_graph_wf (cache : JobCache) (api : TidalAPI) (dir : string)
    (now : Z) (store store' : option (file Snapshot)) (jobs : list Job)
    (G : DiGraph) (src : string) :
  get_job_data cache api dir now store = (Ok (jobs, G, src), store') -> wf_graph G.
Proof.
  unfold get_job_data.
  destruct (if is_cache_valid cache now store then load_cache store else None)
    as [snap|].
  - intros [= _ <- _ _]. apply wf_graph_node_link_graph.
  - destruct (get_jobs api dir) as [js|e]; [|done].
    destruct (build_job_graph js api) as [G'|e] eqn:Hb; [|done].
    intros [= _ <- _ _]. by eapply build_job_graph_wf.
Qed.

(** X8.  [/api/jobs] answers 200 with counts that agree with the lists
    it sends: [job_count] is the number of jobs, [edge_count] the number
    of dependencies listed, and no dependency is listed twice; the data
    source is ['cache'] or ['api'], and a response from the cache leaves
    the cache file alone.  Otherwise it answers 503 with a message that
    starts with "Unable to connect to Tidal API: ", and the cache file
    is as before. *)
Theorem api_jobs_counts_agree (cache : JobCache) (api : TidalAPI) (dir : string)
    (now : Z) (store : option (file Snapshot)) :
  match api_jobs cache api dir now store with
  | (Http200 body, store') =>
      resp_job_count body = Z.of_nat (length (resp_jobs body)) /\
      resp_edge_count body = Z.of_nat (length (resp_dependencies body)) /\
      NoDup (resp_dependencies body) /\
      (resp_data_source body = "cache" \/ resp_data_source body = "api") /\
      (resp_data_source body = "cache" -> store' = store)
  | (Http503 message, store') =>
      store' = store /\
      exists m, message = "Unable to connect to Tidal API: " +:+ m
  end.
Proof.
  unfold api_jobs.
  destruct (get_job_data cache api dir now store) as [[[[jobs G] src]|e] store']
    eqn:Hdata.
  - pose proof (get_job_data_graph_wf _ _ _ _ _ _ _ _ _ Hdata) as Hwf.
    pose proof (graph_edges_perm G Hwf) as Hperm. simpl.
    split; [done|]. split; [unfold number_of_edges; by rewrite Hperm|].
    split; [rewrite Hperm; apply Hwf|].
    unfold get_job_data in Hdata.
    destruct (if is_cache_valid cache now store then load_cache store else None)
      as [snap|].
    + injection Hdata as _ _ <- <-. split; [by left | done].
    + destruct (get_jobs api dir) as [js|e]; [|done].
      destruct (build_job_graph js api) as [G'|e]; [|done].
      injection Hdata as _ _ <- _. split; [by right | done].
  - unfold get_job_data in Hdata.
    destruct (if is_cache_valid cache now store then load_cache store else None)
      as [snap|]; [done|].
    destruct (get_jobs api dir) as [js|e'].
    + destruct (build_job_graph js api) as [G'|e'']; [done|].
      injection Hdata as <- <-. split; [done|]. by eexists.
    + injection Hdata as <- <-. split; [done|]. by eexists.
Qed.

(** X9.  After [get_job_data] has fetched from the scheduler and saved,
    a later call made before the expiry time answers from the cache:
    the same jobs, a graph with the same nodes and the same edges, the
    source ['cache'], the cache file untouched, whatever the scheduler
    would say by then.  A call made at or after the expiry time answers
    as if there were no cache file. *)
Theorem get_job_data_served_from_cache (cache : JobCache) (api : TidalAPI)
    (dir : string) (now : Z) (store store' : option (file Snapshot))
    (jobs : list Job) (G : DiGraph) :
  get_job_data cache api dir now store = (Ok (jobs, G, "api"), store') ->
  (forall api' dir' now',
     now' - now < timedelta_hours (expiry_hours cache) ->
     get_job_data cache api' dir' now' store' =
       (Ok (jobs, mkGraph (nodes G) (graph_edges G), "cache"), store')) /\
  (forall api' dir' now',
     timedelta_hours (expiry_hours cache) <= now' - now ->
     (get_job_data cache api' dir' now' store').1 =
     (get_job_data cache api' dir' now' None).1).
Proof.
  intros Hdata.
  pose proof (get_job_data_graph_wf _ _ _ _ _ _ _ _ _ Hdata) as Hwf.
  unfold get_job_data in Hdata.
  destruct (if is_cache_valid cache now store then load_cache store else None)
    as [snap|]; [done|].
  destruct (get_jobs api dir) as [js|e]; [|done].
  destruct (build_job_graph js api) as [G'|e]; [|done].
  injection Hdata as -> -> <-. split.
  - intros api' dir' now' Hfresh. unfold get_job_data.
    assert (Hvalid : is_cache_valid cache now'
              (save_cache now (mkSnapshot jobs (node_link_data G) now) store)
            = true).
    { apply is_cache_valid_spec. eexists. split; [reflexivity | exact Hfresh]. }
    rewrite Hvalid. simpl. by rewrite node_link_round_trip.
  - intros api' dir' now' Hstale. unfold get_job_data.
    assert (Hinvalid : is_cache_valid cache now'
              (save_cache now (mkSnapshot jobs (node_link_data G) now) store)
            = false).
    { apply not_true_is_false.
      intros (f & [= <-] & Hlt)%is_cache_valid_spec. simpl in Hlt. lia. }
    rewrite Hinvalid. simpl.
    destruct (get_jobs api' dir') as [js|e]; [|done].
    by destruct (build_job_graph js api').
Qed.

Lemma get_job_data_served_from_cache_witness :
  get_job_data (mkCache "data/job_graph_cache.json" 24) api_chain "dir" 0 None
  = (Ok ([jobA; jobB; jobC], graph_chain, "api"),
     Some (mkFile 0 (mkSnapshot [jobA; jobB; jobC] (node_link_data graph_chain) 0))) /\
  get_job_data (mkCache "data/job_graph_cache.json" 24) api_failing "dir" 3600000000
    (Some (mkFile 0 (mkSnapshot [jobA; jobB; jobC] (node_link_data graph_chain) 0)))
  = (Ok ([jobA; jobB; jobC], mkGraph (nodes graph_chain) (graph_edges graph_chain),
         "cache"),
     Some (mkFile 0 (mkSnapshot [jobA; jobB; jobC] (node_link_data graph_chain) 0))).
Proof.
  assert (Hfirst :
    get_job_data (mkCache "data/job_graph_cache.json" 24) api_chain "dir" 0 None
    = (Ok ([jobA; jobB; jobC], graph_chain, "api"),
       Some (mkFile 0 (mkSnapshot [jobA; jobB; jobC]
                                  (node_link_data graph_chain) 0))))
    by (vm_compute; reflexivity).
  split; [exact Hfirst|].
  apply (proj1 (get_job_data_served_from_cache _ _ _ _ _ _ _ _ Hfirst)).
  vm_compute. reflexivity.
Defined.

(** X10.  [api_refresh] succeeds exactly when the job list and every
    trigger list can be fetched.  On success the cache file holds the
    snapshot of the jobs fetched, written at the time of the call, and
    is valid at once for a positive expiry setting; the history has
    gone through the status loop.  On failure there is no cache file
    and the history is untouched.  Either way the snapshot that was
    cached before the call is gone. *)
Theorem api_refresh_outcome (api : TidalAPI) (dir : string) (now : Z)
    (stamp : Job -> string) (store : option (file Snapshot))
    (hist : history_store) :
  ((api_refresh api dir now stamp store hist).1.1 = true <->
   exists jobs, get_jobs api dir = Ok jobs /\ Forall (fetch_ok api) jobs) /\
  ((api_refresh api dir now stamp store hist).1.1 = false ->
   api_refresh api dir now stamp store hist = (false, None, hist)) /\
  ((api_refresh api dir now stamp store hist).1.1 = true ->
   exists jobs G,
     get_jobs api dir = Ok jobs /\ build_job_graph jobs api = Ok G /\
     api_refresh api dir now stamp store hist =
       (true,
        Some (mkFile now (mkSnapshot jobs (node_link_data G) now)),
        update_history api stamp jobs hist) /\
     forall cache, 0 < expiry_hours cache ->
       is_cache_valid cache now (api_refresh api dir now stamp store hist).1.2
       = true) /\
  (forall f, (api_refresh api dir now stamp store hist).1.2 = Some f ->
     mtime f = now).
Proof.
  unfold api_refresh.
  destruct (get_jobs api dir) as [jobs|e] eqn:Hjobs; simpl.
  - destruct (build_job_graph jobs api) as [G|e] eqn:Hb; simpl.
    + split; [|split; [done|split]].
      * split; [|done]. intros _. exists jobs. split; [done|].
        by eapply build_from_Ok_fetch_ok.
      * intros _. exists jobs, G. do 3 (split; [done|]).
        intros cache Hpos. apply bool_decide_eq_true.
        unfold timedelta_hours. lia.
      * by intros f [= <-].
    + split; [|split; [done|split; [done|done]]].
      split; [done|]. intros (jobs' & [= <-] & Hall).
      destruct (build_from_total jobs api empty_graph Hall) as [G HG].
      unfold build_job_graph in Hb. congruence.
  - split; [|split; [done|split; [done|done]]].
    split; [done|]. by intros (jobs' & [=] & _).
Qed.

(* ===================================================================== *)
(** * Further results: the layered layout *)
(* ===================================================================== *)

Lemma max_of_attained (x : Z) (xs : list Z) : max_of x xs ∈ x :: xs.
Proof.
  unfold max_of. revert x. induction xs as [|y xs IH]; intros x; simpl; [left|].
  specialize (IH (Z.max x y)).
  apply elem_of_cons in IH as [Heq|Hin].
  - rewrite Heq. destruct (Z.max_spec x y) as [[_ ->]|[_ ->]];
      [right; left | left].
  - right. by right.
Qed.

Lemma max_of_upper (x : Z) (xs : list Z) (y : Z) : y ∈ x :: xs -> y <= max_of x xs.
Proof.
  intros [->|Hin]%elem_of_cons; [apply max_of_ge_head | by apply max_of_ge_elem].
Qed.

Lemma y_coord_inj (i j k : Z) : (y_coord i k == y_coord j k)%Q -> i = j.
Proof.
  rewrite !y_coord_closed_form. intros Heq.
  apply (proj1 (inject_Z_injective _ _)) in Heq. lia.
Qed.

Lemma keys_length_nodes (G : DiGraph) (lv : list (string * Z)) :
  wf_graph G -> NoDup (ODict.keys lv) ->
  (forall n, n ∈ ODict.keys lv <-> n ∈ nodes G) ->
  length lv = length (nodes G).
Proof.
  intros Hwf Hnd Hkeys.
  rewrite <- (length_fmap fst lv). apply Permutation_length.
  apply NoDup_Permutation; [done | apply Hwf | done].
Qed.

(** X11.  No two nodes are drawn at the same place: wherever the layout
    of a graph object returns, it gives distinct nodes distinct
    coordinate pairs; and it returns at every recursion depth above the
    number of nodes. *)
Theorem create_hierarchical_layout_injective (G : DiGraph) (depth : nat) :
  wf_graph G ->
  ((length (nodes G) < depth)%nat ->
   is_Some (create_hierarchical_layout depth G)) /\
  (forall pos,
     create_hierarchical_layout depth G = Some pos ->
     forall n m, n ∈ nodes G -> m ∈ nodes G -> pos !! n = pos !! m -> n = m).
Proof.
  intros Hwf. split; [intros Hdepth; by apply layout_enough_depth|].
  intros pos Hpos.
  destruct (layout_returned G depth pos Hwf Hpos)
    as (lv & _ & _ & _ & _ & _ & Hplace & _).
  intros n m Hn Hm Heq.
  destruct (Hplace n Hn) as (i & Hi & Hpn).
  destruct (Hplace m Hm) as (j & Hj & Hpm).
  rewrite Hpn, Hpm in Heq. apply (inj Some) in Heq.
  pose proof (f_equal fst Heq) as Hx. pose proof (f_equal snd Heq) as Hy.
  simpl in Hx, Hy.
  assert (Hl : level_of lv n = level_of lv m) by lia.
  rewrite Hl in Hi, Hy.
  assert (Hij : Z.of_nat i = Z.of_nat j)
    by (apply (y_coord_inj _ _ (Z.of_nat (length (nodes_at lv (level_of lv m)))));
        by rewrite Hy).
  apply Nat2Z.inj in Hij. subst j. congruence.
Qed.

Lemma create_hierarchical_layout_injective_witness :
  wf_graph graph_cycle /\
  exists pos,
    create_hierarchical_layout 3 graph_cycle = Some pos /\
    pos !! "A" <> pos !! "B".
Proof.
  assert (Hwf : wf_graph graph_cycle) by decide_by_computation.
  split; [exact Hwf|].
  destruct (create_hierarchical_layout_injective graph_cycle 3 Hwf)
    as (Hret & Hinj).
  destruct Hret as [pos Hpos]; [simpl; lia|].
  exists pos. split; [exact Hpos|]. intros Heq.
  assert (Hab : "A" = "B").
  { apply (Hinj pos Hpos); [simpl; left | simpl; right; left | exact Heq]. }
  discriminate Hab.
Defined.

(** The facts about the levels of an acyclic graph that the next
    results share. *)
Lemma acyclic_levels_facts (G : DiGraph) (lv : list (string * Z)) :
  wf_graph G -> levels_good G lv ->
  (forall n, n ∈ ODict.keys lv <-> n ∈ nodes G) ->
  (forall n, n ∈ nodes G -> 0 <= level_of lv n) /\
  (forall n, n ∈ nodes G -> (level_of lv n = 0 <-> predecessors G n = [])) /\
  (forall n, n ∈ nodes G -> 0 < level_of lv n ->
     exists p, has_edge G p n /\ level_of lv p = level_of lv n - 1) /\
  (forall n l, n ∈ nodes G -> 0 <= l <= level_of lv n ->
     exists m, m ∈ nodes G /\ level_of lv m = l) /\
  (forall n, n ∈ nodes G -> level_of lv n < Z.of_nat (length (nodes G))).
Proof.
  intros Hwf Hgood Hkeys.
  assert (Hnonneg : forall n, n ∈ nodes G -> 0 <= level_of lv n).
  { intros n Hn. by apply (Hgood n), Hkeys. }
  assert (Hrule : forall n, n ∈ nodes G -> longest_path_rule G (level_of lv) n).
  { intros n Hn. by apply (Hgood n), Hkeys. }
  assert (Hpred : forall n, n ∈ nodes G -> 0 < level_of lv n ->
            exists p, has_edge G p n /\ level_of lv p = level_of lv n - 1).
  { intros n Hn Hpos. pose proof (Hrule n Hn) as Hr.
    unfold longest_path_rule in Hr.
    destruct (predecessors G n) as [|p ps] eqn:Hps; [lia|].
    pose proof (max_of_attained (level_of lv p) (map (level_of lv) ps)) as Hatt.
    change (level_of lv p :: map (level_of lv) ps)
      with (map (level_of lv) (p :: ps)) in Hatt.
    apply list_elem_of_fmap in Hatt as (q & Hq & Hin).
    exists q. split; [|lia].
    apply elem_of_predecessors. by rewrite Hps. }
  assert (Hfill : forall (k : nat) n l, n ∈ nodes G -> 0 <= l ->
            level_of lv n = l + Z.of_nat k ->
            exists m, m ∈ nodes G /\ level_of lv m = l).
  { induction k as [|k IH]; intros n l Hn Hl Hlevel.
    - exists n. split; [done | lia].
    - destruct (Hpred n Hn) as (p & Hedge & Hp); [lia|].
      apply (IH p l); [by apply (has_edge_nodes G p n) | done | lia]. }
  split; [exact Hnonneg|]. split; [|split; [exact Hpred|split]].
  - intros n Hn. pose proof (Hrule n Hn) as Hr. unfold longest_path_rule in Hr.
    destruct (predecessors G n) as [|p ps] eqn:Hps; [done|].
    split; [|done]. intros Hzero.
    assert (Hp : p ∈ nodes G).
    { apply (has_edge_nodes G p n); [done|].
      apply elem_of_predecessors. rewrite Hps. left. }
    pose proof (Hnonneg p Hp).
    pose proof (max_of_ge_head (level_of lv p) (map (level_of lv) ps)). lia.
  - intros n l Hn [Hl Hle].
    apply (Hfill (Z.to_nat (level_of lv n - l)) n l); [done | done | lia].
  - intros n Hn.
    assert (Hsub : seqZ 0 (level_of lv n + 1) ⊆+ map (level_of lv) (nodes G)).
    { apply NoDup_submseteq; [apply NoDup_seqZ|].
      intros l [Hl Hlt]%elem_of_seqZ.
      destruct (Hfill (Z.to_nat (level_of lv n - l)) n l) as (m & Hm & <-);
        [done | done | lia|].
      apply list_elem_of_fmap. by exists m. }
    apply submseteq_length in Hsub.
    rewrite length_seqZ, length_fmap in Hsub. pose proof (Hnonneg n Hn). lia.
Qed.

(** X12.  On an acyclic graph the layering, wherever the level
    assignment returns, is tight: the nodes of level 0 are exactly the
    nodes without predecessors, every other node has a predecessor
    exactly one level below it, no level between 0 and a node's level is
    left empty, and every level is smaller than the number of nodes.
    The assignment returns at every recursion depth above the number of
    nodes. *)
Theorem longest_path_layers_are_tight (G : DiGraph) (depth : nat) :
  wf_graph G -> acyclic G ->
  ((length (nodes G) < depth)%nat -> is_Some (assign_levels depth G)) /\
  (forall lv,
     assign_levels depth G = Some lv ->
     (forall n, n ∈ nodes G -> (level_of lv n = 0 <-> predecessors G n = [])) /\
     (forall n, n ∈ nodes G -> 0 < level_of lv n ->
        exists p, has_edge G p n /\ level_of lv p = level_of lv n - 1) /\
     (forall n l, n ∈ nodes G -> 0 <= l <= level_of lv n ->
        exists m, m ∈ nodes G /\ level_of lv m = l) /\
     (forall n, n ∈ nodes G ->
        0 <= level_of lv n < Z.of_nat (length (nodes G)))).
Proof.
  intros Hwf Hacyc. split; [intros Hdepth; by apply layout_enough_depth|].
  intros lv Hlv.
  destruct (assign_levels_returned G depth lv Hwf Hlv) as (_ & Hkeys & Hgood).
  destruct (acyclic_levels_facts G lv Hwf (Hgood Hacyc) Hkeys)
    as (Hnonneg & Hzero & Hpred & Hfill & Hbound).
  do 3 (split; [done|]). intros n Hn. split; auto.
Qed.

Lemma longest_path_layers_are_tight_witness :
  wf_graph graph_chain /\ acyclic graph_chain /\
  exists lv,
    assign_levels 4 graph_chain = Some lv /\
    level_of lv "C" < 3 /\ level_of lv "A" = 0.
Proof.
  assert (Hwf : wf_graph graph_chain) by decide_by_computation.
  split; [exact Hwf|]. split; [exact acyclic_graph_chain|].
  destruct (longest_path_layers_are_tight graph_chain 4 Hwf acyclic_graph_chain)
    as (Hret & Hval).
  destruct Hret as [lv Hlv]; [simpl; lia|].
  destruct (Hval lv Hlv) as (Hzero & _ & _ & Hbound).
  exists lv. split; [exact Hlv|]. split.
  - apply (Hbound "C"). simpl. right; right; left.
  - apply (Hzero "A"); [simpl; left | reflexivity].
Defined.

(** X13.  The drawing fits a box given by the number [N] of nodes:
    wherever the layout returns, it places nodes only, every y lies
    between [-50 (N - 1)] and [50 (N - 1)], and on an acyclic graph
    every x lies between [0] and [200 (N - 1)].  The layout returns at
    every recursion depth above the number of nodes. *)
Theorem create_hierarchical_layout_bounded (G : DiGraph) (depth : nat) :
  wf_graph G ->
  ((length (nodes G) < depth)%nat ->
   is_Some (create_hierarchical_layout depth G)) /\
  (forall pos,
     create_hierarchical_layout depth G = Some pos ->
     forall n x y, pos !! n = Some (x, y) ->
       n ∈ nodes G /\
       (inject_Z (- (50 * (Z.of_nat (length (nodes G)) - 1))) <= y)%Q /\
       (y <= inject_Z (50 * (Z.of_nat (length (nodes G)) - 1)))%Q /\
       (acyclic G -> 0 <= x <= 200 * (Z.of_nat (length (nodes G)) - 1))).
Proof.
  intros Hwf. split; [intros Hdepth; by apply layout_enough_depth|].
  intros pos Hpos.
  destruct (layout_returned G depth pos Hwf Hpos)
    as (lv & _ & Hnd & Hkeys & Hgood & _ & Hplace & Hnone).
  intros n x y Hn.
  assert (Hin : n ∈ nodes G).
  { destruct (decide (n ∈ nodes G)) as [|Hout]; [done|].
    rewrite (Hnone n Hout) in Hn. discriminate. }
  split; [done|].
  destruct (Hplace n Hin) as (j & Hj & Hpn). rewrite Hpn in Hn.
  apply (inj Some) in Hn.
  pose proof (f_equal fst Hn) as Hx. pose proof (f_equal snd Hn) as Hy.
  simpl in Hx, Hy. subst x y.
  apply lookup_lt_Some in Hj.
  assert (Hsize : (length (nodes_at lv (level_of lv n)) <= length (nodes G))%nat).
  { rewrite <- (keys_length_nodes G lv Hwf Hnd Hkeys).
    unfold nodes_at. rewrite length_fmap. apply length_filter. }
  rewrite y_coord_closed_form, <- !Zle_Qle.
  split; [lia|]. split; [lia|]. intros Hacyc.
  destruct (acyclic_levels_facts G lv Hwf (Hgood Hacyc) Hkeys)
    as (Hnonneg & _ & _ & _ & Hbound).
  specialize (Hnonneg n Hin). specialize (Hbound n Hin). lia.
Qed.

Lemma create_hierarchical_layout_bounded_witness :
  wf_graph graph_fork /\
  exists pos,
    create_hierarchical_layout 4 graph_fork = Some pos /\
    forall y, pos !! "A" = Some (0, y) -> (y <= inject_Z 100)%Q.
Proof.
  assert (Hwf : wf_graph graph_fork) by decide_by_computation.
  split; [exact Hwf|].
  destruct (create_hierarchical_layout_bounded graph_fork 4 Hwf)
    as (Hret & Hbox).
  destruct Hret as [pos Hpos]; [simpl; lia|].
  exists pos. split; [exact Hpos|]. intros y Hy.
  exact (proj1 (proj2 (proj2 (Hbox pos Hpos "A" 0 y Hy)))).
Defined.

Lemma longest_path_rule_same_preds (G G' : DiGraph) (f : string -> Z) (n : string) :
  (forall p, p ∈ predecessors G n <-> p ∈ predecessors G' n) ->
  longest_path_rule G' f n -> longest_path_rule G f n.
Proof.
  unfold longest_path_rule. intros Hsame ->.
  destruct (predecessors G n) as [|p ps] eqn:Hps,
           (predecessors G' n) as [|p' ps'] eqn:Hps'; [done| | |].
  - exfalso. apply (not_elem_of_nil p'), Hsame. left.
  - exfalso. apply (not_elem_of_nil p), Hsame. left.
  - f_equal.
    assert (Hle : forall l l' : list string, forall q qs q' qs',
              l = q :: qs -> l' = q' :: qs' ->
              (forall x, x ∈ l -> x ∈ l') ->
              max_of (f q) (map f qs) <= max_of (f q') (map f qs')).
    { intros l l' q qs q' qs' -> -> Hsub.
      pose proof (max_of_attained (f q) (map f qs)) as Hatt.
      change (f q :: map f qs) with (map f (q :: qs)) in Hatt.
      apply list_elem_of_fmap in Hatt as (x & -> & Hx).
      apply max_of_upper.
      change (f q' :: map f qs') with (map f (q' :: qs')).
      apply list_elem_of_fmap. exists x. split; [done | by apply Hsub]. }
    pose proof (Hle _ _ p ps p' ps' eq_refl eq_refl (fun x => proj1 (Hsame x))).
    pose proof (Hle _ _ p' ps' p ps eq_refl eq_refl (fun x => proj2 (Hsame x))).
    lia.
Qed.

Lemma levels_agree_same_edges (G G' : DiGraph) (depth depth' : nat)
    (lv lv' : list (string * Z)) :
  wf_graph G -> wf_graph G' -> acyclic G ->
  (forall n, n ∈ nodes G <-> n ∈ nodes G') ->
  (forall a b, has_edge G a b <-> has_edge G' a b) ->
  assign_levels depth G = Some lv -> assign_levels depth' G' = Some lv' ->
  forall n, n ∈ nodes G -> level_of lv' n = level_of lv n.
Proof.
  intros Hwf Hwf' Hacyc Hnodes Hedges Hlv Hlv'.
  destruct (assign_levels_returned G depth lv Hwf Hlv) as (_ & Hkeys & Hgood).
  destruct (assign_levels_returned G' depth' lv' Hwf' Hlv')
    as (_ & Hkeys' & Hgood').
  specialize (Hgood Hacyc).
  assert (Hinc : forall a b, has_edge G a b -> level_of lv a < level_of lv b).
  { intros a b Hab. apply (longest_path_rule_edge G); [done|].
    apply (Hgood b), Hkeys. by apply (has_edge_nodes G a b). }
  assert (Hacyc' : acyclic G').
  { apply (acyclic_of_rank G' (level_of lv)). intros a b Hab.
    by apply Hinc, Hedges. }
  specialize (Hgood' Hacyc').
  apply (longest_path_rule_unique G lv (level_of lv')); [done..|].
  intros n Hn. apply (longest_path_rule_same_preds G G').
  - intros p. rewrite !elem_of_predecessors. apply Hedges.
  - apply (Hgood' n), Hkeys', Hnodes, Hn.
Qed.

Lemma has_edge_node_link_round_trip (G : DiGraph) (a b : string) :
  wf_graph G ->
  has_edge (node_link_graph (node_link_data G)) a b <-> has_edge G a b.
Proof.
  intros Hwf. rewrite node_link_round_trip by done.
  unfold has_edge. simpl. by rewrite (graph_edges_perm G Hwf).
Qed.

(** X14.  On acyclic graphs the levels, and with them the x
    coordinates, depend on the nodes and edges only, not on the order
    in which they were added: for two graph objects with the same nodes
    and the same edges, whatever the depths at which the two level
    assignments ran, where both return they give every node the same
    level.  Each returns at every recursion depth above the number of
    nodes. *)
Theorem levels_independent_of_insertion_order (G G' : DiGraph)
    (depth depth' : nat) :
  wf_graph G -> wf_graph G' -> acyclic G ->
  (forall n, n ∈ nodes G <-> n ∈ nodes G') ->
  (forall a b, has_edge G a b <-> has_edge G' a b) ->
  ((length (nodes G) < depth)%nat -> is_Some (assign_levels depth G)) /\
  ((length (nodes G') < depth')%nat -> is_Some (assign_levels depth' G')) /\
  (forall lv lv',
     assign_levels depth G = Some lv -> assign_levels depth' G' = Some lv' ->
     forall n, n ∈ nodes G -> level_of lv' n = level_of lv n).
Proof.
  intros Hwf Hwf' Hacyc Hnodes Hedges.
  split; [intros Hdepth; by apply layout_enough_depth|].
  split; [intros Hdepth; by apply layout_enough_depth|].
  intros lv lv'. by apply levels_agree_same_edges.
Qed.

Lemma levels_independent_of_insertion_order_witness :
  wf_graph graph_chain /\ wf_graph graph_chain_rev /\ acyclic graph_chain /\
  exists lv lv',
    assign_levels 2 graph_chain = Some lv /\
    assign_levels 4 graph_chain_rev = Some lv' /\
    level_of lv' "C" = level_of lv "C".
Proof.
  assert (Hwf : wf_graph graph_chain) by decide_by_computation.
  assert (Hwf' : wf_graph graph_chain_rev) by decide_by_computation.
  split; [exact Hwf|]. split; [exact Hwf'|]. split; [exact acyclic_graph_chain|].
  destruct (levels_independent_of_insertion_order graph_chain graph_chain_rev
              2 4 Hwf Hwf' acyclic_graph_chain) as (_ & Hret' & Hsame).
  - intros n. simpl. rewrite !elem_of_cons, !elem_of_nil. tauto.
  - intros a b. unfold has_edge. simpl. rewrite !elem_of_cons, !elem_of_nil. tauto.
  - destruct Hret' as [lv' Hlv']; [simpl; lia|].
    assert (Hlv : assign_levels 2 graph_chain
                  = Some [("A", 0); ("B", 1); ("C", 2)]) by (vm_compute; reflexivity).
    exists [("A", 0); ("B", 1); ("C", 2)], lv'.
    split; [exact Hlv|]. split; [exact Hlv'|].
    apply (Hsame _ lv' Hlv Hlv'). simpl. right; right; left.
Defined.

(** X15.  Serving an acyclic graph from the cache does not move any node
    to another column: where the layout of the graph that was saved and
    the layout of the graph read back from its node-link form both
    return, at whatever depths, they give every node the same x
    coordinate.  Each returns at every recursion depth above the number
    of nodes. *)
Theorem cached_graph_keeps_columns (G : DiGraph) (depth depth' : nat) :
  wf_graph G -> acyclic G ->
  ((length (nodes G) < depth)%nat ->
   is_Some (create_hierarchical_layout depth G)) /\
  ((length (nodes G) < depth')%nat ->
   is_Some (create_hierarchical_layout depth'
              (node_link_graph (node_link_data G)))) /\
  (forall pos pos',
     create_hierarchical_layout depth G = Some pos ->
     create_hierarchical_layout depth' (node_link_graph (node_link_data G))
       = Some pos' ->
     forall n, n ∈ nodes G ->
       exists x y y', pos !! n = Some (x, y) /\ pos' !! n = Some (x, y')).
Proof.
  intros Hwf Hacyc.
  pose proof (wf_graph_node_link_graph (node_link_data G)) as Hwf'.
  assert (Hnodes : nodes (node_link_graph (node_link_data G)) = nodes G).
  { by rewrite node_link_round_trip. }
  split; [intros Hdepth; by apply layout_enough_depth|].
  split; [intros Hdepth; apply layout_enough_depth; [done | by rewrite Hnodes]|].
  intros pos pos' Hpos Hpos'.
  destruct (layout_returned G depth pos Hwf Hpos)
    as (lv & Hlv & _ & _ & _ & _ & Hplace & _).
  destruct (layout_returned _ depth' pos' Hwf' Hpos')
    as (lv' & Hlv' & _ & _ & _ & _ & Hplace' & _).
  assert (Hsame : forall n, n ∈ nodes G -> level_of lv' n = level_of lv n).
  { apply (levels_agree_same_edges G (node_link_graph (node_link_data G))
             depth depth'); [done..| | |done|done].
    - intros n. by rewrite Hnodes.
    - intros a b. symmetry. by apply has_edge_node_link_round_trip. }
  intros n Hn.
  destruct (Hplace n Hn) as (j & _ & Hj).
  destruct (Hplace' n) as (j' & _ & Hj'); [by rewrite Hnodes|].
  rewrite (Hsame n Hn) in Hj'. eauto.
Qed.

Lemma cached_graph_keeps_columns_witness :
  wf_graph graph_join /\ acyclic graph_join /\
  exists pos pos',
    create_hierarchical_layout 4 graph_join = Some pos /\
    create_hierarchical_layout 4 (node_link_graph (node_link_data graph_join))
      = Some pos' /\
    exists x y y', pos !! "C" = Some (x, y) /\ pos' !! "C" = Some (x, y').
Proof.
  assert (Hwf : wf_graph graph_join) by decide_by_computation.
  assert (Hacyc : acyclic graph_join).
  { apply (acyclic_of_rank _ rank_join). intros a b Hab.
    unfold has_edge, graph_join in Hab. simpl in Hab.
    apply elem_of_cons in Hab as [[= -> ->]|Hab]; [by vm_compute|].
    apply elem_of_cons in Hab as [[= -> ->]|Hab]; [by vm_compute|].
    by apply elem_of_nil in Hab. }
  split; [exact Hwf|]. split; [exact Hacyc|].
  destruct (cached_graph_keeps_columns graph_join 4 4 Hwf Hacyc)
    as (Hret & Hret' & Hsame).
  destruct Hret as [pos Hpos]; [simpl; lia|].
  destruct Hret' as [pos' Hpos']; [simpl; lia|].
  exists pos, pos'. split; [exact Hpos|]. split; [exact Hpos'|].
  apply (Hsame pos pos' Hpos Hpos'). simpl. right; right; left.
Defined.

(* ===================================================================== *)
(** * Further results: plot data, time texts, request URLs *)
(* ===================================================================== *)

Lemma edge_trace_ok (pos : gmap string (Z * Q)) (es : list (string * string)) :
  Forall (fun e => is_Some (pos !! e.1) /\ is_Some (pos !! e.2)) es ->
  forall edge_x edge_y,
    edge_trace pos es edge_x edge_y =
    Ok (edge_x ++ flat_map (fun e => [fst <$> pos !! e.1; fst <$> pos !! e.2; None]) es,
        edge_y ++ flat_map (fun e => [snd <$> pos !! e.1; snd <$> pos !! e.2; None]) es).
Proof.
  induction 1 as [|e es [[[x0 y0] H0] [[x1 y1] H1]] _ IH]; intros edge_x edge_y.
  - simpl. by rewrite !app_nil_r.
  - simpl. unfold getitem. rewrite H0, H1. simpl.
    rewrite IH, <- !app_assoc. done.
Qed.

Lemma edge_trace_key_error (pos : gmap string (Z * Q))
    (es : list (string * string)) :
  Exists (fun e => pos !! e.1 = None \/ pos !! e.2 = None) es ->
  forall edge_x edge_y,
    exists x, edge_trace pos es edge_x edge_y = Raise x /\ exn_kind x = "KeyError".
Proof.
  induction es as [|e es IH]; intros Hex edge_x edge_y;
    [by apply Exists_nil in Hex|].
  simpl. unfold getitem.
  destruct (pos !! e.1) as [[x0 y0]|] eqn:H0; [|by eexists].
  destruct (pos !! e.2) as [[x1 y1]|] eqn:H1; [|by eexists].
  apply Exists_cons in Hex as [[?|?]|Hex]; [congruence..|].
  fold (getitem pos) in *. by apply IH.
Qed.

Lemma node_trace_ok (pos : gmap string (Z * Q)) (ns : list string) :
  Forall (fun n => is_Some (pos !! n)) ns ->
  forall node_x node_y,
    exists xs ys,
      node_trace pos ns node_x node_y = Ok (node_x ++ xs, node_y ++ ys) /\
      Forall2 (fun n xy => pos !! n = Some xy) ns (zip xs ys) /\
      length xs = length ns /\ length ys = length ns.
Proof.
  induction 1 as [|n ns [[x y] Hn] _ IH]; intros node_x node_y.
  - exists [], []. simpl. rewrite !app_nil_r. repeat split; constructor.
  - destruct (IH (node_x ++ [x]) (node_y ++ [y])) as (xs & ys & Htr & Hall & Hlx & Hly).
    exists (x :: xs), (y :: ys). simpl. unfold getitem. rewrite Hn. simpl.
    fold (getitem pos). rewrite Htr, <- !app_assoc. simpl.
    split; [done|]. split; [by constructor|]. by rewrite Hlx, Hly.
Qed.

(** X16.  Plotting never misses a position: for every graph object
    whose layout has returned, the loops of [create_plotly_graph] over
    the edges and over the nodes find a coordinate pair for every key
    they look up in it, so no [KeyError] arises, although a map lacking
    an endpoint would raise one.  The edge lists hold three entries per
    edge, the two end points and a [None] separator; the node lists
    hold one entry per node, in node order.  The layout returns at
    every recursion depth above the number of nodes. *)
Theorem create_plotly_graph_finds_every_position (G : DiGraph) (depth : nat) :
  wf_graph G ->
  ((length (nodes G) < depth)%nat ->
   is_Some (create_hierarchical_layout depth G)) /\
  (forall pos,
     create_hierarchical_layout depth G = Some pos ->
     exists xs ys,
       edge_trace pos (graph_edges G) [] [] =
         Ok (flat_map (fun e => [fst <$> pos !! e.1; fst <$> pos !! e.2; None])
                      (graph_edges G),
             flat_map (fun e => [snd <$> pos !! e.1; snd <$> pos !! e.2; None])
                      (graph_edges G)) /\
       length (flat_map (fun e => [fst <$> pos !! e.1; fst <$> pos !! e.2; None])
                        (graph_edges G)) = (3 * length (edges G))%nat /\
       node_trace pos (nodes G) [] [] = Ok (xs, ys) /\
       Forall2 (fun n xy => pos !! n = Some xy) (nodes G) (zip xs ys) /\
       length xs = length (nodes G) /\ length ys = length (nodes G)) /\
  (forall pos',
     Exists (fun e => pos' !! e.1 = None \/ pos' !! e.2 = None) (graph_edges G) ->
     exists x, edge_trace pos' (graph_edges G) [] [] = Raise x /\
               exn_kind x = "KeyError").
Proof.
  intros Hwf. split; [intros Hdepth; by apply layout_enough_depth|].
  split; [|intros pos' Hex; by apply edge_trace_key_error].
  intros pos Hpos.
  destruct (layout_returned G depth pos Hwf Hpos)
    as (lv & _ & _ & _ & _ & _ & Hplace & _).
  assert (Hsome : forall n, n ∈ nodes G -> is_Some (pos !! n)).
  { intros n Hn. destruct (Hplace n Hn) as (j & _ & Hj). by eexists. }
  pose proof (graph_edges_perm G Hwf) as Hperm.
  destruct (node_trace_ok pos (nodes G)) with (node_x := @nil Z) (node_y := @nil Q)
    as (xs & ys & Htr & Hall & Hlx & Hly).
  { apply Forall_forall. exact Hsome. }
  exists xs, ys. split; [|split; [|done]].
  - rewrite edge_trace_ok; [done|]. apply Forall_forall. intros [a b] Hin.
    rewrite Hperm in Hin. destruct (has_edge_nodes G a b Hwf Hin). simpl.
    split; by apply Hsome.
  - rewrite <- (Permutation_length Hperm). generalize (graph_edges G).
    intros es. induction es as [|e es IH]; [done|].
    simpl flat_map. cbn [length]. rewrite IH. cbn [length]. lia.
Qed.

Lemma create_plotly_graph_finds_every_position_witness :
  wf_graph graph_chain /\
  exists pos,
    create_hierarchical_layout 4 graph_chain = Some pos /\
    edge_trace pos (graph_edges graph_chain) [] [] =
      Ok ([Some 0; Some 200; None; Some 200; Some 400; None],
          [Some (y_coord 0 1); Some (y_coord 0 1); None;
           Some (y_coord 0 1); Some (y_coord 0 1); None]).
Proof.
  assert (Hwf : wf_graph graph_chain) by decide_by_computation.
  split; [exact Hwf|].
  destruct (create_plotly_graph_finds_every_position graph_chain 4 Hwf)
    as (Hret & Hval & _).
  destruct Hret as [pos Hpos]; [simpl; lia|].
  destruct (Hval pos Hpos) as (xs & ys & Hedges & _).
  exists pos. split; [exact Hpos|]. rewrite Hedges.
  assert (Hp : Some pos = create_hierarchical_layout 4 graph_chain) by done.
  vm_compute in Hp. injection Hp as ->. vm_compute. reflexivity.
Defined.

Lemma split_on_no_sep (c : ascii) (s : string) :
  str_contains c s = false -> split_on c s = [s].
Proof.
  induction s as [|a s IH]; [done|]. simpl.
  intros [Ha Hs]%orb_false_elim. apply bool_decide_eq_false in Ha.
  rewrite decide_False by done. by rewrite IH.
Qed.

Lemma split_on_sep (c : ascii) (d rest : string) :
  str_contains c d = false ->
  split_on c (d +:+ String c rest) = d :: split_on c rest.
Proof.
  induction d as [|a d IH].
  - intros _. change ("" +:+ String c rest) with (String c rest). simpl.
    by rewrite decide_True.
  - intros Hcont. simpl in Hcont.
    apply orb_false_elim in Hcont as [Ha Hd]. apply bool_decide_eq_false in Ha.
    change (String a d +:+ String c rest) with (String a (d +:+ String c rest)).
    cbn [split_on]. rewrite decide_False by done. by rewrite IH.
Qed.

Lemma format_time_with_T (d tm : string) :
  str_contains "T" d = false -> str_contains "T" tm = false ->
  format_time (d +:+ String "T" tm) = Ok (d +:+ " " +:+ str_take 8 tm).
Proof.
  intros Hd Htm. unfold format_time.
  by rewrite split_on_sep, split_on_no_sep.
Qed.

Lemma format_time_with_more_T (d tm rest : string) :
  str_contains "T" d = false -> str_contains "T" tm = false ->
  format_time (d +:+ String "T" (tm +:+ String "T" rest))
  = Ok (d +:+ " " +:+ str_take 8 tm).
Proof.
  intros Hd Htm. unfold format_time.
  by rewrite !split_on_sep.
Qed.

Lemma format_time_without_T (t : string) :
  str_contains "T" t = false ->
  format_time t = Raise (Exn "IndexError" "list index out of range").
Proof. intros Ht. unfold format_time. by rewrite split_on_no_sep. Qed.

Lemma str_take_length (n : nat) (s : string) :
  (str_len (str_take n s) <= n)%nat.
Proof.
  revert n. induction s as [|c s IH]; intros n; simpl; [lia|].
  destruct (is_continuation c) eqn:Hc; simpl.
  - rewrite Hc. apply IH.
  - destruct n as [|n]; simpl; [lia|]. rewrite Hc. specialize (IH n). lia.
Qed.

Lemma str_take_prefix (n : nat) (s : string) :
  exists r, s = str_take n s +:+ r.
Proof.
  revert n. induction s as [|c s IH]; intros n; simpl; [by exists EmptyString|].
  destruct (is_continuation c).
  - destruct (IH n) as [r Hr]. exists r.
    change (String c (str_take n s) +:+ r) with (String c (str_take n s +:+ r)).
    by rewrite <- Hr.
  - destruct n as [|n]; [by exists (String c s)|].
    destruct (IH n) as [r Hr]. exists r.
    change (String c (str_take n s) +:+ r) with (String c (str_take n s +:+ r)).
    by rewrite <- Hr.
Qed.

Lemma str_take_all (n : nat) (s : string) :
  (str_len s <= n)%nat -> str_take n s = s.
Proof.
  revert n. induction s as [|c s IH]; intros n; simpl; [done|].
  destruct (is_continuation c).
  - intros Hle. by rewrite IH.
  - destruct n as [|n]; [lia|]. intros Hle. rewrite IH; [done | lia].
Qed.

(** X17.  The start and end texts of a node never fail on a malformed
    time: a missing or empty time gives "Not started" (for the end:
    "In progress" when the status is running, else "Not finished"); a
    time without a ['T'] gives "Invalid time"; a time [d] 'T' [tm],
    whether or not a further 'T' and more text follow, gives [d], a
    space and the first 8 characters of [tm] (characters, not bytes:
    all of [tm] when it has no more than 8), so an ISO time with
    fractional seconds is shown to the second. *)
Theorem time_texts_are_defensive :
  (start_str None = "Not started" /\ start_str (Some "") = "Not started") /\
  (forall status,
     end_str status None = end_str status (Some "") /\
     end_str status None =
       if decide (status = "running") then "In progress" else "Not finished") /\
  (forall t status, t <> "" -> str_contains "T" t = false ->
     start_str (Some t) = "Invalid time" /\
     end_str status (Some t) = "Invalid time") /\
  (forall d tm status,
     str_contains "T" d = false -> str_contains "T" tm = false ->
     (start_str (Some (d +:+ String "T" tm)) = d +:+ " " +:+ str_take 8 tm /\
      end_str status (Some (d +:+ String "T" tm)) = d +:+ " " +:+ str_take 8 tm) /\
     (forall rest,
        start_str (Some (d +:+ String "T" (tm +:+ String "T" rest)))
          = d +:+ " " +:+ str_take 8 tm /\
        end_str status (Some (d +:+ String "T" (tm +:+ String "T" rest)))
          = d +:+ " " +:+ str_take 8 tm)) /\
  (forall tm,
     (str_len (str_take 8 tm) <= 8)%nat /\
     (exists r, tm = str_take 8 tm +:+ r) /\
     ((str_len tm <= 8)%nat -> str_take 8 tm = tm)) /\
  start_str (Some "2024-01-15T10:30:45.123456") = "2024-01-15 10:30:45" /\
  start_str (Some ("2024-01-15T" +:+ str_repeat 10 e_acute))
    = "2024-01-15 " +:+ str_repeat 8 e_acute.
Proof.
  split; [done|]. split; [|split; [|split; [|split; [|split]]]].
  - intros status. unfold end_str. simpl. done.
  - intros t status Hne Ht. unfold start_str, end_str.
    rewrite !decide_False by done. by rewrite format_time_without_T.
  - intros d tm status Hd Htm. split.
    + assert (Hne : d +:+ String "T" tm <> "") by (by destruct d).
      unfold start_str, end_str. rewrite !decide_False by done.
      by rewrite format_time_with_T.
    + intros rest.
      assert (Hne : d +:+ String "T" (tm +:+ String "T" rest) <> "")
        by (by destruct d).
      unfold start_str, end_str. rewrite !decide_False by done.
      by rewrite format_time_with_more_T.
  - intros tm. split; [apply str_take_length|].
    split; [apply str_take_prefix | apply str_take_all].
  - vm_compute. reflexivity.
  - vm_compute. reflexivity.
Qed.

Lemma rstrip_slash_snoc (s : string) : rstrip_slash (s +:+ "/") = rstrip_slash s.
Proof.
  induction s as [|c s IH]; [done|].
  change (String c s +:+ "/") with (String c (s +:+ "/")).
  cbn [rstrip_slash]. by rewrite IH.
Qed.

Lemma rstrip_slash_no_slash_end (s : string) :
  ends_with_slash (rstrip_slash s) = false.
Proof.
  induction s as [|c s IH]; [done|]. simpl.
  destruct (rstrip_slash s) as [|a r] eqn:Hr.
  - destruct (decide (c = "/"%char)) as [->|Hne]; [done|].
    simpl. by apply bool_decide_eq_false.
  - exact IH.
Qed.

Lemma rstrip_slash_fixed (s : string) :
  ends_with_slash s = false -> rstrip_slash s = s.
Proof.
  induction s as [|c s IH]; [done|]. destruct s as [|a r].
  - simpl. intros Hc%bool_decide_eq_false. by rewrite decide_False.
  - intros Hs. change (ends_with_slash (String c (String a r)))
      with (ends_with_slash (String a r)) in Hs.
    change (rstrip_slash (String c (String a r)))
      with (match rstrip_slash (String a r) with
            | EmptyString => if decide (c = "/"%char) then EmptyString
                             else String c EmptyString
            | r' => String c r'
            end).
    by rewrite IH.
Qed.

(** X18.  Trailing slashes in the configured base URL make no
    difference: [rstrip('/')] removes all of them and nothing else, it
    changes nothing in a URL that does not end with a slash, and the
    URL requested for the triggers of a job is the same with and
    without them. *)
Theorem base_url_trailing_slashes_ignored (base_url job_id : string) :
  api_base_url (base_url +:+ "/") = api_base_url base_url /\
  ends_with_slash (api_base_url base_url) = false /\
  (ends_with_slash base_url = false -> api_base_url base_url = base_url) /\
  api_base_url (api_base_url base_url) = api_base_url base_url /\
  triggers_url (base_url +:+ "/") job_id = triggers_url base_url job_id /\
  triggers_url "http://tidal/" "42" = "http://tidal/api/jobs/42/dependencies".
Proof.
  unfold triggers_url, api_base_url.
  split; [apply rstrip_slash_snoc|].
  split; [apply rstrip_slash_no_slash_end|].
  split; [apply rstrip_slash_fixed|].
  split; [apply rstrip_slash_fixed, rstrip_slash_no_slash_end|].
  split; [by rewrite rstrip_slash_snoc | done].
Qed.

(* ===================================================================== *)
(** * Further results: the command-line run, the viewer, the earlier
      dashboard *)
(* ===================================================================== *)

Lemma newest_app_keep {A : Type} (n : nat) (l1 l2 : list A) :
  (length l2 <= n)%nat ->
  newest n (l1 ++ l2) = newest (n - length l2) l1 ++ l2.
Proof.
  intros Hle. unfold newest. rewrite length_app.
  rewrite drop_app_le by lia. do 2 f_equal. lia.
Qed.

Lemma length_status_entries (api : TidalAPI) (stamp : Job -> string)
    (jobs : list Job) :
  (length (status_entries api stamp jobs) <= length jobs)%nat.
Proof.
  unfold status_entries. induction jobs as [|job jobs IH]; simpl; [lia|].
  rewrite length_app.
  destruct (get_job_status api (job_id job)); simpl; lia.
Qed.

Lemma status_entries_other_names (api : TidalAPI) (stamp : Job -> string)
    (jobs : list Job) (name : string) :
  Forall (fun j => job_name j <> name) jobs ->
  filter (fun entry => e_job_name entry = name) (status_entries api stamp jobs) = [].
Proof.
  unfold status_entries. induction 1 as [|job jobs Hne _ IH]; [done|].
  simpl. rewrite filter_app, IH, app_nil_r.
  destruct (get_job_status api (job_id job)); [|done].
  by rewrite filter_cons_False.
Qed.

Lemma update_history_same_status (api api' : TidalAPI) (stamp : Job -> string)
    (jobs : list Job) (hist : history_store) :
  (forall id, get_job_status api id = get_job_status api' id) ->
  update_history api stamp jobs hist = update_history api' stamp jobs hist.
Proof.
  intros Hsame. revert hist. unfold update_history.
  induction jobs as [|job jobs IH]; intros hist; [done|].
  simpl. by rewrite Hsame, IH.
Qed.

(** X19.  The recent history [main] prints for the first job ends with
    the status just fetched in this run, provided that fetch returned,
    no later job of the list has the same name, and the list has at
    most 1000 jobs, so that the entry is not pushed out of the log by
    the entries of the jobs after it.  At most five entries are
    printed. *)
Theorem main_recent_history_ends_with_this_run (cache : JobCache)
    (api : TidalAPI) (dir : string) (now : Z) (stamp : Job -> string)
    (store store' : option (file Snapshot)) (hist hist' : history_store)
    (job : Job) (jobs : list Job) (recent : list Entry)
    (status : option string) :
  main cache api dir now stamp store hist = Ok (job :: jobs, recent, store', hist') ->
  get_job_status api (job_id job) = Ok status ->
  Forall (fun j => job_name j <> job_name job) jobs ->
  (length jobs < 1000)%nat ->
  last recent = Some (mkEntry (stamp job) (job_id job) (job_name job)
                              (default "unknown" status) None None) /\
  (length recent <= 5)%nat /\
  (forall e, e ∈ recent -> e_job_name e = job_name job /\ e ∈ load_history hist').
Proof.
  intros Hmain Hstatus Hnames Hlen.
  assert (Hrec : recent = get_job_history hist' (job_name job) 5 /\
                 hist' = update_history api stamp (job :: jobs) hist).
  { unfold main in Hmain.
    destruct (if is_cache_valid cache now store then load_cache store else None)
      as [snap|].
    - destruct (snap_jobs snap) as [|j js] eqn:Hjs; [done|].
      by injection Hmain as -> -> <- _ <-.
    - destruct (get_jobs api dir) as [js|e]; [|done].
      destruct (build_job_graph js api) as [G|e]; [|done].
      destruct js as [|j js]; [done|].
      by injection Hmain as -> -> <- _ <-. }
  destruct Hrec as [-> ->].
  rewrite get_job_history_positive_limit by lia.
  split; [|split].
  - rewrite update_history_append.
    change (status_entries api stamp (job :: jobs))
      with (match get_job_status api (job_id job) with
            | Ok status =>
                [mkEntry (stamp job) (job_id job) (job_name job)
                         (default "unknown" status) None None]
            | Raise _ => []
            end ++ status_entries api stamp jobs).
    rewrite Hstatus. simpl app.
    rewrite load_append_entries by done.
    pose proof (length_status_entries api stamp jobs) as Hle.
    rewrite newest_app_keep by (simpl; lia).
    rewrite filter_app, filter_cons_True by done.
    rewrite status_entries_other_names by done.
    apply newest_snoc_last. lia.
  - apply length_newest.
  - intros e He. unfold newest in He.
    apply (sublist_subseteq _ _ (sublist_drop _ _)) in He.
    apply list_elem_of_filter in He. tauto.
Qed.

Lemma main_recent_history_ends_with_this_run_witness :
  main (mkCache "data/job_graph_cache.json" 24) api_status_gaps "dir" 0
       (fun j => "t" +:+ job_id j) None (Some [entry_n 1])
  = Ok ([jobA; jobB; jobC],
        [entry_n 1; mkEntry "t1" "1" "A" "success" None None],
        Some (mkFile 0 (mkSnapshot [jobA; jobB; jobC]
                          (node_link_data (mkGraph ["A"; "B"; "C"] [])) 0)),
        Some [entry_n 1; mkEntry "t1" "1" "A" "success" None None;
              mkEntry "t3" "3" "C" "unknown" None None]) /\
  last [entry_n 1; mkEntry "t1" "1" "A" "success" None None]
  = Some (mkEntry "t1" "1" "A" "success" None None).
Proof.
  assert (Hmain :
    main (mkCache "data/job_graph_cache.json" 24) api_status_gaps "dir" 0
         (fun j => "t" +:+ job_id j) None (Some [entry_n 1])
    = Ok ([jobA; jobB; jobC],
          [entry_n 1; mkEntry "t1" "1" "A" "success" None None],
          Some (mkFile 0 (mkSnapshot [jobA; jobB; jobC]
                            (node_link_data (mkGraph ["A"; "B"; "C"] [])) 0)),
          Some [entry_n 1; mkEntry "t1" "1" "A" "success" None None;
                mkEntry "t3" "3" "C" "unknown" None None]))
    by (vm_compute; reflexivity).
  split; [exact Hmain|].
  refine (proj1 (main_recent_history_ends_with_this_run _ _ _ _ _ _ _ _ _
                   jobA [jobB; jobC] _ (Some "success") Hmain _ _ _)).
  - reflexivity.
  - repeat constructor; discriminate.
  - simpl. lia.
Defined.

(** X20.  With a valid cache file [main] does not ask the scheduler for
    jobs or triggers: it completes with the cached jobs and leaves the
    cache file alone, and its outcome depends on the scheduler through
    the status answers only. *)
Theorem main_on_valid_cache_asks_for_status_only (cache : JobCache)
    (api api' : TidalAPI) (dir dir' : string) (now : Z) (stamp : Job -> string)
    (store : option (file Snapshot)) (hist : history_store) :
  is_cache_valid cache now store = true ->
  (forall id, get_job_status api id = get_job_status api' id) ->
  main cache api dir now stamp store hist = main cache api' dir' now stamp store hist /\
  exists snap recent,
    load_cache store = Some snap /\
    main cache api dir now stamp store hist =
      Ok (snap_jobs snap, recent, store,
          update_history api stamp (snap_jobs snap) hist).
Proof.
  intros Hvalid Hsame. unfold main. rewrite Hvalid.
  destruct store as [f|]; [|done]. simpl.
  rewrite (update_history_same_status api api') by done.
  split; [done|]. exists (content f). eexists. split; [done|].
  by rewrite (update_history_same_status api api').
Qed.

Lemma main_on_valid_cache_asks_for_status_only_witness :
  is_cache_valid (mkCache "data/job_graph_cache.json" 24) 3600000000
    (Some (mkFile 0 (mkSnapshot [jobA; jobB; jobC] (node_link_data graph_chain) 0)))
  = true /\
  main (mkCache "data/job_graph_cache.json" 24) api_chain "dir" 3600000000
       (fun j => "t" +:+ job_id j)
       (Some (mkFile 0 (mkSnapshot [jobA; jobB; jobC] (node_link_data graph_chain) 0)))
       None
  = main (mkCache "data/job_graph_cache.json" 24) api_failing "other" 3600000000
       (fun j => "t" +:+ job_id j)
       (Some (mkFile 0 (mkSnapshot [jobA; jobB; jobC] (node_link_data graph_chain) 0)))
       None.
Proof.
  assert (Hvalid :
    is_cache_valid (mkCache "data/job_graph_cache.json" 24) 3600000000
      (Some (mkFile 0 (mkSnapshot [jobA; jobB; jobC] (node_link_data graph_chain) 0)))
    = true) by (vm_compute; reflexivity).
  split; [exact Hvalid|].
  refine (proj1 (main_on_valid_cache_asks_for_status_only _ api_chain api_failing
                   "dir" "other" _ _ _ None Hvalid _)).
  intros id. reflexivity.
Defined.

(** X21.  [view_job_history] prints at most 20 lines, one for each of
    the entries [/api/history] returns for the same job name at the
    limit 20, in the same order; with a job name every line is of an
    entry of that job. *)
Theorem view_job_history_prints_newest_20 (store : history_store)
    (job_name : option string) :
  (length (view_job_history store job_name) <= 20)%nat /\
  length (view_job_history store job_name) =
    length (api_history store job_name 20) /\
  (forall name, name <> "" ->
     view_job_history store (Some name) =
       map (fun entry => "  " +:+ e_timestamp entry +:+ ": " +:+ e_status entry)
           (newest 20 (filter (fun entry => e_job_name entry = name)
                              (load_history store)))) /\
  view_job_history store None =
    map (fun entry => "  " +:+ e_timestamp entry +:+ ": " +:+
                      e_job_name entry +:+ " - " +:+ e_status entry)
        (newest 20 (load_history store)).
Proof.
  assert (Hslice : py_slice_from (load_history store) (-20)
                   = newest 20 (load_history store)).
  { change (-20) with (- (20)). by rewrite py_slice_from_neg_literal. }
  assert (Hjob : forall name, get_job_history store name 20 =
            newest 20 (filter (fun entry => e_job_name entry = name)
                              (load_history store))).
  { intros name. by rewrite get_job_history_positive_limit. }
  split; [|split; [|split]].
  - unfold view_job_history.
    destruct (match job_name with
              | Some name => bool_decide (name <> "")
              | None => false
              end); rewrite length_map.
    + rewrite Hjob. apply length_newest.
    + rewrite Hslice. apply length_newest.
  - unfold view_job_history, api_history.
    destruct (match job_name with
              | Some name => bool_decide (name <> "")
              | None => false
              end); by rewrite length_map.
  - intros name Hne. unfold view_job_history. simpl.
    by rewrite bool_decide_true, Hjob.
  - unfold view_job_history. simpl. by rewrite Hslice.
Qed.

Lemma wf_graph_sample_graph : wf_graph sample_graph.
Proof. decide_by_computation. Qed.

(** X22.  The earlier dashboard's [get_job_data] never fails: where the
    current [get_job_data] returns, it returns the same jobs, graph and
    source and leaves the same cache file; where the current one
    raises, it returns the three sample jobs with the source ['sample']
    and leaves the cache file as it was, so sample data is never
    cached.  The graph it returns is always a graph object. *)
Theorem get_job_data_web_falls_back_to_sample (cache : JobCache)
    (api : TidalAPI) (dir : string) (now : Z) (store : option (file Snapshot)) :
  (forall r store',
     get_job_data cache api dir now store = (Ok r, store') ->
     get_job_data_web cache api dir now store = (r, store')) /\
  (forall e store',
     get_job_data cache api dir now store = (Raise e, store') ->
     get_job_data_web cache api dir now store
       = ((sample_jobs, sample_graph, "sample"), store)) /\
  ((get_job_data_web cache api dir now store).1.2 = "sample" ->
   (get_job_data_web cache api dir now store).2 = store /\
   exists e, (get_job_data cache api dir now store).1 = Raise e) /\
  wf_graph (get_job_data_web cache api dir now store).1.1.2.
Proof.
  unfold get_job_data, get_job_data_web.
  destruct (if is_cache_valid cache now store then load_cache store else None)
    as [snap|].
  { split; [by intros r store' [= <- <-]|]. split; [done|]. split; [done|].
    apply wf_graph_node_link_graph. }
  destruct (get_jobs api dir) as [jobs|e0].
  - destruct (build_job_graph jobs api) as [G|e1] eqn:Hb.
    + split; [by intros r store' [= <- <-]|]. split; [done|]. split; [done|].
      simpl. by eapply build_job_graph_wf.
    + split; [done|]. split; [done|]. split; [|apply wf_graph_sample_graph].
      intros _. split; [done|]. by eexists.
  - split; [done|]. split; [done|]. split; [|apply wf_graph_sample_graph].
    intros _. split; [done|]. by eexists.
Qed.
